(** * Corrugated sphere: mesh generators of the WebGL models

    A shallow embedding of the three [Model] implementations of the
    repository:
    - [Surface]: the lit, triangulated model of [src/model.js] (vertices,
      triangle indices, analytic and facet-weighted normals, buffer upload);
      [src/unnamed/part_001] is the same class with the analytic normals
      uploaded instead of the facet-weighted ones;
    - [Wireframe]: the curve-grid model of [src/unnamed/part_000] (U and V
      polylines, buffer upload and the line-strip draw calls).

    JavaScript numbers are kept abstract behind the class [JsNumber], so the
    layout theorems hold for every arithmetic, IEEE doubles included. What
    holds only up to rounding (the length of the facet-weighted normals, the
    seam) is proved for every arithmetic that rounds as IEEE 754 does (the
    laws [Rounded] and [Trigonometry]); what is exact in the reals (the
    analytic normals, the shape of the surface) is proved for the exact
    instance [xreal]. Loop counters, segment counts and indices are integers
    ([Z]): they stay far below 2^53, where doubles are exact. *)

From Stdlib Require Import ZArith List Lia Reals Lra.
From stdpp Require Import base option list gmap.

Local Open Scope Z_scope.

(** ** JavaScript numbers *)

(** The operations of the number type that the models use. [NaN] is what
    arithmetic makes of [undefined] (a read past the end of an array);
    [js_sqr x] is [x ** 2]; [Math_fround] is the rounding of a store into a
    [Float32Array]. *)
Class JsNumber (num : Type) := {
  NaN : num;
  of_Z : Z → num;
  js_add : num → num → num;
  js_sub : num → num → num;
  js_mul : num → num → num;
  js_div : num → num → num;
  js_sqr : num → num;
  Math_sqrt : num → num;
  Math_cos : num → num;
  Math_sin : num → num;
  Math_PI : num;
  Math_fround : num → num;
  (** [x ** 2] and [x * x] are the same number. *)
  js_sqr_mul : ∀ x, js_sqr x = js_mul x x
}.

Declare Scope js_scope.
Delimit Scope js_scope with js.
Infix "+" := js_add : js_scope.
Infix "-" := js_sub : js_scope.
Infix "*" := js_mul : js_scope.
Infix "/" := js_div : js_scope.

(** ** Loops *)

(** [for (let i = 0; i < bound; i++) s = body(i, s)]. *)
Definition for_lt {S : Type} (bound : Z) (body : Z → S → S) (s : S) : S :=
  foldl (λ s i, body i s) s (seqZ 0 bound).

(** [for (let i = 0; i <= bound; i++) s = body(i, s)]. *)
Definition for_le {S : Type} (bound : Z) (body : Z → S → S) (s : S) : S :=
  for_lt (bound + 1) body s.

(** [for (let i = 0; i < bound; i += 3) s = body(i, s)]. *)
Definition for_lt_by3 {S : Type} (bound : Z) (body : Z → S → S) (s : S) : S :=
  foldl (λ s t, body (3 * t) s) s (seqZ 0 ((bound + 2) `div` 3)).

(** ** Arrays of numbers *)

Definition vec3 (num : Type) : Type := num * num * num.

Section Arrays.
Context {num : Type} `{JsNumber num}.

(** [arr[idx]] used as a number. The index is itself a computed number:
    [None] is an index that is [NaN]. A missing element reads as
    [undefined], which arithmetic turns into [NaN]. *)
Definition elem (arr : list num) (idx : option Z) : num :=
  match idx with
  | Some k => if decide (0 ≤ k) then default NaN (arr !! Z.to_nat k) else NaN
  | None => NaN
  end.

(** [ints[i]] for an array of integers read at a loop counter; [None] is
    [undefined]. *)
Definition int_elem (ints : list Z) (i : Z) : option Z :=
  if decide (0 ≤ i) then ints !! Z.to_nat i else None.

(** An in-place update [arr[idx] = f(arr[idx])] of a [Float32Array]: the
    stored value is rounded, and a store outside the array is ignored. *)
Definition update (f : num → num) (arr : list num) (idx : option Z) : list num :=
  match idx with
  | Some k => if decide (0 ≤ k) then alter (λ y, Math_fround (f y)) (Z.to_nat k) arr else arr
  | None => arr
  end.

(** [arr[idx] += x] and [arr[idx] /= x] on a [Float32Array]. *)
Definition add_assign (arr : list num) (idx : option Z) (x : num) : list num :=
  update (λ y, y + x)%js arr idx.
Definition div_assign (arr : list num) (idx : option Z) (x : num) : list num :=
  update (λ y, y / x)%js arr idx.

(** [new Float32Array(length)]: zero-filled. *)
Definition Float32Array_zeros (length : nat) : list num := replicate length (of_Z 0).

(** [new Float32Array(array)] and [new Uint16Array(array)]: element-wise
    conversion. *)
Definition Float32Array_from (arr : list num) : list num := Math_fround <$> arr.
Definition ToUint16 (k : Z) : Z := k `mod` 65536.
Definition Uint16Array_from (arr : list Z) : list Z := ToUint16 <$> arr.

(** The [k]-th group of three numbers of a flat array. *)
Definition vertexAt (arr : list num) (k : nat) : option (vec3 num) :=
  x ← arr !! (3 * k)%nat; y ← arr !! (3 * k + 1)%nat; z ← arr !! (3 * k + 2)%nat;
  Some (x, y, z).

(** A list of points laid out flat, three numbers per point. *)
Definition flat3 (vs : list (vec3 num)) : list num :=
  vs ≫= λ '(x, y, z), [x; y; z].
End Arrays.

(** ** The WebGL context

    Only what the models touch: buffer names, the two binding points, the
    contents of the buffers, the buffer each vertex attribute reads from and
    the draw calls issued so far. *)

Section WebGL.
Context {num : Type} `{JsNumber num}.

Inductive TypedArray :=
| Float32Array (elems : list num)
| Uint16Array (elems : list Z).

Inductive BufferTarget := ARRAY_BUFFER | ELEMENT_ARRAY_BUFFER.

Inductive DrawMode := LINE_STRIP | TRIANGLES.

(** One [gl.drawArrays(mode, first, count)], with the buffers the enabled
    vertex attributes read from at that moment. *)
Record DrawCall := mkDrawCall {
  attribs : gmap Z nat;
  mode : DrawMode;
  first : Z;
  count : Z
}.

Record WebGL := mkWebGL {
  created : nat;
  arrayBinding : option nat;
  elementBinding : option nat;
  store : gmap nat TypedArray;
  attribSource : gmap Z nat;
  drawn : list DrawCall
}.

Definition emptyGL : WebGL := mkWebGL 0 None None ∅ ∅ [].

Definition createBuffer (gl : WebGL) : nat * WebGL :=
  (created gl,
   mkWebGL (S (created gl)) (arrayBinding gl) (elementBinding gl) (store gl)
     (attribSource gl) (drawn gl)).

Definition bindBuffer (target : BufferTarget) (buffer : nat) (gl : WebGL) : WebGL :=
  match target with
  | ARRAY_BUFFER =>
      mkWebGL (created gl) (Some buffer) (elementBinding gl) (store gl)
        (attribSource gl) (drawn gl)
  | ELEMENT_ARRAY_BUFFER =>
      mkWebGL (created gl) (arrayBinding gl) (Some buffer) (store gl)
        (attribSource gl) (drawn gl)
  end.

Definition bound (target : BufferTarget) (gl : WebGL) : option nat :=
  match target with
  | ARRAY_BUFFER => arrayBinding gl
  | ELEMENT_ARRAY_BUFFER => elementBinding gl
  end.

(** [gl.bufferData(target, data, gl.STATIC_DRAW)]: replaces the contents of
    the buffer bound to [target]; an error (and no change) when none is. *)
Definition bufferData (target : BufferTarget) (data : TypedArray) (gl : WebGL) : WebGL :=
  match bound target gl with
  | Some buffer =>
      mkWebGL (created gl) (arrayBinding gl) (elementBinding gl)
        (<[buffer := data]> (store gl)) (attribSource gl) (drawn gl)
  | None => gl
  end.

(** [gl.vertexAttribPointer(index, 3, gl.FLOAT, false, 0, 0)]: the attribute
    reads from the buffer bound to [ARRAY_BUFFER] from now on. *)
Definition vertexAttribPointer (index : Z) (gl : WebGL) : WebGL :=
  match arrayBinding gl with
  | Some buffer =>
      mkWebGL (created gl) (arrayBinding gl) (elementBinding gl) (store gl)
        (<[index := buffer]> (attribSource gl)) (drawn gl)
  | None => gl
  end.

Definition drawArrays (mode : DrawMode) (first count : Z) (gl : WebGL) : WebGL :=
  mkWebGL (created gl) (arrayBinding gl) (elementBinding gl) (store gl)
    (attribSource gl) (drawn gl ++ [mkDrawCall (attribSource gl) mode first count]).

(** One [gl.drawElements(mode, count, gl.UNSIGNED_SHORT, offset)]: what the
    call is given, the buffers the vertex attributes read from and the buffer
    bound to [ELEMENT_ARRAY_BUFFER] at that moment. *)
Record DrawElementsCall := mkDrawElementsCall {
  elementsAttribs : gmap Z nat;
  elementsBuffer : option nat;
  elementsMode : DrawMode;
  elementsCount : Z;
  elementsOffset : Z
}.

Definition drawElements (mode : DrawMode) (count offset : Z) (gl : WebGL) : DrawElementsCall :=
  mkDrawElementsCall (attribSource gl) (elementBinding gl) mode count offset.
End WebGL.

Arguments TypedArray : clear implicits.
Arguments DrawCall : clear implicits.
Arguments WebGL : clear implicits.

(** A call either completes normally or throws. [InvalidParameter] is the
    one error the specification names; no function of the repository throws
    it, or anything else. *)
Inductive JsError := InvalidParameter.

Inductive Completion (A : Type) :=
| Normal (value : A)
| Throw (error : JsError).
Arguments Normal {A} value.
Arguments Throw {A} error.

(** ** The triangulated model ([src/model.js]) *)

Module Surface.
Section Model.
Context {num : Type} `{JsNumber num}.

Record Model := mkModel {
  radius : num;
  a : num;
  n : num;
  segmentsCountU : Z;
  segmentsCountV : Z;
  vertexBuffer : nat;
  indexBuffer : nat;
  normalBuffer : nat
}.

(** [getVertices()] *)
Definition getVertices (this : Model) : list num :=
  for_le (segmentsCountU this) (λ i vertices,
    let phi := (of_Z i / of_Z (segmentsCountU this) * of_Z 2 * Math_PI)%js in
    for_le (segmentsCountV this) (λ j vertices,
      let v := (of_Z j / of_Z (segmentsCountV this) * Math_PI)%js in
      let cosV := Math_cos v in
      let sinV := Math_sin v in
      let similarPart :=
        (radius this * cosV + a this * (of_Z 1 - sinV) * Math_cos (n this * phi))%js in
      let x := (similarPart * Math_cos phi)%js in
      let y := (similarPart * Math_sin phi)%js in
      let z := (radius this * sinV)%js in
      vertices ++ [x; y; z]) vertices) [].

(** [getIndices()] *)
Definition getIndices (this : Model) : list Z :=
  for_lt (segmentsCountU this) (λ i indices,
    for_lt (segmentsCountV this) (λ j indices,
      let point := i * (segmentsCountV this + 1) + j in
      let pointInNextRow := point + (segmentsCountV this + 1) in
      (indices ++ [point; pointInNextRow; point + 1])
        ++ [point + 1; pointInNextRow; pointInNextRow + 1]) indices) [].

(** [getNormals()] *)
Definition getNormals (this : Model) : list num :=
  for_le (segmentsCountU this) (λ i normals,
    let phi := (of_Z i / of_Z (segmentsCountU this) * of_Z 2 * Math_PI)%js in
    for_le (segmentsCountV this) (λ j normals,
      let v := (of_Z j / of_Z (segmentsCountV this) * Math_PI)%js in
      let nx := (Math_cos v * Math_cos phi)%js in
      let ny := (Math_cos v * Math_sin phi)%js in
      let nz := Math_sin v in
      normals ++ [nx; ny; nz]) normals) [].

(** The body of the first loop of [getFacetWeightedNormals], at the loop
    counter [i]: the weighted normal of the facet whose corners are
    [indices[i]], [indices[i + 1]] and [indices[i + 2]] is added to the three
    corners. *)
Definition accumulateFacet (vertices : list num) (indices : list Z) (i : Z)
    (normals : list num) : list num :=
  let firstIndex := (λ k, k * 3) <$> int_elem indices i in
  let secondIndex := (λ k, k * 3) <$> int_elem indices (i + 1) in
  let thirdIndex := (λ k, k * 3) <$> int_elem indices (i + 2) in
  let at1 (idx : option Z) := (λ k, k + 1) <$> idx in
  let at2 (idx : option Z) := (λ k, k + 2) <$> idx in
  let firstVertex :=
    (elem vertices firstIndex, elem vertices (at1 firstIndex), elem vertices (at2 firstIndex)) in
  let secondVertex :=
    (elem vertices secondIndex, elem vertices (at1 secondIndex), elem vertices (at2 secondIndex)) in
  let thirdVertex :=
    (elem vertices thirdIndex, elem vertices (at1 thirdIndex), elem vertices (at2 thirdIndex)) in
  let '(f0, f1, f2) := firstVertex in
  let '(s0, s1, s2) := secondVertex in
  let '(t0, t1, t2) := thirdVertex in
  let firstEdge := (s0 - f0, s1 - f1, s2 - f2)%js in
  let secondEdge := (t0 - f0, t1 - f1, t2 - f2)%js in
  let '(a0, a1, a2) := firstEdge in
  let '(b0, b1, b2) := secondEdge in
  let normal0 := (a1 * b2 - a2 * b1)%js in
  let normal1 := (a2 * b0 - a0 * b2)%js in
  let normal2 := (a0 * b1 - a1 * b0)%js in
  let normalLength := Math_sqrt (js_sqr normal0 + js_sqr normal1 + js_sqr normal2)%js in
  let normals := add_assign normals firstIndex (normal0 * normalLength)%js in
  let normals := add_assign normals (at1 firstIndex) (normal1 * normalLength)%js in
  let normals := add_assign normals (at2 firstIndex) (normal2 * normalLength)%js in
  let normals := add_assign normals secondIndex (normal0 * normalLength)%js in
  let normals := add_assign normals (at1 secondIndex) (normal1 * normalLength)%js in
  let normals := add_assign normals (at2 secondIndex) (normal2 * normalLength)%js in
  let normals := add_assign normals thirdIndex (normal0 * normalLength)%js in
  let normals := add_assign normals (at1 thirdIndex) (normal1 * normalLength)%js in
  let normals := add_assign normals (at2 thirdIndex) (normal2 * normalLength)%js in
  normals.

(** The first loop: one pass over the index triples. *)
Definition accumulateFacets (vertices : list num) (indices : list Z)
    (normals : list num) : list num :=
  for_lt_by3 (Z.of_nat (length indices)) (accumulateFacet vertices indices) normals.

(** The body of the second loop, at the loop counter [i]: the three numbers
    from [i] on are divided by their length. *)
Definition normalizeAt (i : Z) (normals : list num) : list num :=
  let nx := elem normals (Some i) in
  let ny := elem normals (Some (i + 1)) in
  let nz := elem normals (Some (i + 2)) in
  let nLength := Math_sqrt (nx * nx + ny * ny + nz * nz)%js in
  let normals := div_assign normals (Some i) nLength in
  let normals := div_assign normals (Some (i + 1)) nLength in
  let normals := div_assign normals (Some (i + 2)) nLength in
  normals.

(** The second loop: one pass over the groups of three numbers. *)
Definition normalizeInPlace (normals : list num) : list num :=
  for_lt_by3 (Z.of_nat (length normals)) normalizeAt normals.

(** [getFacetWeightedNormals(vertices, indices)] *)
Definition getFacetWeightedNormals (vertices : list num) (indices : list Z) : list num :=
  let normals := Float32Array_zeros (length vertices) in
  let normals := accumulateFacets vertices indices normals in
  normalizeInPlace normals.

(** [bufferData()] of [src/model.js]: the facet-weighted normals are
    uploaded. *)
Definition Model_bufferData (this : Model) (gl : WebGL num) : WebGL num :=
  let vertices := getVertices this in
  let gl := bindBuffer ARRAY_BUFFER (vertexBuffer this) gl in
  let gl := bufferData ARRAY_BUFFER (Float32Array (Float32Array_from vertices)) gl in
  let indices := getIndices this in
  let gl := bindBuffer ELEMENT_ARRAY_BUFFER (indexBuffer this) gl in
  let gl := bufferData ELEMENT_ARRAY_BUFFER (Uint16Array (Uint16Array_from indices)) gl in
  let normals := getFacetWeightedNormals vertices indices in
  let gl := bindBuffer ARRAY_BUFFER (normalBuffer this) gl in
  bufferData ARRAY_BUFFER (Float32Array (Float32Array_from normals)) gl.

(** [bufferData()] of [src/unnamed/part_001]: the analytic normals are
    uploaded, and the indices last. *)
Definition Model_bufferData_analytic (this : Model) (gl : WebGL num) : WebGL num :=
  let vertices := getVertices this in
  let gl := bindBuffer ARRAY_BUFFER (vertexBuffer this) gl in
  let gl := bufferData ARRAY_BUFFER (Float32Array (Float32Array_from vertices)) gl in
  let normals := getNormals this in
  let gl := bindBuffer ARRAY_BUFFER (normalBuffer this) gl in
  let gl := bufferData ARRAY_BUFFER (Float32Array (Float32Array_from normals)) gl in
  let indices := getIndices this in
  let gl := bindBuffer ELEMENT_ARRAY_BUFFER (indexBuffer this) gl in
  bufferData ELEMENT_ARRAY_BUFFER (Uint16Array (Uint16Array_from indices)) gl.

(** [new Model(gl, shaderProgram, radius, corrugation, waveCount,
    segmentsCountByU, segmentsCountByV)]: the fields are assigned, three
    buffers are created and [bufferData()] runs. The body has no [throw] and
    no test of its arguments, so the call always completes normally. *)
Definition new_Model (gl : WebGL num) (radius corrugation waveCount : num)
    (segmentsCountByU segmentsCountByV : Z) : Completion (Model * WebGL num) :=
  let '(vertexBuffer, gl) := createBuffer gl in
  let '(indexBuffer, gl) := createBuffer gl in
  let '(normalBuffer, gl) := createBuffer gl in
  let this :=
    mkModel radius corrugation waveCount segmentsCountByU segmentsCountByV
      vertexBuffer indexBuffer normalBuffer in
  Normal (this, Model_bufferData this gl).

(** [draw()]; [aVertex] and [aNormal] are the attribute locations kept by
    the shader program. The context after the call, and the one
    [drawElements] it issues. *)
Definition Model_draw (aVertex aNormal : Z) (this : Model) (gl : WebGL num)
    : WebGL num * DrawElementsCall :=
  let gl := bindBuffer ARRAY_BUFFER (vertexBuffer this) gl in
  let gl := vertexAttribPointer aVertex gl in
  let gl := bindBuffer ARRAY_BUFFER (normalBuffer this) gl in
  let gl := vertexAttribPointer aNormal gl in
  let gl := bindBuffer ELEMENT_ARRAY_BUFFER (indexBuffer this) gl in
  (gl, drawElements TRIANGLES (segmentsCountU this * segmentsCountV this * 6) 0 gl).
End Model.
Arguments Model : clear implicits.
End Surface.


(** ** The curve-grid model ([src/unnamed/part_000]) *)

Module Wireframe.
Section Model.
Context {num : Type} `{JsNumber num}.

(** The fields of the object ([name] is never read and is left out). *)
Record Model := mkModel {
  radius : num;
  corrugation : num;
  n : num;
  segmentsU : Z;
  segmentsV : Z;
  uVertexBuffer : nat;
  vVertexBuffer : nat;
  uVertexCount : Z;
  vVertexCount : Z
}.

(** [new Model(name, radius, corrugation, waveCount, linesCount)] *)
Definition new_Model (gl : WebGL num) (radius corrugation waveCount : num)
    (linesCount : Z) : Model * WebGL num :=
  let '(uVertexBuffer, gl) := createBuffer gl in
  let '(vVertexBuffer, gl) := createBuffer gl in
  (mkModel radius corrugation waveCount linesCount linesCount
     uVertexBuffer vVertexBuffer 0 0, gl).

(** [createUVertices()] *)
Definition createUVertices (this : Model) : list num :=
  let R := radius this in
  let a := corrugation this in
  let n := n this in
  for_le (segmentsU this) (λ i vertices,
    let phi := (of_Z i / of_Z (segmentsU this) * of_Z 2 * Math_PI)%js in
    for_le (segmentsV this) (λ j vertices,
      let v := (of_Z j / of_Z (segmentsV this) * Math_PI)%js in
      let cosV := Math_cos v in
      let sinV := Math_sin v in
      let similarPart := (R * cosV + a * (of_Z 1 - sinV) * Math_cos (n * phi))%js in
      let x := (similarPart * Math_cos phi)%js in
      let y := (similarPart * Math_sin phi)%js in
      let z := (R * sinV)%js in
      vertices ++ [x; y; z]) vertices) [].

(** [createVVertices()] *)
Definition createVVertices (this : Model) : list num :=
  let R := radius this in
  let a := corrugation this in
  let n := n this in
  for_le (segmentsV this) (λ j vertices,
    let v := (of_Z j / of_Z (segmentsV this) * Math_PI)%js in
    for_le (segmentsU this) (λ i vertices,
      let phi := (of_Z i / of_Z (segmentsU this) * of_Z 2 * Math_PI)%js in
      let cosV := Math_cos v in
      let sinV := Math_sin v in
      let cosNPhi := Math_cos (n * phi)%js in
      let similarPart := (R * cosV + a * (of_Z 1 - sinV) * cosNPhi)%js in
      let x := (similarPart * Math_cos phi)%js in
      let y := (similarPart * Math_sin phi)%js in
      let z := (R * sinV)%js in
      vertices ++ [x; y; z]) vertices) [].

(** [bufferData()]. The two counts are [length / 3]; the lengths are
    multiples of three, so the quotient is an integer. *)
Definition Model_bufferData (this : Model) (gl : WebGL num) : Model * WebGL num :=
  let uVertices := createUVertices this in
  let gl := bindBuffer ARRAY_BUFFER (uVertexBuffer this) gl in
  let gl := bufferData ARRAY_BUFFER (Float32Array (Float32Array_from uVertices)) gl in
  let uVertexCount := Z.of_nat (length uVertices) `div` 3 in
  let vVertices := createVVertices this in
  let gl := bindBuffer ARRAY_BUFFER (vVertexBuffer this) gl in
  let gl := bufferData ARRAY_BUFFER (Float32Array (Float32Array_from vVertices)) gl in
  let vVertexCount := Z.of_nat (length vVertices) `div` 3 in
  (mkModel (radius this) (corrugation this) (n this) (segmentsU this) (segmentsV this)
     (uVertexBuffer this) (vVertexBuffer this) uVertexCount vVertexCount, gl).

(** [draw()]; [iAttribVertex] is the attribute location kept by the shader
    program. Enabling the attribute and setting the colour uniform change
    nothing that is modelled. *)
Definition draw (iAttribVertex : Z) (this : Model) (gl : WebGL num) : WebGL num :=
  let gl := bindBuffer ARRAY_BUFFER (uVertexBuffer this) gl in
  let gl := vertexAttribPointer iAttribVertex gl in
  let gl :=
    for_lt (segmentsU this) (λ i gl,
      drawArrays LINE_STRIP (i * (segmentsV this + 1)) (segmentsV this + 1) gl) gl in
  let gl := bindBuffer ARRAY_BUFFER (vVertexBuffer this) gl in
  let gl := vertexAttribPointer iAttribVertex gl in
  for_lt (segmentsV this) (λ i gl,
    drawArrays LINE_STRIP (i * (segmentsU this + 1)) (segmentsU this + 1) gl) gl.
End Model.
Arguments Model : clear implicits.
End Wireframe.

(** ** The frame loops ([src/unnamed/part_002] and [src/main.js])

    Every animation frame calls [updateModel()], which reads the parameters
    from the page and builds, uploads and draws a new model. The parameters
    are arguments here: [parseFloat] gives a number, [parseInt] an integer. *)

Module SurfaceMain.
Section Main.
Context {num : Type} `{JsNumber num}.

(** The parameters read in one frame. *)
Record Parameters := mkParameters {
  radius : num;
  amplitude : num;
  wavesCount : num;
  segmentsCountByU : Z;
  segmentsCountByV : Z
}.

(** [updateModel()] of [src/unnamed/part_002]: the constructor has already
    called [bufferData()] when [model.bufferData()] runs. *)
Definition updateModel (aVertex aNormal : Z) (gl : WebGL num) (p : Parameters)
    : Completion (Surface.Model num * WebGL num * DrawElementsCall) :=
  match
    Surface.new_Model gl (radius p) (amplitude p) (wavesCount p)
      (segmentsCountByU p) (segmentsCountByV p)
  with
  | Normal (model, gl) =>
      let gl := Surface.Model_bufferData model gl in
      let '(gl, call) := Surface.Model_draw aVertex aNormal model gl in
      Normal (model, gl, call)
  | Throw e => Throw e
  end.

(** A run of frames, one parameter set per frame: the context at the end
    and the draw calls issued, in order. *)
Definition frames (aVertex aNormal : Z) (ps : list Parameters) (gl : WebGL num)
    : Completion (WebGL num * list DrawElementsCall) :=
  foldl (λ state p,
    match state with
    | Normal (gl, calls) =>
        match updateModel aVertex aNormal gl p with
        | Normal (_, gl, call) => Normal (gl, calls ++ [call])
        | Throw e => Throw e
        end
    | Throw e => Throw e
    end) (Normal (gl, [])) ps.
End Main.
Arguments Parameters : clear implicits.
End SurfaceMain.

Module WireframeMain.
Section Main.
Context {num : Type} `{JsNumber num}.

(** [updateModel()] of [src/main.js], with the values read from the page as
    arguments. *)
Definition updateModel (iAttribVertex : Z) (gl : WebGL num)
    (radius amplitude wavesCount : num) (linesCount : Z)
    : Wireframe.Model num * WebGL num :=
  let '(model, gl) := Wireframe.new_Model gl radius amplitude wavesCount linesCount in
  let '(model, gl) := Wireframe.Model_bufferData model gl in
  (model, Wireframe.draw iAttribVertex model gl).
End Main.
End WireframeMain.

(** ** Exact arithmetic

    The numbers of IEEE 754 without rounding: the reals, the two infinities
    and NaN. Zero has no sign here, so a non-zero number divided by zero is
    the infinity of the sign of the numerator. *)

Inductive xreal :=
| Finite (r : R)
| Infinite (negative : bool)
| NotANumber.

Definition Rsign (r : R) : comparison :=
  match total_order_T r 0 with
  | inleft (left _) => Lt
  | inleft (right _) => Eq
  | inright _ => Gt
  end.

Definition x_neg (x : xreal) : xreal :=
  match x with
  | Finite r => Finite (- r)
  | Infinite s => Infinite (negb s)
  | NotANumber => NotANumber
  end.

Definition x_add (x y : xreal) : xreal :=
  match x, y with
  | Finite r, Finite s => Finite (r + s)
  | Finite _, Infinite s | Infinite s, Finite _ => Infinite s
  | Infinite s, Infinite t => if Bool.eqb s t then Infinite s else NotANumber
  | _, _ => NotANumber
  end.

Definition x_sub (x y : xreal) : xreal := x_add x (x_neg y).

Definition x_mul (x y : xreal) : xreal :=
  match x, y with
  | Finite r, Finite s => Finite (r * s)
  | Finite r, Infinite s | Infinite s, Finite r =>
      match Rsign r with
      | Eq => NotANumber
      | Lt => Infinite (negb s)
      | Gt => Infinite s
      end
  | Infinite s, Infinite t => Infinite (xorb s t)
  | _, _ => NotANumber
  end.

Definition x_div (x y : xreal) : xreal :=
  match x, y with
  | Finite r, Finite s =>
      match Rsign s, Rsign r with
      | Eq, Eq => NotANumber
      | Eq, Lt => Infinite true
      | Eq, Gt => Infinite false
      | _, _ => Finite (r / s)
      end
  | Finite _, Infinite _ => Finite 0
  | Infinite s, Finite r =>
      match Rsign r with
      | Lt => Infinite (negb s)
      | _ => Infinite s
      end
  | _, _ => NotANumber
  end.

Definition x_sqrt (x : xreal) : xreal :=
  match x with
  | Finite r => match Rsign r with Lt => NotANumber | _ => Finite (sqrt r) end
  | Infinite false => Infinite false
  | _ => NotANumber
  end.

Definition x_cos (x : xreal) : xreal :=
  match x with Finite r => Finite (cos r) | _ => NotANumber end.

Definition x_sin (x : xreal) : xreal :=
  match x with Finite r => Finite (sin r) | _ => NotANumber end.

#[export] Instance xreal_number : JsNumber xreal := {|
  NaN := NotANumber;
  of_Z := λ k, Finite (IZR k);
  js_add := x_add;
  js_sub := x_sub;
  js_mul := x_mul;
  js_div := x_div;
  js_sqr := λ x, x_mul x x;
  Math_sqrt := x_sqrt;
  Math_cos := x_cos;
  Math_sin := x_sin;
  Math_PI := Finite PI;
  Math_fround := λ x, x;
  js_sqr_mul := λ x, eq_refl
|}.

(** ** The specification's vocabulary

    The surface function, the sampling of its two parameters, the row-major
    grid and the face-weighted strategy, written after the specification, to
    be compared with what the models compute. *)

Section Specification.
Context {num : Type} `{JsNumber num}.

(** [position(phi, v)] of the surface function. *)
Definition position (radius amplitude waveCount phi v : num) : vec3 num :=
  let cosV := Math_cos v in
  let sinV := Math_sin v in
  let similar :=
    (radius * cosV + amplitude * (of_Z 1 - sinV) * Math_cos (waveCount * phi))%js in
  (similar * Math_cos phi, similar * Math_sin phi, radius * sinV)%js.

(** [analyticNormal(phi, v)]: the normal of the undisplaced sphere. *)
Definition analyticNormal (phi v : num) : vec3 num :=
  (Math_cos v * Math_cos phi, Math_cos v * Math_sin phi, Math_sin v)%js.

(** The samples [i/segmentsU * 2π] and [j/segmentsV * π]. *)
Definition sample_phi (segmentsU i : Z) : num :=
  (of_Z i / of_Z segmentsU * of_Z 2 * Math_PI)%js.
Definition sample_v (segmentsV j : Z) : num :=
  (of_Z j / of_Z segmentsV * Math_PI)%js.

(** A table with [rows] rows and [cols] columns, row after row. *)
Definition grid {A : Type} (rows cols : Z) (f : Z → Z → A) : list A :=
  seqZ 0 rows ≫= λ i, f i <$> seqZ 0 cols.

(** What the cells of such a table emit, cell after cell in the same
    order. *)
Definition cells {A : Type} (rows cols : Z) (f : Z → Z → list A) : list A :=
  seqZ 0 rows ≫= λ i, seqZ 0 cols ≫= f i.

(** The two triangles of the cell [(i, j)]. *)
Definition cellTriangles (segmentsV i j : Z) : list Z :=
  let p := i * (segmentsV + 1) + j in
  let q := p + (segmentsV + 1) in
  [p; q; p + 1; p + 1; q; q + 1].

(** Vectors. *)
Definition vzero : vec3 num := (of_Z 0, of_Z 0, of_Z 0).
Definition vnan : vec3 num := (NaN, NaN, NaN).

Definition vsub (p q : vec3 num) : vec3 num :=
  let '(p0, p1, p2) := p in
  let '(q0, q1, q2) := q in
  (p0 - q0, p1 - q1, p2 - q2)%js.

Definition cross (e f : vec3 num) : vec3 num :=
  let '(e0, e1, e2) := e in
  let '(f0, f1, f2) := f in
  (e1 * f2 - e2 * f1, e2 * f0 - e0 * f2, e0 * f1 - e1 * f0)%js.

Definition vlength (p : vec3 num) : num :=
  let '(x, y, z) := p in Math_sqrt (x * x + y * y + z * z)%js.

Definition scale (p : vec3 num) (k : num) : vec3 num :=
  let '(x, y, z) := p in (x * k, y * k, z * k)%js.

(** Sum and quotient as they are stored in a single-precision accumulator. *)
Definition stored_sum (p w : vec3 num) : vec3 num :=
  let '(x, y, z) := p in
  let '(w0, w1, w2) := w in
  (Math_fround (x + w0), Math_fround (y + w1), Math_fround (z + w2))%js.

Definition stored_quotient (p : vec3 num) (k : num) : vec3 num :=
  let '(x, y, z) := p in
  (Math_fround (x / k), Math_fround (y / k), Math_fround (z / k))%js.

(** The vertex of index [k]; a vertex that does not exist has no
    coordinates. *)
Definition vertexOf (vs : list (vec3 num)) (k : Z) : vec3 num :=
  if decide (0 ≤ k) then default vnan (vs !! Z.to_nat k) else vnan.

(** The cross product of the two edges of a triangle, scaled by its own
    length. *)
Definition facetWeight (vs : list (vec3 num)) (t : Z * Z * Z) : vec3 num :=
  let '(i1, i2, i3) := t in
  let c := cross (vsub (vertexOf vs i2) (vertexOf vs i1))
                 (vsub (vertexOf vs i3) (vertexOf vs i1)) in
  scale c (vlength c).

(** Adding a contribution to the accumulator of one vertex. *)
Definition addAt (acc : list (vec3 num)) (k : Z) (w : vec3 num) : list (vec3 num) :=
  if decide (0 ≤ k) then alter (λ p, stored_sum p w) (Z.to_nat k) acc else acc.

(** One triangle: its contribution goes to its three corners. *)
Definition addFacet (vs : list (vec3 num)) (acc : list (vec3 num)) (t : Z * Z * Z) : list (vec3 num) :=
  let '(i1, i2, i3) := t in
  let w := facetWeight vs t in
  addAt (addAt (addAt acc i1 w) i2 w) i3 w.

(** The accumulators after all triangles, starting from zero. *)
Definition accumulated (vs : list (vec3 num)) (ts : list (Z * Z * Z)) : list (vec3 num) :=
  foldl (addFacet vs) (replicate (length vs) vzero) ts.

(** Every accumulated vector divided by its own length. *)
Definition normalized (p : vec3 num) : vec3 num := stored_quotient p (vlength p).

(** The face-weighted strategy. *)
Definition faceWeightedNormals (vs : list (vec3 num)) (ts : list (Z * Z * Z)) : list (vec3 num) :=
  normalized <$> accumulated vs ts.

(** An index list of whole triangles, laid out flat. *)
Definition flatTriangles (ts : list (Z * Z * Z)) : list Z :=
  ts ≫= λ '(i1, i2, i3), [i1; i2; i3].
End Specification.

(** ** The curves of the wireframe *)

Section WireframeSpecification.
Context {num : Type} `{JsNumber num}.
Import Wireframe.

(** The coordinates that [gl.drawArrays(gl.LINE_STRIP, first, count)] reads
    from a buffer of tightly packed points of three floats. *)
Definition strip (buffer : list num) (first count : Z) : list num :=
  take (3 * Z.to_nat count) (drop (3 * Z.to_nat first) buffer).

(** The U-curve of index [i] and the V-curve of index [j], as the
    specification describes them. *)
Definition uCurve (m : Model num) (i : Z) : list (vec3 num) :=
  (λ j, position (radius m) (corrugation m) (n m)
          (sample_phi (segmentsU m) i) (sample_v (segmentsV m) j))
    <$> seqZ 0 (segmentsV m + 1).

Definition vCurve (m : Model num) (j : Z) : list (vec3 num) :=
  (λ i, position (radius m) (corrugation m) (n m)
          (sample_phi (segmentsU m) i) (sample_v (segmentsV m) j))
    <$> seqZ 0 (segmentsU m + 1).
End WireframeSpecification.

(** ** The strategy on real coordinates *)

Section ExactSpecification.
Local Open Scope R_scope.

(** A vector of real coordinates as a vector of numbers. *)
Definition finite3 (p : R * R * R) : vec3 xreal :=
  let '(x, y, z) := p in (Finite x, Finite y, Finite z).

(** The strategy on real coordinates: the weighted normal of a facet, the
    vertex of an index, and one facet added to the accumulators. *)
Definition weightR (p1 p2 p3 : R * R * R) : R * R * R :=
  let '(f0, f1, f2) := p1 in
  let '(s0, s1, s2) := p2 in
  let '(t0, t1, t2) := p3 in
  let n0 := (s1 - f1) * (t2 - f2) - (s2 - f2) * (t1 - f1) in
  let n1 := (s2 - f2) * (t0 - f0) - (s0 - f0) * (t2 - f2) in
  let n2 := (s0 - f0) * (t1 - f1) - (s1 - f1) * (t0 - f0) in
  let len := sqrt (n0 * n0 + n1 * n1 + n2 * n2) in
  (n0 * len, n1 * len, n2 * len).

Definition vertexOfR (rvs : list (R * R * R)) (k : Z) : R * R * R :=
  default (0, 0, 0) (rvs !! Z.to_nat k).

Definition addAtR (racc : list (R * R * R)) (k : Z) (w : R * R * R) : list (R * R * R) :=
  alter (λ '(x, y, z), let '(w0, w1, w2) := w in (x + w0, y + w1, z + w2)) (Z.to_nat k) racc.

Definition addFacetR (rvs racc : list (R * R * R)) (t : Z * Z * Z) : list (R * R * R) :=
  let '(i1, i2, i3) := t in
  let w := weightR (vertexOfR rvs i1) (vertexOfR rvs i2) (vertexOfR rvs i3) in
  addAtR (addAtR (addAtR racc i1 w) i2 w) i3 w.

(** A triangle whose three corners are vertices. *)
Definition cornersBelow (count : nat) (t : Z * Z * Z) : Prop :=
  let '(i1, i2, i3) := t in
  ((0 ≤ i1 < Z.of_nat count) ∧ (0 ≤ i2 < Z.of_nat count) ∧ (0 ≤ i3 < Z.of_nat count))%Z.

(** The position of a sample in real coordinates. *)
Definition positionR (r c w : R) (segmentsU segmentsV i j : Z) : R * R * R :=
  let phi := IZR i / IZR segmentsU * 2 * PI in
  let v := IZR j / IZR segmentsV * PI in
  let s := r * cos v + c * (1 - sin v) * cos (w * phi) in
  (s * cos phi, s * sin phi, r * sin v).

(** The two triangles of a cell, as triangles. *)
Definition cellFacets (segmentsV i j : Z) : list (Z * Z * Z) :=
  let p := (i * (segmentsV + 1) + j)%Z in
  let q := (p + (segmentsV + 1))%Z in
  [(p, q, p + 1)%Z; (p + 1, q, q + 1)%Z].
End ExactSpecification.

(** ** Rounded arithmetic

    What the theorems on lengths and distances assume of a number type that
    rounds. [value] reads a number as a real, an infinity or NaN; a zero of
    either sign reads as 0. The laws are those of IEEE 754 binary64 with
    rounding to nearest, which is the arithmetic of JavaScript numbers, and
    of the conversion to binary32 that a store into a [Float32Array] makes.
    Exact arithmetic satisfies them too ([xreal_rounded]). *)

Section RoundedArithmetic.
Local Open Scope R_scope.

(** The unit roundoff of binary64, half the spacing of its subnormal
    numbers, its smallest normal number, and a bound below its largest
    number. *)
Definition u64 : R := / 2 ^ 53.
Definition eta64 : R := / 2 ^ 1075.
Definition tiny64 : R := / 2 ^ 1022.
Definition huge64 : R := 2 ^ 1023.

(** The same for binary32, with its smallest subnormal number for
    [tiny32]. *)
Definition u32 : R := / 2 ^ 24.
Definition eta32 : R := / 2 ^ 150.
Definition tiny32 : R := / 2 ^ 149.
Definition huge32 : R := 2 ^ 127.

(** Zero, or in the range of the normal binary64 numbers. *)
Definition normal64 (r : R) : Prop := r = 0 ∨ tiny64 <= Rabs r <= huge64.

(** A single-precision number: zero, or between the smallest subnormal
    number of binary32 and [2^128]. *)
Definition single (r : R) : Prop := r = 0 ∨ tiny32 <= Rabs r <= 2 * huge32.

(** What a [Float32Array] holds when it is not NaN: a single-precision
    number or an infinity. *)
Definition stored (x : xreal) : Prop :=
  match x with
  | Finite r => single r
  | Infinite _ => True
  | NotANumber => False
  end.

(** [computed] is [exact] rounded to nearest: within one unit roundoff, up
    to half the spacing of the subnormal numbers; within one unit roundoff
    alone when [exact] is zero or in the normal range. *)
Definition rounds (exact computed : R) : Prop :=
  Rabs (computed - exact) <= u64 * Rabs exact + eta64 ∧
  (normal64 exact → Rabs (computed - exact) <= u64 * Rabs exact).

Record Rounded {num : Type} `{JsNumber num} (value : num → xreal) : Prop := {
  (** The integers up to [2^53] are numbers. *)
  rounded_of_Z : ∀ k : Z, (Z.abs k ≤ 2 ^ 53)%Z → value (of_Z k) = Finite (IZR k);
  (** A sum or a difference that does not overflow is rounded to nearest;
      it does not underflow, a sum in the subnormal range being exact. *)
  rounded_add : ∀ x y a b, value x = Finite a → value y = Finite b →
    Rabs (a + b) <= huge64 →
    ∃ c, value (x + y)%js = Finite c ∧ Rabs (c - (a + b)) <= u64 * Rabs (a + b);
  rounded_sub : ∀ x y a b, value x = Finite a → value y = Finite b →
    Rabs (a - b) <= huge64 →
    ∃ c, value (x - y)%js = Finite c ∧ Rabs (c - (a - b)) <= u64 * Rabs (a - b);
  (** A product or a quotient that does not overflow is rounded to
      nearest. *)
  rounded_mul : ∀ x y a b, value x = Finite a → value y = Finite b →
    Rabs (a * b) <= huge64 →
    ∃ c, value (x * y)%js = Finite c ∧ rounds (a * b) c;
  rounded_div : ∀ x y a b, value x = Finite a → value y = Finite b →
    b ≠ 0 → Rabs (a / b) <= huge64 →
    ∃ c, value (x / y)%js = Finite c ∧ rounds (a / b) c;
  (** Zero divided by zero is NaN. *)
  rounded_zero_div_zero : ∀ x y, value x = Finite 0 → value y = Finite 0 →
    value (x / y)%js = NotANumber;
  (** A square root is rounded to nearest; it neither overflows nor
      underflows. *)
  rounded_sqrt : ∀ x a, value x = Finite a → 0 <= a →
    ∃ c, value (Math_sqrt x) = Finite c ∧ Rabs (c - sqrt a) <= u64 * Rabs (sqrt a);
  (** A store into a [Float32Array] rounds to binary32: no overflow up to
      [2^127], one unit roundoff of binary32 or half the spacing of its
      subnormal numbers; NaN is stored as NaN. *)
  rounded_fround : ∀ x a, value x = Finite a → Rabs a <= huge32 →
    ∃ c, value (Math_fround x) = Finite c ∧ Rabs (c - a) <= u32 * Rabs a + eta32;
  rounded_fround_nan : ∀ x, value x = NotANumber → value (Math_fround x) = NotANumber;
  (** Infinities: the product of two is the infinity of the product of the
      signs; plus infinity added to a real or to plus infinity is plus
      infinity, and so is its square root; the quotient of two is NaN. *)
  rounded_mul_infinite : ∀ x y s t, value x = Infinite s → value y = Infinite t →
    value (x * y)%js = Infinite (xorb s t);
  rounded_add_infinite : ∀ x y,
    (value x = Infinite false ∧ (value y = Infinite false ∨ ∃ b, value y = Finite b)) ∨
    (value y = Infinite false ∧ ∃ a, value x = Finite a) →
    value (x + y)%js = Infinite false;
  rounded_sqrt_infinite : ∀ x, value x = Infinite false →
    value (Math_sqrt x) = Infinite false;
  rounded_div_infinite : ∀ x y s t, value x = Infinite s → value y = Infinite t →
    value (x / y)%js = NotANumber
}.

(** [Math.PI] is the number nearest to [π]. [Math.cos] and [Math.sin] are
    left to the implementation by the language; the engines compute them to
    less than one unit in the last place, and [2^-40] is all that is
    assumed here. *)
Definition trig_accuracy : R := / 2 ^ 40.

Record Trigonometry {num : Type} `{JsNumber num} (value : num → xreal) : Prop := {
  rounded_PI : ∃ p, value Math_PI = Finite p ∧ Rabs (p - PI) <= u64 * PI;
  rounded_cos : ∀ x t, value x = Finite t →
    ∃ c, value (Math_cos x) = Finite c ∧ Rabs (c - cos t) <= trig_accuracy;
  rounded_sin : ∀ x t, value x = Finite t →
    ∃ c, value (Math_sin x) = Finite c ∧ Rabs (c - sin t) <= trig_accuracy
}.
End RoundedArithmetic.

Section NumbersNearReals.
Context {num : Type} `{JsNumber num}.
Local Open Scope R_scope.


(** A number that is a real between 0 and [bound], or plus infinity. *)
Definition upto (value : num → xreal) (bound : R) (x : num) : Prop :=
  (∃ a, value x = Finite a ∧ 0 <= a <= bound) ∨ value x = Infinite false.
End NumbersNearReals.

(** An arithmetic that is exact but for [Math.PI], which it takes one part
    in [2^54] below [π]. The laws above allow it: they ask of [Math.PI] no
    more than to be within one unit roundoff of [π]. It serves to show what
    the laws alone do not give. *)
Definition skewed_PI : R := (PI * (1 - / 2 ^ 54))%R.

Definition skewed_number : JsNumber xreal := {|
  NaN := NotANumber;
  of_Z := λ k, Finite (IZR k);
  js_add := x_add;
  js_sub := x_sub;
  js_mul := x_mul;
  js_div := x_div;
  js_sqr := λ x, x_mul x x;
  Math_sqrt := x_sqrt;
  Math_cos := x_cos;
  Math_sin := x_sin;
  Math_PI := Finite skewed_PI;
  Math_fround := λ x, x;
  js_sqr_mul := λ x, eq_refl
|}.

(** * Proofs *)

(** ** Loops that push *)

Section Loops.
Context {A : Type}.

Lemma foldl_push {B : Type} (f : B → list A) (l : list B) (init : list A) :
  foldl (λ s i, s ++ f i) init l = init ++ l ≫= f.
Proof.
  revert init. induction l as [|x l IH]; intros init.
  - simpl. by rewrite app_nil_r.
  - rewrite bind_cons, app_assoc. simpl. apply IH.
Qed.

Lemma foldl_ext_in {B S : Type} (f g : S → B → S) (l : list B) (s : S) :
  (∀ s x, x ∈ l → f s x = g s x) → foldl f s l = foldl g s l.
Proof.
  revert s. induction l as [|x l IH]; intros s Hfg; simpl; [done|].
  rewrite Hfg by left. apply IH. intros s' y Hy. apply Hfg. by right.
Qed.

Lemma for_lt_push (bound : Z) (body : Z → list A → list A) (f : Z → list A) init :
  (∀ i s, 0 ≤ i < bound → body i s = s ++ f i) →
  for_lt bound body init = init ++ seqZ 0 bound ≫= f.
Proof.
  intros Hbody. unfold for_lt. rewrite <- foldl_push.
  apply foldl_ext_in. intros s i Hi. apply Hbody.
  apply elem_of_seqZ in Hi. lia.
Qed.

Lemma for_le_push (bound : Z) (body : Z → list A → list A) (f : Z → list A) init :
  (∀ i s, 0 ≤ i ≤ bound → body i s = s ++ f i) →
  for_le bound body init = init ++ seqZ 0 (bound + 1) ≫= f.
Proof. intros Hbody. apply for_lt_push. intros i s Hi. apply Hbody. lia. Qed.

(** Chunks of one length: the [t]-th element of the [k]-th chunk. *)
Lemma lookup_bind_uniform {B : Type} (f : B → list A) (c : nat) (l : list B) (k t : nat) (x : B) :
  (∀ y, length (f y) = c) → l !! k = Some x → (t < c)%nat →
  (l ≫= f) !! (k * c + t)%nat = f x !! t.
Proof.
  intros Hlen. revert k. induction l as [|y l IH]; intros k Hk Ht; [done|].
  rewrite bind_cons. destruct k as [|k]; simpl in *.
  - inversion Hk; subst. apply lookup_app_l. rewrite Hlen. lia.
  - rewrite lookup_app_r by (rewrite Hlen; lia).
    rewrite Hlen. replace (c + k * c + t - c)%nat with (k * c + t)%nat by lia.
    by apply IH.
Qed.

Lemma length_bind_uniform {B : Type} (f : B → list A) (c : nat) (l : list B) :
  (∀ y, length (f y) = c) → length (l ≫= f) = (length l * c)%nat.
Proof.
  intros Hlen. induction l as [|y l IH]; [done|].
  rewrite bind_cons, length_app, IH, Hlen. simpl. lia.
Qed.
End Loops.

(** ** Grids *)

Section Grid.
Context {A : Type}.

Lemma grid_length (rows cols : Z) (f : Z → Z → A) :
  length (grid rows cols f) = (Z.to_nat rows * Z.to_nat cols)%nat.
Proof.
  unfold grid. rewrite (length_bind_uniform _ (Z.to_nat cols)).
  - by rewrite length_seqZ.
  - intros i. by rewrite length_fmap, length_seqZ.
Qed.

Lemma grid_lookup (rows cols : Z) (f : Z → Z → A) (i j : Z) :
  0 ≤ i < rows → 0 ≤ j < cols →
  grid rows cols f !! Z.to_nat (i * cols + j) = Some (f i j).
Proof.
  intros Hi Hj. unfold grid.
  replace (Z.to_nat (i * cols + j))
    with (Z.to_nat i * Z.to_nat cols + Z.to_nat j)%nat by nia.
  rewrite (lookup_bind_uniform _ (Z.to_nat cols) _ _ _ i).
  - rewrite list_lookup_fmap, lookup_seqZ_lt by lia.
    simpl. do 2 f_equal. lia.
  - intros y. by rewrite length_fmap, length_seqZ.
  - rewrite lookup_seqZ_lt by lia. f_equal. lia.
  - lia.
Qed.

Lemma cells_length (c : nat) (rows cols : Z) (f : Z → Z → list A) :
  (∀ i j, length (f i j) = c) →
  length (cells rows cols f) = (Z.to_nat rows * Z.to_nat cols * c)%nat.
Proof.
  intros Hc. unfold cells.
  rewrite (length_bind_uniform _ (Z.to_nat cols * c)%nat).
  - rewrite length_seqZ. lia.
  - intros i. rewrite (length_bind_uniform _ c) by done. by rewrite length_seqZ.
Qed.

Lemma cells_lookup (c : nat) (rows cols : Z) (f : Z → Z → list A) (i j : Z) (t : nat) :
  (∀ i j, length (f i j) = c) → 0 ≤ i < rows → 0 ≤ j < cols → (t < c)%nat →
  cells rows cols f !! (c * Z.to_nat (i * cols + j) + t)%nat = f i j !! t.
Proof.
  intros Hc Hi Hj Ht. unfold cells.
  replace (c * Z.to_nat (i * cols + j) + t)%nat
    with (Z.to_nat i * (Z.to_nat cols * c) + (Z.to_nat j * c + t))%nat by nia.
  rewrite (lookup_bind_uniform _ (Z.to_nat cols * c)%nat _ _ _ i).
  - rewrite (lookup_bind_uniform _ c _ _ _ j); [done|done| |done].
    rewrite lookup_seqZ_lt by lia. f_equal. lia.
  - intros y. rewrite (length_bind_uniform _ c) by done. by rewrite length_seqZ.
  - rewrite lookup_seqZ_lt by lia. f_equal. lia.
  - nia.
Qed.

Lemma cells_Forall (P : A → Prop) (rows cols : Z) (f : Z → Z → list A) :
  (∀ i j, 0 ≤ i < rows → 0 ≤ j < cols → Forall P (f i j)) →
  Forall P (cells rows cols f).
Proof.
  intros HP. unfold cells. apply Forall_bind, Forall_seqZ. intros i Hi. simpl.
  apply Forall_bind, Forall_seqZ. intros j Hj. simpl. apply HP; lia.
Qed.

Lemma grid_Forall (P : A → Prop) (rows cols : Z) (f : Z → Z → A) :
  (∀ i j, 0 ≤ i < rows → 0 ≤ j < cols → P (f i j)) →
  Forall P (grid rows cols f).
Proof.
  intros HP. unfold grid. apply Forall_bind, Forall_seqZ. intros i Hi. simpl.
  apply Forall_fmap, Forall_seqZ. intros j Hj. simpl. apply HP; lia.
Qed.
End Grid.

(** ** Flat arrays of points *)

Section Flat.
Context {num : Type} `{JsNumber num}.

Lemma flat3_length (vs : list (vec3 num)) : length (flat3 vs) = (3 * length vs)%nat.
Proof.
  unfold flat3. rewrite (length_bind_uniform _ 3%nat); [apply Nat.mul_comm|].
  by intros [[x y] z].
Qed.

Lemma flat3_lookup (vs : list (vec3 num)) (k t : nat) (p : vec3 num) :
  vs !! k = Some p → (t < 3)%nat →
  flat3 vs !! (3 * k + t)%nat = (let '(x, y, z) := p in [x; y; z]) !! t.
Proof.
  intros Hk Ht. unfold flat3. rewrite (Nat.mul_comm 3 k).
  rewrite (lookup_bind_uniform _ 3%nat _ _ _ p); [done| |done|done].
  by intros [[x y] z].
Qed.

Lemma vertexAt_flat3 (vs : list (vec3 num)) (k : nat) : vertexAt (flat3 vs) k = vs !! k.
Proof.
  unfold vertexAt. destruct (vs !! k) as [[[x y] z]|] eqn:Hk.
  - rewrite <- (Nat.add_0_r (3 * k)) at 1.
    rewrite !(flat3_lookup vs k _ (x, y, z)) by (done || lia). done.
  - apply lookup_ge_None in Hk.
    rewrite (proj2 (lookup_ge_None (flat3 vs) (3 * k))); [done|].
    rewrite flat3_length. lia.
Qed.

Lemma flat3_grid (rows cols : Z) (f : Z → Z → vec3 num) :
  flat3 (grid rows cols f) =
  cells rows cols (λ i j, let '(x, y, z) := f i j in [x; y; z]).
Proof.
  unfold flat3, grid, cells. induction (seqZ 0 rows) as [|i l IH]; [done|].
  rewrite !bind_cons, bind_app, IH. f_equal.
  by rewrite list_fmap_bind.
Qed.
End Flat.

(** ** The triangulated model *)

Section SurfaceLayout.
Context {num : Type} `{JsNumber num}.
Import Surface.

(** The vertex array is the grid of sampled positions, laid out flat. *)
Lemma getVertices_grid (m : Model num) :
  getVertices m =
  flat3 (grid (segmentsCountU m + 1) (segmentsCountV m + 1) (λ i j,
    position (radius m) (a m) (n m)
      (sample_phi (segmentsCountU m) i) (sample_v (segmentsCountV m) j))).
Proof.
  rewrite flat3_grid. unfold getVertices.
  erewrite for_le_push; [done|]. intros i s _. simpl.
  erewrite for_le_push; [done|]. intros j s' _. done.
Qed.

(** The normal array of [getNormals] is the grid of analytic normals. *)
Lemma getNormals_grid (m : Model num) :
  getNormals m =
  flat3 (grid (segmentsCountU m + 1) (segmentsCountV m + 1) (λ i j,
    analyticNormal (sample_phi (segmentsCountU m) i) (sample_v (segmentsCountV m) j))).
Proof.
  rewrite flat3_grid. unfold getNormals.
  erewrite for_le_push; [done|]. intros i s _. simpl.
  erewrite for_le_push; [done|]. intros j s' _. done.
Qed.

(** The index list: the two triangles of every cell, cell after cell. *)
Lemma getIndices_cells (m : Model num) :
  getIndices m =
  cells (segmentsCountU m) (segmentsCountV m) (cellTriangles (segmentsCountV m)).
Proof.
  unfold getIndices, cells.
  erewrite for_lt_push; [done|]. intros i s _.
  erewrite for_lt_push; [done|]. intros j s' _.
  by rewrite <- app_assoc.
Qed.
End SurfaceLayout.

Section SurfaceClaims.
Context {num : Type} `{JsNumber num}.
Import Surface.

(** C1. With at least one segment in each direction, [getVertices] returns
    exactly [(segmentsU+1)*(segmentsV+1)] vertices of three coordinates each,
    in row-major order: the vertex of flat index [i*(segmentsV+1)+j] is
    [(s*cos phi, s*sin phi, radius*sin v)] with [phi = (i/segmentsU)*2*pi],
    [v = (j/segmentsV)*pi] and
    [s = radius*cos v + amplitude*(1 - sin v)*cos (waveCount*phi)]. *)
Theorem getVertices_layout (m : Model num) :
  1 ≤ segmentsCountU m → 1 ≤ segmentsCountV m →
  length (getVertices m)
    = (3 * Z.to_nat ((segmentsCountU m + 1) * (segmentsCountV m + 1)))%nat ∧
  ∀ i j, 0 ≤ i ≤ segmentsCountU m → 0 ≤ j ≤ segmentsCountV m →
    vertexAt (getVertices m) (Z.to_nat (i * (segmentsCountV m + 1) + j))
    = Some (let phi := (of_Z i / of_Z (segmentsCountU m) * of_Z 2 * Math_PI)%js in
            let v := (of_Z j / of_Z (segmentsCountV m) * Math_PI)%js in
            let s := (radius m * Math_cos v
                      + a m * (of_Z 1 - Math_sin v) * Math_cos (n m * phi))%js in
            (s * Math_cos phi, s * Math_sin phi, radius m * Math_sin v)%js).
Proof.
  intros HU HV. rewrite getVertices_grid. split.
  - rewrite flat3_length, grid_length. lia.
  - intros i j Hi Hj. rewrite vertexAt_flat3, grid_lookup by lia. done.
Qed.

(** C2. With at least one segment in each direction, [getIndices] returns
    [segmentsU*segmentsV*6] indices; the cell [(i, j)], at its row-major
    place, contributes the triangles [(p, q, p+1)] and [(p+1, q, q+1)] in this
    order, where [p = i*(segmentsV+1)+j] and [q = p+(segmentsV+1)]; and every
    index is below the vertex count [(segmentsU+1)*(segmentsV+1)]. *)
Theorem getIndices_triangles (m : Model num) :
  1 ≤ segmentsCountU m → 1 ≤ segmentsCountV m →
  length (getIndices m) = Z.to_nat (segmentsCountU m * segmentsCountV m * 6) ∧
  (∀ i j (t : nat), 0 ≤ i < segmentsCountU m → 0 ≤ j < segmentsCountV m → (t < 6)%nat →
     getIndices m !! (6 * Z.to_nat (i * segmentsCountV m + j) + t)%nat
     = (let p := i * (segmentsCountV m + 1) + j in
        let q := p + (segmentsCountV m + 1) in
        [p; q; p + 1; p + 1; q; q + 1]) !! t) ∧
  Forall (λ k, 0 ≤ k < (segmentsCountU m + 1) * (segmentsCountV m + 1)) (getIndices m).
Proof.
  intros HU HV. rewrite getIndices_cells. split; [|split].
  - rewrite (cells_length 6) by done. lia.
  - intros i j t Hi Hj Ht. by rewrite (cells_lookup 6).
  - apply cells_Forall. intros i j Hi Hj. unfold cellTriangles.
    repeat (apply Forall_cons; split; [nia|]). apply Forall_nil_2.
Qed.
End SurfaceClaims.

Lemma getVertices_layout_witness :
  let m := Surface.mkModel (Finite 10) (Finite 2) (Finite 5) 4 3 0%nat 1%nat 2%nat in
  1 ≤ Surface.segmentsCountU m ∧ 1 ≤ Surface.segmentsCountV m ∧
  length (Surface.getVertices m) = (3 * Z.to_nat ((4 + 1) * (3 + 1)))%nat.
Proof.
  intros m. split; [simpl; lia|]. split; [simpl; lia|].
  apply (getVertices_layout m); simpl; lia.
Defined.

Lemma getIndices_triangles_witness :
  let m := Surface.mkModel (Finite 10) (Finite 2) (Finite 5) 4 3 0%nat 1%nat 2%nat in
  1 ≤ Surface.segmentsCountU m ∧ 1 ≤ Surface.segmentsCountV m ∧
  length (Surface.getIndices m) = Z.to_nat (4 * 3 * 6) ∧
  Forall (λ k, 0 ≤ k < (4 + 1) * (3 + 1)) (Surface.getIndices m).
Proof.
  intros m. split; [simpl; lia|]. split; [simpl; lia|].
  destruct (getIndices_triangles m) as (Hlen & _ & Hbound); simpl; [lia|lia|].
  split; [exact Hlen|exact Hbound].
Defined.

(** ** The curve-grid model *)

Section Strips.
Context {A : Type}.

(** A whole chunk of a list of chunks of one length. *)
Lemma chunk_bind_uniform {B : Type} (f : B → list A) (c : nat) (l : list B) (k : nat) (x : B) :
  (∀ y, length (f y) = c) → l !! k = Some x →
  take c (drop (k * c) (l ≫= f)) = f x.
Proof.
  intros Hlen. revert k. induction l as [|y l IH]; intros k Hk; [done|].
  rewrite bind_cons. destruct k as [|k]; simpl in *.
  - inversion Hk; subst. rewrite <- (Hlen x) at 1. apply take_app_length.
  - replace (c + k * c)%nat with (length (f y) + k * c)%nat by (by rewrite Hlen).
    rewrite drop_app_add. by apply IH.
Qed.
End Strips.

Section WireframeLayout.
Context {num : Type} `{JsNumber num}.
Import Wireframe.

Lemma flat3_bind {B : Type} (g : B → list (vec3 num)) (l : list B) :
  flat3 (l ≫= g) = l ≫= λ x, flat3 (g x).
Proof.
  unfold flat3. induction l as [|x l IH]; [done|].
  by rewrite !bind_cons, bind_app, IH.
Qed.

Lemma createUVertices_curves (m : Model num) :
  createUVertices m = flat3 (seqZ 0 (segmentsU m + 1) ≫= uCurve m).
Proof.
  change (seqZ 0 (segmentsU m + 1) ≫= uCurve m)
    with (grid (segmentsU m + 1) (segmentsV m + 1) (λ i j,
            position (radius m) (corrugation m) (n m)
              (sample_phi (segmentsU m) i) (sample_v (segmentsV m) j))).
  rewrite flat3_grid. unfold createUVertices, cells.
  erewrite for_le_push; [done|]. intros i s _. simpl.
  erewrite for_le_push; [done|]. intros j s' _. done.
Qed.

Lemma createVVertices_curves (m : Model num) :
  createVVertices m = flat3 (seqZ 0 (segmentsV m + 1) ≫= vCurve m).
Proof.
  change (seqZ 0 (segmentsV m + 1) ≫= vCurve m)
    with (grid (segmentsV m + 1) (segmentsU m + 1) (λ j i,
            position (radius m) (corrugation m) (n m)
              (sample_phi (segmentsU m) i) (sample_v (segmentsV m) j))).
  rewrite flat3_grid. unfold createVVertices, cells.
  erewrite for_le_push; [done|]. intros j s _. simpl.
  erewrite for_le_push; [done|]. intros i s' _. done.
Qed.

Lemma strip_curves (curve : Z → list (vec3 num)) (curves len : Z) (k : Z) :
  (∀ i, length (curve i) = Z.to_nat len) → 0 ≤ k < curves →
  strip (flat3 (seqZ 0 curves ≫= curve)) (k * len) len = flat3 (curve k).
Proof.
  intros Hlen Hk. unfold strip. destruct (decide (0 ≤ len)) as [Hl|Hl]; cycle 1.
  { specialize (Hlen k). replace (Z.to_nat len) with 0%nat in * by lia.
    apply nil_length_inv in Hlen. by rewrite Hlen. }
  rewrite flat3_bind.
  replace (3 * Z.to_nat (k * len))%nat with (Z.to_nat k * (3 * Z.to_nat len))%nat by nia.
  apply (chunk_bind_uniform (λ x, flat3 (curve x))).
  - intros y. by rewrite flat3_length, Hlen.
  - rewrite lookup_seqZ_lt by lia. f_equal. lia.
Qed.

Lemma createUVertices_length (m : Model num) :
  length (createUVertices m)
  = (3 * (Z.to_nat (segmentsU m + 1) * Z.to_nat (segmentsV m + 1)))%nat.
Proof.
  rewrite createUVertices_curves, flat3_length.
  rewrite (length_bind_uniform _ (Z.to_nat (segmentsV m + 1))).
  - by rewrite length_seqZ.
  - intros i. unfold uCurve. by rewrite length_fmap, length_seqZ.
Qed.

Lemma createVVertices_length (m : Model num) :
  length (createVVertices m)
  = (3 * (Z.to_nat (segmentsV m + 1) * Z.to_nat (segmentsU m + 1)))%nat.
Proof.
  rewrite createVVertices_curves, flat3_length.
  rewrite (length_bind_uniform _ (Z.to_nat (segmentsU m + 1))).
  - by rewrite length_seqZ.
  - intros j. unfold vCurve. by rewrite length_fmap, length_seqZ.
Qed.

(** C7. The U-buffer is [segmentsU+1] polylines of [segmentsV+1] points laid
    end to end: the polyline of index [i] starts at point [i*(segmentsV+1)]
    and is the curve of constant [phi = (i/segmentsU)*2*pi]; the V-buffer is
    [segmentsV+1] polylines of [segmentsU+1] points, the one of index [j]
    starting at point [j*(segmentsU+1)] with constant [v = (j/segmentsV)*pi];
    every point is [position(phi, v)]. A count that would be negative is an
    empty loop, hence zero. With three segments each way: four curves of four
    points in each buffer, 32 points in all. *)
Theorem curve_grid_layout (m : Model num) :
  createUVertices m = flat3 (seqZ 0 (segmentsU m + 1) ≫= uCurve m) ∧
  createVVertices m = flat3 (seqZ 0 (segmentsV m + 1) ≫= vCurve m) ∧
  length (createUVertices m)
    = (3 * (Z.to_nat (segmentsU m + 1) * Z.to_nat (segmentsV m + 1)))%nat ∧
  length (createVVertices m)
    = (3 * (Z.to_nat (segmentsV m + 1) * Z.to_nat (segmentsU m + 1)))%nat ∧
  (∀ i, 0 ≤ i ≤ segmentsU m →
     length (uCurve m i) = Z.to_nat (segmentsV m + 1) ∧
     strip (createUVertices m) (i * (segmentsV m + 1)) (segmentsV m + 1)
       = flat3 (uCurve m i)) ∧
  (∀ j, 0 ≤ j ≤ segmentsV m →
     length (vCurve m j) = Z.to_nat (segmentsU m + 1) ∧
     strip (createVVertices m) (j * (segmentsU m + 1)) (segmentsU m + 1)
       = flat3 (vCurve m j)) ∧
  (segmentsU m = 3 → segmentsV m = 3 →
     length (seqZ 0 (segmentsU m + 1)) = 4%nat ∧ (∀ i, length (uCurve m i) = 4%nat) ∧
     length (seqZ 0 (segmentsV m + 1)) = 4%nat ∧ (∀ j, length (vCurve m j) = 4%nat) ∧
     (length (createUVertices m) + length (createVVertices m) = 3 * 32)%nat).
Proof.
  assert (∀ i, length (uCurve m i) = Z.to_nat (segmentsV m + 1)) as HlenU.
  { intros i. unfold uCurve. by rewrite length_fmap, length_seqZ. }
  assert (∀ j, length (vCurve m j) = Z.to_nat (segmentsU m + 1)) as HlenV.
  { intros j. unfold vCurve. by rewrite length_fmap, length_seqZ. }
  assert (length (seqZ 0 (segmentsU m + 1) ≫= uCurve m)
          = (Z.to_nat (segmentsU m + 1) * Z.to_nat (segmentsV m + 1))%nat) as HU.
  { rewrite (length_bind_uniform _ (Z.to_nat (segmentsV m + 1))) by done.
    by rewrite length_seqZ. }
  assert (length (seqZ 0 (segmentsV m + 1) ≫= vCurve m)
          = (Z.to_nat (segmentsV m + 1) * Z.to_nat (segmentsU m + 1))%nat) as HV.
  { rewrite (length_bind_uniform _ (Z.to_nat (segmentsU m + 1))) by done.
    by rewrite length_seqZ. }
  rewrite createUVertices_curves, createVVertices_curves, !flat3_length, HU, HV.
  split; [done|]. split; [done|]. split; [done|]. split; [done|].
  split; [|split].
  - intros i Hi. split; [done|]. apply strip_curves; [done|lia].
  - intros j Hj. split; [done|]. apply strip_curves; [done|lia].
  - intros HU3 HV3. rewrite !length_seqZ. split; [by rewrite HU3|].
    split; [intros i; by rewrite HlenU, HV3|]. split; [by rewrite HV3|].
    split; [intros j; by rewrite HlenV, HU3|]. by rewrite HU3, HV3.
Qed.
End WireframeLayout.

Lemma curve_grid_layout_witness :
  let m := (Wireframe.new_Model emptyGL (Finite 10) (Finite 2) (Finite 5) 3).1 in
  Wireframe.segmentsU m = 3 ∧ Wireframe.segmentsV m = 3 ∧
  0 ≤ 2 ≤ Wireframe.segmentsU m ∧
  (length (Wireframe.createUVertices m) + length (Wireframe.createVVertices m)
   = 3 * 32)%nat ∧
  strip (Wireframe.createUVertices m) (2 * (3 + 1)) (3 + 1) = flat3 (uCurve m 2).
Proof.
  intros m. split; [reflexivity|]. split; [reflexivity|]. split; [simpl; lia|].
  destruct (curve_grid_layout m) as (_ & _ & _ & _ & HU & _ & Hthree).
  split.
  - apply Hthree; reflexivity.
  - apply (HU 2). simpl. lia.
Defined.

Section WireframeDraw.
Context {num : Type} `{JsNumber num}.
Import Wireframe.

Lemma for_lt_drawArrays (bound : Z) (mode : DrawMode) (first : Z → Z) (count : Z)
    (gl : WebGL num) :
  for_lt bound (λ i gl, drawArrays mode (first i) count gl) gl =
  mkWebGL (created gl) (arrayBinding gl) (elementBinding gl) (store gl) (attribSource gl)
    (drawn gl ++ ((λ i, mkDrawCall (attribSource gl) mode (first i) count) <$> seqZ 0 bound)).
Proof.
  unfold for_lt. generalize (seqZ 0 bound) as l. intros l. revert gl.
  induction l as [|i l IH]; intros gl.
  - destruct gl. simpl. by rewrite app_nil_r.
  - simpl. rewrite IH. simpl. by rewrite <- app_assoc.
Qed.

(** The draw calls of [draw()]: one line strip per [i] below [segmentsU]
    from the U-buffer, then one per [i] below [segmentsV] from the
    V-buffer. *)
Lemma draw_calls (iAttribVertex : Z) (m : Model num) (gl : WebGL num) :
  drawn (draw iAttribVertex m gl) =
  drawn gl
  ++ ((λ i, mkDrawCall (<[iAttribVertex := uVertexBuffer m]> (attribSource gl))
              LINE_STRIP (i * (segmentsV m + 1)) (segmentsV m + 1))
        <$> seqZ 0 (segmentsU m))
  ++ ((λ i, mkDrawCall
              (<[iAttribVertex := vVertexBuffer m]>
                 (<[iAttribVertex := uVertexBuffer m]> (attribSource gl)))
              LINE_STRIP (i * (segmentsU m + 1)) (segmentsU m + 1))
        <$> seqZ 0 (segmentsV m)).
Proof.
  unfold draw. rewrite !for_lt_drawArrays. simpl. by rewrite <- app_assoc.
Qed.

(** C9 at three lines each way, on a fresh context: [draw()] issues three
    strips of four points from the U-buffer, at points 0, 4 and 8, and three
    from the V-buffer, at points 0, 4 and 8. The fourth polyline of each
    buffer, at point 12, is uploaded but never drawn. *)
Theorem draw_three_lines (radius corrugation waveCount : num) (iAttribVertex : Z) :
  let '(model, gl) := new_Model emptyGL radius corrugation waveCount 3 in
  let '(model, gl) := Model_bufferData model gl in
  length (createUVertices model) = (3 * 16)%nat ∧
  length (createVVertices model) = (3 * 16)%nat ∧
  (λ call, (attribs call !! iAttribVertex, first call, count call))
    <$> drawn (draw iAttribVertex model gl)
  = [(Some (uVertexBuffer model), 0, 4); (Some (uVertexBuffer model), 4, 4);
     (Some (uVertexBuffer model), 8, 4);
     (Some (vVertexBuffer model), 0, 4); (Some (vVertexBuffer model), 4, 4);
     (Some (vVertexBuffer model), 8, 4)].
Proof.
  unfold new_Model, Model_bufferData.
  cbn -[draw createUVertices createVVertices Float32Array_from].
  split; [|split].
  - by rewrite createUVertices_length.
  - by rewrite createVVertices_length.
  - rewrite draw_calls. simpl.
    by rewrite !lookup_insert_eq.
Qed.
End WireframeDraw.

(** ** Uploading the triangulated model *)

Section SurfaceUpload.
Context {num : Type} `{JsNumber num}.
Import Surface.

Lemma ToUint16_exact (k : Z) : ToUint16 k = k ↔ 0 ≤ k < 65536.
Proof.
  unfold ToUint16. split.
  - intros <-. apply Z.mod_pos_bound. lia.
  - intros Hk. by apply Z.mod_small.
Qed.

Lemma Uint16Array_from_exact (l : list Z) :
  Uint16Array_from l = l ↔ Forall (λ k, 0 ≤ k < 65536) l.
Proof.
  unfold Uint16Array_from. induction l as [|k l IH].
  - split; [constructor|done].
  - rewrite fmap_cons, Forall_cons, <- IH, <- ToUint16_exact. split.
    + intros Heq. by inversion Heq as [[Hk Hl]]; rewrite !Hk, !Hl.
    + intros [-> ->]. done.
Qed.

(** Every generated index is the index of a vertex. *)
Lemma getIndices_bound (m : Model num) :
  Forall (λ k, 0 ≤ k < (segmentsCountU m + 1) * (segmentsCountV m + 1)) (getIndices m).
Proof.
  rewrite getIndices_cells. apply cells_Forall. intros i j Hi Hj. unfold cellTriangles.
  repeat (apply Forall_cons; split; [nia|]). apply Forall_nil_2.
Qed.

(** The last vertex is a corner of the last cell. *)
Lemma getIndices_last (m : Model num) :
  1 ≤ segmentsCountU m → 1 ≤ segmentsCountV m →
  (segmentsCountU m + 1) * (segmentsCountV m + 1) - 1 ∈ getIndices m.
Proof.
  intros HU HV. apply list_elem_of_lookup.
  exists (6 * Z.to_nat ((segmentsCountU m - 1) * segmentsCountV m + (segmentsCountV m - 1)) + 5)%nat.
  rewrite getIndices_cells, (cells_lookup 6) by (done || lia).
  unfold cellTriangles. simpl. f_equal. lia.
Qed.

Lemma getIndices_degenerate (m : Model num) :
  segmentsCountU m < 1 ∨ segmentsCountV m < 1 → getIndices m = [].
Proof.
  intros Hdeg. apply nil_length_inv.
  rewrite getIndices_cells, (cells_length 6) by done. lia.
Qed.

(** The wrapped indices still name vertices. *)
Lemma uploaded_indices_bound (m : Model num) :
  Forall (λ k, 0 ≤ k < (segmentsCountU m + 1) * (segmentsCountV m + 1))
    (Uint16Array_from (getIndices m)).
Proof.
  unfold Uint16Array_from. apply Forall_fmap.
  eapply Forall_impl; [apply getIndices_bound|].
  intros k Hk. simpl in *. unfold ToUint16.
  pose proof (Z.mod_pos_bound k 65536 ltac:(lia)).
  pose proof (Z.mod_le k 65536 ltac:(lia) ltac:(lia)). lia.
Qed.

Lemma Model_bufferData_store (m : Model num) (gl : WebGL num) :
  vertexBuffer m ≠ indexBuffer m → vertexBuffer m ≠ normalBuffer m →
  indexBuffer m ≠ normalBuffer m →
  store (Model_bufferData m gl) !! vertexBuffer m
    = Some (Float32Array (Float32Array_from (getVertices m))) ∧
  store (Model_bufferData m gl) !! indexBuffer m
    = Some (Uint16Array (Uint16Array_from (getIndices m))) ∧
  store (Model_bufferData m gl) !! normalBuffer m
    = Some (Float32Array (Float32Array_from
              (getFacetWeightedNormals (getVertices m) (getIndices m)))).
Proof.
  intros Hvi Hvn Hin. unfold Model_bufferData, bufferData, bindBuffer.
  cbn -[getVertices getIndices getFacetWeightedNormals Float32Array_from Uint16Array_from].
  rewrite lookup_insert_eq.
  rewrite !(lookup_insert_ne _ (normalBuffer m)) by done.
  rewrite lookup_insert_eq.
  rewrite (lookup_insert_ne _ (indexBuffer m)) by done.
  by rewrite lookup_insert_eq.
Qed.

Lemma Model_bufferData_analytic_indices (m : Model num) (gl : WebGL num) :
  store (Model_bufferData_analytic m gl) !! indexBuffer m
    = Some (Uint16Array (Uint16Array_from (getIndices m))).
Proof.
  unfold Model_bufferData_analytic, bufferData, bindBuffer.
  cbn -[getVertices getIndices getNormals Float32Array_from Uint16Array_from].
  by rewrite lookup_insert_eq.
Qed.

Lemma getVertices_length (m : Model num) :
  length (getVertices m)
  = (3 * (Z.to_nat (segmentsCountU m + 1) * Z.to_nat (segmentsCountV m + 1)))%nat.
Proof. by rewrite getVertices_grid, flat3_length, grid_length. Qed.

(** C3, as the code has it. The constructor never rejects its arguments:
    for every parameter set, segment counts below one included, it completes
    normally and uploads the three arrays. With a segment count below one the
    index list is empty, and the vertex array has one vertex for every pair
    of loop counters that exists. *)
Theorem new_Model_completes (gl : WebGL num) (radius corrugation waveCount : num)
    (segmentsCountByU segmentsCountByV : Z) :
  ∃ m gl',
    new_Model gl radius corrugation waveCount segmentsCountByU segmentsCountByV
      = Normal (m, gl') ∧
    segmentsCountU m = segmentsCountByU ∧ segmentsCountV m = segmentsCountByV ∧
    store gl' !! vertexBuffer m
      = Some (Float32Array (Float32Array_from (getVertices m))) ∧
    store gl' !! indexBuffer m
      = Some (Uint16Array (Uint16Array_from (getIndices m))) ∧
    store gl' !! normalBuffer m
      = Some (Float32Array (Float32Array_from
                (getFacetWeightedNormals (getVertices m) (getIndices m)))) ∧
    length (getVertices m)
      = (3 * (Z.to_nat (segmentsCountByU + 1) * Z.to_nat (segmentsCountByV + 1)))%nat ∧
    (segmentsCountByU < 1 ∨ segmentsCountByV < 1 → getIndices m = []).
Proof.
  unfold new_Model.
  cbn -[Model_bufferData getVertices getIndices getFacetWeightedNormals].
  eexists _, _. split; [done|].
  split; [done|]. split; [done|].
  match goal with |- context [Model_bufferData ?m0 ?g0] =>
    destruct (Model_bufferData_store m0 g0) as (Hv & Hi & Hn); [simpl; lia..|] end.
  split; [exact Hv|]. split; [exact Hi|]. split; [exact Hn|].
  split; [apply getVertices_length|].
  match goal with |- _ → getIndices ?m0 = [] => apply (getIndices_degenerate m0) end.
Qed.

(** C10, as the code has it. Both [bufferData] methods upload
    [new Uint16Array(indices)]: every stored index is the generated one modulo
    2^16. The upload is exact if and only if every index is below 65536, which
    with at least one segment each way means
    [(segmentsU+1)*(segmentsV+1) <= 65536]. On a larger grid the upload
    differs from the generated list, yet every wrapped index is still below
    the vertex count. *)
Theorem uploaded_indices_wrap (m : Model num) (gl : WebGL num) :
  indexBuffer m ≠ normalBuffer m →
  1 ≤ segmentsCountU m → 1 ≤ segmentsCountV m →
  let uploaded := (λ k, k `mod` 2 ^ 16) <$> getIndices m in
  let vertexCount := (segmentsCountU m + 1) * (segmentsCountV m + 1) in
  store (Model_bufferData m gl) !! indexBuffer m = Some (Uint16Array uploaded) ∧
  store (Model_bufferData_analytic m gl) !! indexBuffer m = Some (Uint16Array uploaded) ∧
  (uploaded = getIndices m ↔ Forall (λ k, k < 65536) (getIndices m)) ∧
  (Forall (λ k, k < 65536) (getIndices m) ↔ vertexCount ≤ 65536) ∧
  (65536 < vertexCount →
     uploaded ≠ getIndices m ∧ Forall (λ k, 0 ≤ k < vertexCount) uploaded).
Proof.
  intros Hin HU HV uploaded vertexCount.
  change uploaded with (Uint16Array_from (getIndices m)).
  assert (Forall (λ k, k < 65536) (getIndices m) ↔ vertexCount ≤ 65536) as Hsmall.
  { split.
    - intros Hall. eapply Forall_forall in Hall; [|by apply getIndices_last].
      cbv beta in Hall. unfold vertexCount. lia.
    - intros Hle. eapply Forall_impl; [apply getIndices_bound|].
      intros k Hk. cbv beta in *. unfold vertexCount in Hle. lia. }
  assert (Uint16Array_from (getIndices m) = getIndices m
          ↔ Forall (λ k, k < 65536) (getIndices m)) as Hexact.
  { rewrite Uint16Array_from_exact. split.
    - intros Hall. eapply Forall_impl; [exact Hall|]. intros k Hk. cbv beta in *. lia.
    - intros Hall. pose proof (getIndices_bound m) as Hb.
      rewrite Forall_forall in Hall, Hb. apply Forall_forall. intros k Hk.
      specialize (Hall k Hk). specialize (Hb k Hk). cbv beta in *. lia. }
  split; [|split; [|split; [|split]]].
  - unfold Model_bufferData, bufferData, bindBuffer.
    cbn -[getVertices getIndices getFacetWeightedNormals Float32Array_from Uint16Array_from].
    rewrite lookup_insert_ne by done. by rewrite lookup_insert_eq.
  - apply Model_bufferData_analytic_indices.
  - exact Hexact.
  - exact Hsmall.
  - intros Hbig. split; [|apply uploaded_indices_bound].
    rewrite Hexact, Hsmall. lia.
Qed.
End SurfaceUpload.

(** C3 fails on the code: with [segmentsU = 0] the constructor does not throw
    [InvalidParameter]; it returns a model of five vertices. *)
Lemma new_Model_zero_segments_accepted :
  Surface.new_Model emptyGL (Finite 10) (Finite 0) (Finite 0) 0 4
    ≠ Throw InvalidParameter ∧
  ∃ m gl', Surface.new_Model emptyGL (Finite 10) (Finite 0) (Finite 0) 0 4 = Normal (m, gl') ∧
           length (Surface.getVertices m) = 15%nat ∧
           store gl' !! Surface.vertexBuffer m
             = Some (Float32Array (Float32Array_from (Surface.getVertices m))).
Proof.
  split; [done|].
  unfold Surface.new_Model.
  cbn -[Surface.Model_bufferData Surface.getVertices].
  eexists _, _. split; [done|].
  split; [by rewrite getVertices_length|].
  match goal with |- context [Surface.Model_bufferData ?m0 ?g0] =>
    destruct (Model_bufferData_store m0 g0) as (Hv & _); [simpl; lia..|] end.
  exact Hv.
Qed.

(** C10 fails on the code in its last clause: on the grid of 255 by 256
    segments, which has 65792 vertices, the uploaded indices are all below
    the vertex count. *)
Lemma wrapped_indices_below_vertex_count :
  let m := Surface.mkModel (Finite 10) (Finite 2) (Finite 5) 255 256 0%nat 1%nat 2%nat in
  ¬ (65536 < (255 + 1) * (256 + 1) →
     ¬ Forall (λ k, k < (255 + 1) * (256 + 1))
         (Uint16Array_from (Surface.getIndices m))).
Proof.
  intros m Hclaim. apply Hclaim; [lia|].
  eapply Forall_impl; [apply (uploaded_indices_bound m)|].
  intros k Hk. cbv beta in Hk. change (Surface.segmentsCountU m) with 255 in Hk.
  change (Surface.segmentsCountV m) with 256 in Hk. cbv beta. lia.
Qed.

Lemma new_Model_completes_witness :
  ∃ m gl',
    Surface.new_Model emptyGL (Finite 10) (Finite 0) (Finite 0) 0 4 = Normal (m, gl') ∧
    Surface.getIndices m = [].
Proof.
  destruct (new_Model_completes emptyGL (Finite 10) (Finite 0) (Finite 0) 0 4)
    as (m & gl' & Heq & _ & _ & _ & _ & _ & _ & Hdeg).
  exists m, gl'. split; [exact Heq|]. apply Hdeg. left. lia.
Defined.

Lemma uploaded_indices_wrap_witness :
  let m := Surface.mkModel (Finite 10) (Finite 2) (Finite 5) 4 3 0%nat 1%nat 2%nat in
  Surface.indexBuffer m ≠ Surface.normalBuffer m ∧
  1 ≤ Surface.segmentsCountU m ∧ 1 ≤ Surface.segmentsCountV m ∧
  store (Surface.Model_bufferData m emptyGL) !! Surface.indexBuffer m
    = Some (Uint16Array ((λ k, k `mod` 2 ^ 16) <$> Surface.getIndices m)).
Proof.
  intros m. split; [simpl; lia|]. split; [simpl; lia|]. split; [simpl; lia|].
  destruct (uploaded_indices_wrap m emptyGL) as (Hstore & _); [simpl; lia..|].
  exact Hstore.
Defined.

(** ** Exact arithmetic: the analytic facts *)

Section Exact.
Local Open Scope R_scope.

Lemma Rsign_neg (r : R) : r < 0 → Rsign r = Lt.
Proof. intros Hr. unfold Rsign. destruct (total_order_T r 0) as [[?|?]|?]; [done|lra|lra]. Qed.

Lemma Rsign_zero : Rsign 0 = Eq.
Proof. unfold Rsign. destruct (total_order_T 0 0) as [[?|?]|?]; [lra|done|lra]. Qed.

Lemma Rsign_pos (r : R) : 0 < r → Rsign r = Gt.
Proof. intros Hr. unfold Rsign. destruct (total_order_T r 0) as [[?|?]|?]; [lra|lra|done]. Qed.

Lemma Rsign_nonneg (r : R) : 0 <= r → Rsign r ≠ Lt.
Proof. intros Hr. unfold Rsign. destruct (total_order_T r 0) as [[?|?]|?]; [lra|done|done]. Qed.

Lemma x_div_finite (r s : R) : s ≠ 0 → x_div (Finite r) (Finite s) = Finite (r / s).
Proof.
  intros Hs. unfold x_div.
  destruct (Rsign s) eqn:Hsign; [|done|done].
  unfold Rsign in Hsign. destruct (total_order_T s 0) as [[?|?]|?]; done.
Qed.

Lemma x_div_zero_zero : x_div (Finite 0) (Finite 0) = NotANumber.
Proof. unfold x_div. by rewrite Rsign_zero. Qed.

Lemma x_sqrt_finite (r : R) : 0 <= r → x_sqrt (Finite r) = Finite (sqrt r).
Proof.
  intros Hr. unfold x_sqrt. pose proof (Rsign_nonneg r Hr).
  by destruct (Rsign r).
Qed.

Lemma sum_squares_nonneg (x y z : R) : 0 <= x * x + y * y + z * z.
Proof. nra. Qed.

(** The length of a vector of finite coordinates. *)
Lemma vlength_finite (x y z : R) :
  vlength (Finite x, Finite y, Finite z) = Finite (sqrt (x * x + y * y + z * z)).
Proof. unfold vlength. simpl. apply x_sqrt_finite, sum_squares_nonneg. Qed.

(** The samples are finite when there is at least one segment. *)
Lemma sample_phi_finite (segmentsU i : Z) :
  (1 ≤ segmentsU)%Z →
  sample_phi segmentsU i = Finite (IZR i / IZR segmentsU * 2 * PI).
Proof.
  intros HU. unfold sample_phi. cbn -[x_div]. rewrite x_div_finite; [done|].
  apply not_0_IZR. lia.
Qed.

Lemma sample_v_finite (segmentsV j : Z) :
  (1 ≤ segmentsV)%Z →
  sample_v segmentsV j = Finite (IZR j / IZR segmentsV * PI).
Proof.
  intros HV. unfold sample_v. cbn -[x_div]. rewrite x_div_finite; [done|].
  apply not_0_IZR. lia.
Qed.

Lemma cos_full_turns (k : Z) : cos (IZR k * (2 * PI)) = 1.
Proof.
  assert (∀ p : nat, cos (INR p * (2 * PI)) = 1) as Hnat.
  { intros p. rewrite <- cos_0, <- (cos_period 0 p). f_equal. ring. }
  destruct (Z_le_gt_dec 0 k) as [Hk|Hk].
  - rewrite <- (Z2Nat.id k) by done. rewrite <- INR_IZR_INZ. apply Hnat.
  - rewrite <- cos_neg.
    replace (- (IZR k * (2 * PI))) with (IZR (- k) * (2 * PI)) by (rewrite opp_IZR; ring).
    rewrite <- (Z2Nat.id (- k)) by lia. rewrite <- INR_IZR_INZ. apply Hnat.
Qed.

Lemma analytic_unit (phi v : R) :
  (cos v * cos phi) * (cos v * cos phi) + (cos v * sin phi) * (cos v * sin phi)
  + sin v * sin v = 1.
Proof.
  pose proof (sin2_cos2 phi) as Hphi. pose proof (sin2_cos2 v) as Hv.
  unfold Rsqr in *. nra.
Qed.
End Exact.

Section ExactSurface.
Import Surface.

(** C8. With at least one segment each way, [getNormals] puts at the
    row-major place of the vertex [(i, j)] the vector
    [(cos v * cos phi, cos v * sin phi, sin v)], the normal of the undisplaced
    sphere: radius, amplitude and wave count do not occur in it. Its length
    is one. *)
Theorem getNormals_analytic (m : Model xreal) (i j : Z) :
  1 ≤ segmentsCountU m → 1 ≤ segmentsCountV m →
  0 ≤ i ≤ segmentsCountU m → 0 ≤ j ≤ segmentsCountV m →
  let phi := (IZR i / IZR (segmentsCountU m) * 2 * PI)%R in
  let v := (IZR j / IZR (segmentsCountV m) * PI)%R in
  let normal :=
    (Finite (cos v * cos phi), Finite (cos v * sin phi), Finite (sin v)) in
  vertexAt (getNormals m) (Z.to_nat (i * (segmentsCountV m + 1) + j)) = Some normal ∧
  normal = analyticNormal (Finite phi) (Finite v) ∧
  vlength normal = Finite 1.
Proof.
  intros HU HV Hi Hj phi v normal. split; [|split].
  - rewrite getNormals_grid, vertexAt_flat3, grid_lookup by lia.
    by rewrite sample_phi_finite, sample_v_finite.
  - done.
  - unfold normal. rewrite vlength_finite, analytic_unit. by rewrite sqrt_1.
Qed.

(** In exact arithmetic, with at least one segment each way and an integer
    wave count, the vertices [(0, j)] and [(segmentsU, j)] have the same
    position, whatever the radius and the amplitude: nothing is rounded, so
    [phi] is exactly one turn in the last row. *)
Lemma seam_exact (m : Model xreal) (waveCount j : Z) :
  1 ≤ segmentsCountU m → 1 ≤ segmentsCountV m →
  n m = of_Z waveCount →
  0 ≤ j ≤ segmentsCountV m →
  let first := Z.to_nat (0 * (segmentsCountV m + 1) + j) in
  let last := Z.to_nat (segmentsCountU m * (segmentsCountV m + 1) + j) in
  vertexAt (getVertices m) first = vertexAt (getVertices m) last ∧
  is_Some (vertexAt (getVertices m) first) ∧
  first ≠ last ∧
  (∀ r c : R, radius m = Finite r → a m = Finite c →
     ∃ x y z : R, vertexAt (getVertices m) first = Some (Finite x, Finite y, Finite z)).
Proof.
  intros HU HV Hn Hj first last.
  assert (vertexAt (getVertices m) first
          = Some (position (radius m) (a m) (n m) (Finite 0)
                    (sample_v (segmentsCountV m) j))) as Hfirst.
  { unfold first. rewrite getVertices_grid, vertexAt_flat3, grid_lookup by lia.
    rewrite sample_phi_finite by done. do 3 f_equal.
    unfold Rdiv. change (IZR 0) with 0%R. ring. }
  assert (vertexAt (getVertices m) last
          = Some (position (radius m) (a m) (n m) (Finite (2 * PI))
                    (sample_v (segmentsCountV m) j))) as Hlast.
  { unfold last. rewrite getVertices_grid, vertexAt_flat3, grid_lookup by lia.
    rewrite sample_phi_finite by done. do 3 f_equal.
    field. apply not_0_IZR. lia. }
  assert (position (radius m) (a m) (n m) (Finite 0) (sample_v (segmentsCountV m) j)
          = position (radius m) (a m) (n m) (Finite (2 * PI))
              (sample_v (segmentsCountV m) j)) as Hseam.
  { generalize (sample_v (segmentsCountV m) j) as v. intros v.
    unfold position. rewrite Hn. cbn [Math_cos Math_sin js_mul of_Z xreal_number x_cos x_sin x_mul].
    rewrite cos_0, sin_0, cos_2PI, sin_2PI, cos_full_turns, Rmult_0_r, cos_0. done. }
  split; [by rewrite Hfirst, Hlast, Hseam|].
  split; [by rewrite Hfirst|].
  split; [unfold first, last; nia|].
  intros r c Hr Hc. rewrite Hfirst, Hr, Hc, Hn, sample_v_finite by done.
  unfold position. cbn. eauto.
Qed.
End ExactSurface.

Lemma getNormals_analytic_witness :
  let m := Surface.mkModel (Finite 10) (Finite 2) (Finite 5) 4 3 0%nat 1%nat 2%nat in
  1 ≤ Surface.segmentsCountU m ∧ 1 ≤ Surface.segmentsCountV m ∧
  0 ≤ 1 ≤ Surface.segmentsCountU m ∧ 0 ≤ 2 ≤ Surface.segmentsCountV m ∧
  vlength (Finite (cos (IZR 2 / IZR 3 * PI) * cos (IZR 1 / IZR 4 * 2 * PI)),
           Finite (cos (IZR 2 / IZR 3 * PI) * sin (IZR 1 / IZR 4 * 2 * PI)),
           Finite (sin (IZR 2 / IZR 3 * PI))) = Finite 1.
Proof.
  intros m. split; [simpl; lia|]. split; [simpl; lia|].
  split; [simpl; lia|]. split; [simpl; lia|].
  destruct (getNormals_analytic m 1 2) as (_ & _ & Hunit); [simpl; lia..|].
  exact Hunit.
Defined.

(** ** Facet-weighted normals: the flat arrays and the vectors *)

Section FlatUpdates.
Context {num : Type} `{JsNumber num}.

Lemma flat3_cons (p : vec3 num) (vs : list (vec3 num)) :
  flat3 (p :: vs) = (let '(x, y, z) := p in [x; y; z]) ++ flat3 vs.
Proof. unfold flat3. by rewrite bind_cons. Qed.

Lemma flat3_app (vs ws : list (vec3 num)) : flat3 (vs ++ ws) = flat3 vs ++ flat3 ws.
Proof. unfold flat3. apply bind_app. Qed.

(** Three stores at the three coordinates of one point. *)
Lemma flat3_alter3 (g0 g1 g2 : num → num) (acc : list (vec3 num)) (k : nat) :
  alter g2 (3 * k + 2)%nat (alter g1 (3 * k + 1)%nat (alter g0 (3 * k)%nat (flat3 acc)))
  = flat3 (alter (λ '(x, y, z), (g0 x, g1 y, g2 z)) k acc).
Proof.
  revert k. induction acc as [|[[x y] z] acc IH]; intros k; [done|].
  destruct k as [|k]; [done|].
  change (alter (λ '(x, y, z), (g0 x, g1 y, g2 z)) (S k) ((x, y, z) :: acc))
    with ((x, y, z) :: alter (λ '(x, y, z), (g0 x, g1 y, g2 z)) k acc).
  rewrite !flat3_cons, <- IH.
  replace (3 * S k + 2)%nat with (S (S (S (3 * k + 2)))) by lia.
  replace (3 * S k + 1)%nat with (S (S (S (3 * k + 1)))) by lia.
  replace (3 * S k)%nat with (S (S (S (3 * k)))) by lia.
  done.
Qed.

Lemma flat3_update3 (f0 f1 f2 : num → num) (acc : list (vec3 num)) (k : Z) :
  update f2 (update f1 (update f0 (flat3 acc) (Some (k * 3))) (Some (k * 3 + 1)))
    (Some (k * 3 + 2))
  = flat3 (if decide (0 ≤ k)
           then alter (λ '(x, y, z),
                  (Math_fround (f0 x), Math_fround (f1 y), Math_fround (f2 z)))
                  (Z.to_nat k) acc
           else acc).
Proof.
  unfold update. repeat case_decide; try lia; [|done].
  replace (Z.to_nat (k * 3)) with (3 * Z.to_nat k)%nat by lia.
  replace (Z.to_nat (k * 3 + 1)) with (3 * Z.to_nat k + 1)%nat by lia.
  replace (Z.to_nat (k * 3 + 2)) with (3 * Z.to_nat k + 2)%nat by lia.
  apply flat3_alter3.
Qed.

(** Three reads at the three coordinates of one point. *)
Lemma elems_flat3 (vs : list (vec3 num)) (k : Z) :
  (elem (flat3 vs) (Some (k * 3)), elem (flat3 vs) (Some (k * 3 + 1)),
   elem (flat3 vs) (Some (k * 3 + 2))) = vertexOf vs k.
Proof.
  unfold elem, vertexOf. repeat case_decide; try lia; [|done].
  replace (Z.to_nat (k * 3)) with (3 * Z.to_nat k + 0)%nat by lia.
  replace (Z.to_nat (k * 3 + 1)) with (3 * Z.to_nat k + 1)%nat by lia.
  replace (Z.to_nat (k * 3 + 2)) with (3 * Z.to_nat k + 2)%nat by lia.
  destruct (vs !! Z.to_nat k) as [[[x y] z]|] eqn:Hk.
  - by rewrite !(flat3_lookup vs _ _ (x, y, z)) by (done || lia).
  - apply lookup_ge_None in Hk.
    rewrite !(proj2 (lookup_ge_None (flat3 vs) _)) by (rewrite flat3_length; lia).
    done.
Qed.

(** A loop over the positions of a list is a fold over the list, seen
    through a representation [repr] of the state. *)
Lemma foldl_seqZ_lookup {S T X : Type} (repr : T → S) (h : Z → S → S) (g : T → X → T)
    (l : list X) (a : T) :
  (∀ (t : nat) (x : X) (a : T), l !! t = Some x → h (Z.of_nat t) (repr a) = repr (g a x)) →
  foldl (λ s t, h t s) (repr a) (seqZ 0 (Z.of_nat (length l))) = repr (foldl g a l).
Proof.
  revert a. induction l as [|x l IH] using rev_ind; intros a Hh; [done|].
  rewrite length_app, Nat.add_1_r, seqZ_S, !foldl_snoc, IH.
  - rewrite Z.add_0_l. apply Hh. by rewrite lookup_app_r, Nat.sub_diag.
  - intros t y a' Ht. apply Hh. by rewrite lookup_app_l by (by eapply lookup_lt_Some).
Qed.

Lemma flatTriangles_length (ts : list (Z * Z * Z)) :
  length (flatTriangles ts) = (length ts * 3)%nat.
Proof. unfold flatTriangles. apply length_bind_uniform. by intros [[i1 i2] i3]. Qed.

Lemma int_elem_flatTriangles (ts : list (Z * Z * Z)) (t : nat) (i1 i2 i3 : Z) :
  ts !! t = Some (i1, i2, i3) →
  int_elem (flatTriangles ts) (3 * Z.of_nat t) = Some i1 ∧
  int_elem (flatTriangles ts) (3 * Z.of_nat t + 1) = Some i2 ∧
  int_elem (flatTriangles ts) (3 * Z.of_nat t + 2) = Some i3.
Proof.
  intros Ht. unfold int_elem, flatTriangles. repeat case_decide; try lia.
  replace (Z.to_nat (3 * Z.of_nat t)) with (t * 3 + 0)%nat by lia.
  replace (Z.to_nat (3 * Z.of_nat t + 1)) with (t * 3 + 1)%nat by lia.
  replace (Z.to_nat (3 * Z.of_nat t + 2)) with (t * 3 + 2)%nat by lia.
  rewrite !(lookup_bind_uniform _ 3%nat _ _ _ (i1, i2, i3)); try done; try lia.
  all: by intros [[? ?] ?].
Qed.
End FlatUpdates.

Section FacetWeighted.
Context {num : Type} `{JsNumber num}.
Import Surface.

Lemma for_lt_by3_triples {S : Type} (count : nat) (body : Z → S → S) (s : S) :
  for_lt_by3 (Z.of_nat (count * 3)) body s
  = foldl (λ s t, body (3 * t) s) s (seqZ 0 (Z.of_nat count)).
Proof.
  unfold for_lt_by3. do 2 f_equal.
  rewrite Nat2Z.inj_mul, Z.div_add_l by done. change (2 `div` 3) with 0. lia.
Qed.

(** One facet, on the flat arrays and on the vectors. *)
Lemma accumulateFacet_addFacet (vs acc : list (vec3 num)) (ts : list (Z * Z * Z))
    (t : nat) (tri : Z * Z * Z) :
  ts !! t = Some tri →
  accumulateFacet (flat3 vs) (flatTriangles ts) (3 * Z.of_nat t) (flat3 acc)
  = flat3 (addFacet vs acc tri).
Proof.
  destruct tri as [[i1 i2] i3]. intros Ht.
  destruct (int_elem_flatTriangles ts t i1 i2 i3 Ht) as (E1 & E2 & E3).
  unfold accumulateFacet. rewrite E1, E2, E3.
  cbn [fmap option_fmap option_map].
  pose proof (elems_flat3 vs i1) as V1. pose proof (elems_flat3 vs i2) as V2.
  pose proof (elems_flat3 vs i3) as V3.
  unfold addFacet, facetWeight.
  destruct (vertexOf vs i1) as [[f0 f1] f2], (vertexOf vs i2) as [[s0 s1] s2],
    (vertexOf vs i3) as [[t0 t1] t2].
  injection V1 as <- <- <-. injection V2 as <- <- <-. injection V3 as <- <- <-.
  cbn [vsub cross scale vlength]. rewrite !js_sqr_mul.
  unfold add_assign. rewrite !flat3_update3. done.
Qed.

(** The first loop computes the accumulators of the strategy. *)
Lemma accumulateFacets_foldl (vs acc : list (vec3 num)) (ts : list (Z * Z * Z)) :
  accumulateFacets (flat3 vs) (flatTriangles ts) (flat3 acc)
  = flat3 (foldl (addFacet vs) acc ts).
Proof.
  unfold accumulateFacets. rewrite flatTriangles_length, for_lt_by3_triples.
  apply (foldl_seqZ_lookup flat3 (λ t, accumulateFacet (flat3 vs) (flatTriangles ts) (3 * t))).
  intros t tri acc' Ht. by apply accumulateFacet_addFacet.
Qed.
(** One group of three numbers, on the flat array and on the vectors. *)
Lemma normalizeAt_alter (acc : list (vec3 num)) (t : nat) :
  normalizeAt (3 * Z.of_nat t) (flat3 acc) = flat3 (alter normalized t acc).
Proof.
  unfold normalizeAt, div_assign. rewrite (Z.mul_comm 3 (Z.of_nat t)).
  rewrite flat3_update3.
  pose proof (elems_flat3 acc (Z.of_nat t)) as V. unfold vertexOf in V.
  rewrite decide_True in V by lia. rewrite Nat2Z.id in V.
  rewrite decide_True by lia. rewrite Nat2Z.id. f_equal.
  apply list_alter_ext; [|done]. intros [[x y] z] Hx.
  rewrite Hx in V. change (default vnan (Some (x, y, z))) with (x, y, z) in V.
  injection V as <- <- <-. done.
Qed.

Lemma foldl_alter_all {X : Type} (f : X → X) (pre post : list X) :
  foldl (λ a t, alter f (Z.to_nat t) a) (pre ++ post)
    (seqZ (Z.of_nat (length pre)) (Z.of_nat (length post)))
  = pre ++ (f <$> post).
Proof.
  revert pre. induction post as [|x post IH]; intros pre; [done|].
  rewrite seqZ_cons by (simpl; lia). simpl foldl.
  rewrite Nat2Z.id. rewrite <- (Nat.add_0_r (length pre)) at 1.
  rewrite alter_app_r. simpl alter.
  replace (Z.succ (Z.of_nat (length pre))) with (Z.of_nat (length (pre ++ [f x])))
    by (rewrite length_app; simpl; lia).
  replace (Z.pred (Z.of_nat (S (length post)))) with (Z.of_nat (length post)) by lia.
  rewrite (cons_middle (f x) pre post), app_assoc, IH.
  by rewrite <- app_assoc.
Qed.

(** The second loop divides every accumulated vector by its length. *)
Lemma normalizeInPlace_fmap (acc : list (vec3 num)) :
  normalizeInPlace (flat3 acc) = flat3 (normalized <$> acc).
Proof.
  unfold normalizeInPlace.
  rewrite flat3_length, (Nat.mul_comm 3), for_lt_by3_triples.
  assert (foldl (λ a t, alter normalized (Z.to_nat t) a) acc
            (seqZ 0 (Z.of_nat (length acc))) = normalized <$> acc) as Hall
    by apply (foldl_alter_all normalized [] acc).
  rewrite <- Hall. clear Hall.
  assert (Forall (λ t, 0 ≤ t) (seqZ 0 (Z.of_nat (length acc)))) as Hl.
  { apply Forall_seqZ. lia. }
  revert Hl. generalize (seqZ 0 (Z.of_nat (length acc))) as l. intros l.
  revert acc. induction l as [|t l IH]; intros acc Hl; [done|].
  apply Forall_cons in Hl as [Ht Hl]. simpl.
  rewrite <- (Z2Nat.id t) at 1 by done. rewrite normalizeAt_alter. by apply IH.
Qed.

Lemma Float32Array_zeros_flat3 (vs : list (vec3 num)) :
  Float32Array_zeros (length (flat3 vs)) = flat3 (replicate (length vs) vzero).
Proof.
  unfold Float32Array_zeros. rewrite flat3_length.
  induction (length vs) as [|k IH]; [done|].
  replace (3 * S k)%nat with (S (S (S (3 * k)))) by lia.
  rewrite !replicate_S, flat3_cons, <- IH. done.
Qed.

(** [getFacetWeightedNormals] computes the face-weighted strategy. *)
Lemma getFacetWeightedNormals_strategy (vs : list (vec3 num)) (ts : list (Z * Z * Z)) :
  getFacetWeightedNormals (flat3 vs) (flatTriangles ts)
  = flat3 (faceWeightedNormals vs ts).
Proof.
  unfold getFacetWeightedNormals, faceWeightedNormals, accumulated.
  by rewrite Float32Array_zeros_flat3, accumulateFacets_foldl, normalizeInPlace_fmap.
Qed.

Lemma accumulated_length (vs : list (vec3 num)) (ts : list (Z * Z * Z)) :
  length (accumulated vs ts) = length vs.
Proof.
  unfold accumulated. rewrite <- (length_replicate (length vs) (@vzero num _)) at 2.
  generalize (replicate (length vs) (@vzero num _)) as acc.
  induction ts as [|[[i1 i2] i3] ts IH]; intros acc; [done|].
  simpl. rewrite IH. unfold addAt.
  repeat case_decide; by rewrite ?length_alter.
Qed.

(** C4. [getFacetWeightedNormals] implements the face-weighted strategy
    [faceWeightedNormals], for every vertex array of whole points and every
    index list of whole triangles: the accumulator array has the length of
    the vertex array and starts at zero; every triangle adds the cross
    product of its two edges (second corner minus first, third corner minus
    first), scaled by its own length, to the accumulators of its three
    corners; at the end every accumulated vector is divided by its own
    length. The accumulators are single-precision: every store rounds. *)
Theorem getFacetWeightedNormals_face_weighted (vs : list (vec3 num)) (ts : list (Z * Z * Z)) :
  getFacetWeightedNormals (flat3 vs) (flatTriangles ts)
    = flat3 (faceWeightedNormals vs ts) ∧
  Float32Array_zeros (length (flat3 vs)) = flat3 (replicate (length vs) vzero) ∧
  accumulateFacets (flat3 vs) (flatTriangles ts) (Float32Array_zeros (length (flat3 vs)))
    = flat3 (accumulated vs ts) ∧
  length (getFacetWeightedNormals (flat3 vs) (flatTriangles ts)) = length (flat3 vs).
Proof.
  split; [apply getFacetWeightedNormals_strategy|].
  split; [apply Float32Array_zeros_flat3|].
  split.
  - rewrite Float32Array_zeros_flat3. apply accumulateFacets_foldl.
  - rewrite getFacetWeightedNormals_strategy, !flat3_length.
    unfold faceWeightedNormals. by rewrite length_fmap, accumulated_length.
Qed.
End FacetWeighted.

(** ** Facet-weighted normals in exact arithmetic *)

Section ExactFacets.
Import Surface.
Local Open Scope R_scope.

Lemma vertexOf_finite (rvs : list (R * R * R)) (k : Z) :
  (0 ≤ k < Z.of_nat (length rvs))%Z →
  vertexOf (finite3 <$> rvs) k = finite3 (vertexOfR rvs k).
Proof.
  intros Hk. unfold vertexOf, vertexOfR. rewrite decide_True by lia.
  rewrite list_lookup_fmap.
  destruct (lookup_lt_is_Some_2 rvs (Z.to_nat k)) as [p Hp]; [lia|].
  by rewrite Hp.
Qed.

Lemma facetWeight_finite (rvs : list (R * R * R)) (i1 i2 i3 : Z) :
  cornersBelow (length rvs) (i1, i2, i3) →
  facetWeight (finite3 <$> rvs) (i1, i2, i3)
  = finite3 (weightR (vertexOfR rvs i1) (vertexOfR rvs i2) (vertexOfR rvs i3)).
Proof.
  intros (H1 & H2 & H3). unfold facetWeight. rewrite !vertexOf_finite by done.
  destruct (vertexOfR rvs i1) as [[f0 f1] f2], (vertexOfR rvs i2) as [[s0 s1] s2],
    (vertexOfR rvs i3) as [[t0 t1] t2].
  unfold finite3, weightR. cbn [vsub cross js_sub js_mul xreal_number x_sub x_add x_neg x_mul].
  unfold scale. rewrite vlength_finite. done.
Qed.

Lemma addAt_finite (racc : list (R * R * R)) (k : Z) (w : R * R * R) :
  (0 ≤ k)%Z →
  addAt (finite3 <$> racc) k (finite3 w) = finite3 <$> addAtR racc k w.
Proof.
  intros Hk. unfold addAt, addAtR. rewrite decide_True by done.
  symmetry. apply list_fmap_alter, Forall_forall.
  intros [[x y] z] _. by destruct w as [[w0 w1] w2].
Qed.

Lemma addFacet_finite (rvs racc : list (R * R * R)) (t : Z * Z * Z) :
  cornersBelow (length rvs) t →
  addFacet (finite3 <$> rvs) (finite3 <$> racc) t = finite3 <$> addFacetR rvs racc t.
Proof.
  destruct t as [[i1 i2] i3]. intros Ht. unfold addFacet.
  rewrite facetWeight_finite by done. destruct Ht as (H1 & H2 & H3).
  unfold addFacetR. by rewrite !addAt_finite by lia.
Qed.

Lemma foldl_addFacet_finite (rvs racc : list (R * R * R)) (ts : list (Z * Z * Z)) :
  Forall (cornersBelow (length rvs)) ts →
  foldl (addFacet (finite3 <$> rvs)) (finite3 <$> racc) ts
  = finite3 <$> foldl (addFacetR rvs) racc ts.
Proof.
  revert racc. induction ts as [|t ts IH]; intros racc Hts; [done|].
  apply Forall_cons in Hts as [Ht Hts]. simpl.
  rewrite addFacet_finite by done. by apply IH.
Qed.

(** With finite vertices and corners that exist, every accumulator is a
    vector of real numbers. *)
Lemma accumulated_finite (rvs : list (R * R * R)) (ts : list (Z * Z * Z)) :
  Forall (cornersBelow (length rvs)) ts →
  accumulated (finite3 <$> rvs) ts
  = finite3 <$> foldl (addFacetR rvs) (replicate (length rvs) (0, 0, 0)) ts.
Proof.
  intros Hts. unfold accumulated. rewrite length_fmap.
  rewrite <- foldl_addFacet_finite by done. by rewrite fmap_replicate.
Qed.

(** The quotient of a real vector by its length: a unit vector, or three
    times 0/0. *)
Lemma normalized_finite (x y z : R) :
  (x * x + y * y + z * z ≠ 0 →
   ∃ nx ny nz, normalized (finite3 (x, y, z)) = finite3 (nx, ny, nz)
               ∧ nx * nx + ny * ny + nz * nz = 1) ∧
  (x * x + y * y + z * z = 0 → normalized (finite3 (x, y, z)) = vnan).
Proof.
  unfold normalized. cbn [finite3]. rewrite vlength_finite.
  set (s := x * x + y * y + z * z). pose proof (sum_squares_nonneg x y z) as Hs.
  fold s in Hs. split.
  - intros Hne. assert (0 < sqrt s) as Hq by (apply sqrt_lt_R0; lra).
    unfold stored_quotient. cbn [js_div Math_fround xreal_number].
    rewrite !x_div_finite by lra.
    eexists _, _, _. split; [done|].
    pose proof (sqrt_sqrt s Hs) as Hqq.
    assert (s = x * x + y * y + z * z) as Hse by done.
    clearbody s. revert Hq Hqq. generalize (sqrt s) as q. intros q Hq Hqq.
    replace (x / q * (x / q) + y / q * (y / q) + z / q * (z / q))
      with ((x * x + y * y + z * z) / (q * q)) by (field; lra).
    rewrite Hqq, <- Hse. field. lra.
  - intros Hz. rewrite Hz, sqrt_0.
    assert (x = 0 ∧ y = 0 ∧ z = 0) as (-> & -> & ->) by (unfold s in Hz; nra).
    unfold stored_quotient. cbn [js_div Math_fround xreal_number].
    by rewrite x_div_zero_zero.
Qed.
(** The quotient, written out. *)
Lemma normalized_finite_explicit (x y z : R) :
  x * x + y * y + z * z ≠ 0 →
  normalized (finite3 (x, y, z))
  = finite3 (x / sqrt (x * x + y * y + z * z), y / sqrt (x * x + y * y + z * z),
             z / sqrt (x * x + y * y + z * z)).
Proof.
  intros Hne. unfold normalized. cbn [finite3]. rewrite vlength_finite.
  pose proof (sum_squares_nonneg x y z) as Hs.
  assert (0 < sqrt (x * x + y * y + z * z)) as Hq by (apply sqrt_lt_R0; lra).
  unfold stored_quotient. cbn [js_div Math_fround xreal_number].
  by rewrite !x_div_finite by lra.
Qed.
End ExactFacets.

Section ExactNormals.
Import Surface.
Local Open Scope R_scope.

Lemma grid_fmap {A B : Type} (h : A → B) (rows cols : Z) (g : Z → Z → A) :
  grid rows cols (λ i j, h (g i j)) = h <$> grid rows cols g.
Proof.
  unfold grid. induction (seqZ 0 rows) as [|i l IH]; [done|].
  by rewrite !bind_cons, fmap_app, IH, <- list_fmap_compose.
Qed.

Lemma grid_ext {A : Type} (rows cols : Z) (f g : Z → Z → A) :
  (∀ i j, f i j = g i j) → grid rows cols f = grid rows cols g.
Proof.
  intros Hfg. unfold grid. induction (seqZ 0 rows) as [|i l IH]; [done|].
  rewrite !bind_cons, IH. f_equal. apply list_fmap_ext. intros _ j _. apply Hfg.
Qed.

Lemma position_finite (r c w : R) (segmentsU segmentsV i j : Z) :
  (1 ≤ segmentsU)%Z → (1 ≤ segmentsV)%Z →
  position (Finite r) (Finite c) (Finite w) (sample_phi segmentsU i) (sample_v segmentsV j)
  = finite3 (positionR r c w segmentsU segmentsV i j).
Proof.
  intros HU HV. by rewrite sample_phi_finite, sample_v_finite.
Qed.

(** The vertex array of a model with real parameters. *)
Lemma getVertices_finite (m : Model xreal) (r c w : R) :
  radius m = Finite r → a m = Finite c → n m = Finite w →
  (1 ≤ segmentsCountU m)%Z → (1 ≤ segmentsCountV m)%Z →
  getVertices m
  = flat3 (finite3 <$> grid (segmentsCountU m + 1) (segmentsCountV m + 1)
                         (positionR r c w (segmentsCountU m) (segmentsCountV m))).
Proof.
  intros Hr Hc Hw HU HV. rewrite getVertices_grid, <- grid_fmap, Hr, Hc, Hw.
  f_equal. apply grid_ext. intros i j. by apply position_finite.
Qed.

Lemma flatTriangles_bind {B : Type} (g : B → list (Z * Z * Z)) (l : list B) :
  flatTriangles (l ≫= g) = l ≫= λ x, flatTriangles (g x).
Proof.
  unfold flatTriangles. induction l as [|x l IH]; [done|].
  by rewrite !bind_cons, bind_app, IH.
Qed.

(** The index list as a list of triangles. *)
Lemma getIndices_facets {num : Type} `{JsNumber num} (m : Model num) :
  getIndices m
  = flatTriangles (cells (segmentsCountU m) (segmentsCountV m) (cellFacets (segmentsCountV m))).
Proof.
  rewrite getIndices_cells. unfold cells. rewrite flatTriangles_bind.
  induction (seqZ 0 (segmentsCountU m)) as [|i l IH]; [done|].
  rewrite !bind_cons, IH. f_equal. by rewrite flatTriangles_bind.
Qed.

Lemma cellFacets_below (segmentsU segmentsV : Z) :
  Forall (cornersBelow (Z.to_nat ((segmentsU + 1) * (segmentsV + 1))))
    (cells segmentsU segmentsV (cellFacets segmentsV)).
Proof.
  apply cells_Forall. intros i j Hi Hj. unfold cellFacets, cornersBelow.
  repeat (apply Forall_cons; split; [nia|]). apply Forall_nil_2.
Qed.

(** The accumulators and the normals of a model with real parameters. *)
Lemma facet_normals_exact (m : Model xreal) (r c w : R) :
  radius m = Finite r → a m = Finite c → n m = Finite w →
  (1 ≤ segmentsCountU m)%Z → (1 ≤ segmentsCountV m)%Z →
  let rvs := grid (segmentsCountU m + 1) (segmentsCountV m + 1)
               (positionR r c w (segmentsCountU m) (segmentsCountV m)) in
  let racc := foldl (addFacetR rvs) (replicate (length rvs) (0, 0, 0))
                (cells (segmentsCountU m) (segmentsCountV m) (cellFacets (segmentsCountV m))) in
  accumulateFacets (getVertices m) (getIndices m)
      (Float32Array_zeros (length (getVertices m)))
    = flat3 (finite3 <$> racc) ∧
  getFacetWeightedNormals (getVertices m) (getIndices m)
    = flat3 (normalized <$> (finite3 <$> racc)) ∧
  length racc = Z.to_nat ((segmentsCountU m + 1) * (segmentsCountV m + 1)).
Proof.
  intros Hr Hc Hw HU HV rvs racc.
  assert (length rvs = Z.to_nat ((segmentsCountU m + 1) * (segmentsCountV m + 1))) as Hlen.
  { unfold rvs. rewrite grid_length. lia. }
  assert (Forall (cornersBelow (length rvs))
            (cells (segmentsCountU m) (segmentsCountV m) (cellFacets (segmentsCountV m))))
    as Hts by (rewrite Hlen; apply cellFacets_below).
  pose proof (accumulated_finite rvs _ Hts) as Hacc. fold racc in Hacc.
  rewrite (getVertices_finite m r c w) by done. fold rvs.
  rewrite getIndices_facets. split; [|split].
  - rewrite Float32Array_zeros_flat3, accumulateFacets_foldl. f_equal. exact Hacc.
  - rewrite getFacetWeightedNormals_strategy. unfold faceWeightedNormals.
    by rewrite Hacc.
  - rewrite <- Hlen, <- (length_fmap finite3 racc), <- Hacc, accumulated_length.
    by rewrite length_fmap.
Qed.

End ExactNormals.

Section DegenerateSphere.
Import Surface.
Local Open Scope R_scope.

Lemma weightR_zero : weightR (0, 0, 0) (0, 0, 0) (0, 0, 0) = (0, 0, 0).
Proof. unfold weightR. f_equal; [f_equal|]; ring. Qed.

Lemma vertexOfR_zero (rvs : list (R * R * R)) (k : Z) :
  Forall (λ p, p = (0, 0, 0)) rvs → vertexOfR rvs k = (0, 0, 0).
Proof.
  intros Hz. unfold vertexOfR. destruct (rvs !! Z.to_nat k) as [p|] eqn:Hp; [|done].
  simpl. eapply Forall_lookup_1 in Hz; [|exact Hp]. done.
Qed.

Lemma addAtR_zero (racc : list (R * R * R)) (k : Z) :
  Forall (λ p, p = (0, 0, 0)) racc → Forall (λ p, p = (0, 0, 0)) (addAtR racc k (0, 0, 0)).
Proof.
  intros Hz. unfold addAtR. apply Forall_alter; [done|].
  intros p _ ->. f_equal; [f_equal|]; ring.
Qed.

(** When every vertex is the origin, every accumulator stays at zero. *)
Lemma foldl_addFacetR_zero (rvs racc : list (R * R * R)) (ts : list (Z * Z * Z)) :
  Forall (λ p, p = (0, 0, 0)) rvs → Forall (λ p, p = (0, 0, 0)) racc →
  Forall (λ p, p = (0, 0, 0)) (foldl (addFacetR rvs) racc ts).
Proof.
  intros Hv. revert racc. induction ts as [|[[i1 i2] i3] ts IH]; intros racc Hz; [done|].
  simpl. apply IH. rewrite !vertexOfR_zero, weightR_zero by done.
  by do 3 apply addAtR_zero.
Qed.

Lemma positionR_origin (w : R) (segmentsU segmentsV i j : Z) :
  positionR 0 0 w segmentsU segmentsV i j = (0, 0, 0).
Proof. unfold positionR. f_equal; [f_equal|]; ring. Qed.
End DegenerateSphere.

(** C5 fails on the code: with radius 0 and amplitude 0, one segment each
    way, every vertex is the origin, the accumulated vector of the first
    vertex is zero, and the normal returned for it is [(NaN, NaN, NaN)]: a
    division of zero by zero, not a vector of length one. *)
Lemma facet_normal_of_origin_is_nan :
  let m := Surface.mkModel (Finite 0) (Finite 0) (Finite 0) 1 1 0%nat 1%nat 2%nat in
  1 ≤ Surface.segmentsCountU m ∧ 1 ≤ Surface.segmentsCountV m ∧
  vertexAt (Surface.getFacetWeightedNormals (Surface.getVertices m) (Surface.getIndices m)) 0
    = Some (NotANumber, NotANumber, NotANumber) ∧
  vlength (NotANumber, NotANumber, NotANumber) ≠ Finite 1.
Proof.
  intros m. split; [simpl; lia|]. split; [simpl; lia|]. split; [|done].
  destruct (facet_normals_exact m 0 0 0) as (_ & Hnormals & Hlen);
    [done|done|done|simpl; lia|simpl; lia|].
  rewrite Hnormals, vertexAt_flat3, !list_lookup_fmap.
  match type of Hlen with length ?racc = _ =>
    destruct (lookup_lt_is_Some_2 racc 0) as [p Hp]; [rewrite Hlen; simpl; lia|];
    assert (Forall (λ p, p = (0%R, 0%R, 0%R)) racc) as Hzero end.
  { apply foldl_addFacetR_zero.
    - apply grid_Forall. intros i j _ _. apply positionR_origin.
    - apply Forall_replicate. done. }
  rewrite Hp. eapply Forall_lookup_1 in Hzero; [|exact Hp]. subst p.
  cbn [fmap option_fmap option_map]. f_equal.
  apply normalized_finite. lra.
Qed.

(** ** Rounded arithmetic: the constants *)

Section Ranges.
Local Open Scope R_scope.

Lemma u64_small : 0 <= u64 <= / 10 ^ 9.
Proof. unfold u64. lra. Qed.

Lemma u32_small : 0 <= u32 <= 6 / 10 ^ 8.
Proof. unfold u32. lra. Qed.

Lemma eta32_small : 0 <= eta32 <= / 10 ^ 9.
Proof. unfold eta32. lra. Qed.

Lemma binary_ranges :
  0 < tiny32 ∧ tiny64 <= tiny32 * tiny32 ∧ 64 * (huge32 * huge32) <= huge64 ∧
  tiny64 * (8 * huge32) <= tiny32 ∧ 2 <= huge32 ∧ 2 <= huge64.
Proof. unfold tiny32, tiny64, huge32, huge64. repeat split; lra. Qed.
End Ranges.

(** ** Rounding errors of a length and of a quotient *)

Section RoundingErrors.
Local Open Scope R_scope.

Lemma Rabs_between (a b : R) : Rabs a <= b → - b <= a <= b.
Proof. unfold Rabs. destruct (Rcase_abs a); lra. Qed.

Lemma rel_interval (u r c : R) :
  0 <= r → Rabs (c - r) <= u * Rabs r → r * (1 - u) <= c <= r * (1 + u).
Proof.
  intros Hr Hc. rewrite (Rabs_pos_eq r Hr) in Hc.
  apply Rabs_between in Hc. lra.
Qed.

Lemma sqrt_between (x lo hi : R) :
  0 <= lo → 0 <= hi → lo * lo <= x → x <= hi * hi → lo <= sqrt x <= hi.
Proof.
  intros Hlo Hhi Hl Hh. split.
  - rewrite <- (sqrt_square lo Hlo). apply sqrt_le_1_alt. exact Hl.
  - rewrite <- (sqrt_square hi Hhi). apply sqrt_le_1_alt. exact Hh.
Qed.

(** The computed length of a vector is within four roundings of its length. *)
Lemma rounded_length (u a b c A B C T1 T2 L : R) :
  0 <= u <= / 10 ^ 9 →
  Rabs (A - a * a) <= u * Rabs (a * a) →
  Rabs (B - b * b) <= u * Rabs (b * b) →
  Rabs (C - c * c) <= u * Rabs (c * c) →
  Rabs (T1 - (A + B)) <= u * Rabs (A + B) →
  Rabs (T2 - (T1 + C)) <= u * Rabs (T1 + C) →
  Rabs (L - sqrt T2) <= u * Rabs (sqrt T2) →
  let s := sqrt (a * a + b * b + c * c) in
  0 <= A <= 2 * (a * a) ∧ 0 <= B <= 2 * (b * b) ∧ 0 <= C <= 2 * (c * c) ∧
  0 <= T1 <= 2 * (A + B) ∧ 0 <= T2 ∧
  s * (1 - 4 * u) <= L <= s * (1 + 4 * u).
Proof.
  intros Hu HA HB HC HT1 HT2 HL s.
  assert (/ 10 ^ 9 <= / 1000) as Hsmall.
  { apply Rinv_le_contravar; simpl; lra. }
  assert (0 <= a * a) as Ha by nra. assert (0 <= b * b) as Hb by nra.
  assert (0 <= c * c) as Hc by nra.
  apply rel_interval in HA; [|done]. apply rel_interval in HB; [|done].
  apply rel_interval in HC; [|done].
  assert (0 <= A) by nra. assert (0 <= B) by nra. assert (0 <= C) by nra.
  apply rel_interval in HT1; [|lra]. assert (0 <= T1) by nra.
  apply rel_interval in HT2; [|lra]. assert (0 <= T2) by nra.
  pose proof (sqrt_pos T2) as HsT.
  apply rel_interval in HL; [|done].
  set (s2 := a * a + b * b + c * c) in *.
  assert (0 <= s2) as Hs2 by (unfold s2; lra).
  assert (0 <= s) as Hs by apply sqrt_pos.
  assert (s * s = s2) as Hss by (apply sqrt_sqrt; done).
  assert (s2 * (1 - 3 * u) <= T2 <= s2 * (1 + 4 * u)) as HT2'.
  { unfold s2. split; nra. }
  assert (s * (1 - 3 * u) <= sqrt T2 <= s * (1 + 2 * u)) as Hroot.
  { apply sqrt_between; [nra|nra|nra|nra]. }
  repeat split; try lra; try nra.
Qed.

(** One coordinate divided by the computed length and stored in single
    precision. *)
Lemma rounded_component (u v e a s L d q : R) :
  0 <= u <= / 10 ^ 9 → 0 <= v <= 6 / 10 ^ 8 → 0 <= e <= / 10 ^ 9 →
  0 < s → Rabs a <= s →
  s * (1 - 4 * u) <= L <= s * (1 + 4 * u) →
  Rabs (d - a / L) <= u * Rabs (a / L) →
  Rabs (a / L) <= 2 ∧ Rabs d <= 2 ∧
  (Rabs (q - d) <= v * Rabs d + e → Rabs (q - a / s) <= 7 / 10 ^ 8).
Proof.
  intros Hu Hv He Hs Ha HL Hd.
  assert (/ 10 ^ 9 = 1 / 1000000000) as E9 by (simpl; lra).
  assert (6 / 10 ^ 8 = 6 / 100000000) as E8 by (simpl; lra).
  assert (7 / 10 ^ 8 = 7 / 100000000) as E7 by (simpl; lra).
  rewrite E9 in *. rewrite E8 in *. rewrite E7. clear E9 E8 E7.
  assert (0 < L) as HLpos by nra.
  set (n := a / s). set (rho := s / L).
  assert (a / L = n * rho) as Hal by (unfold n, rho; field; lra).
  assert (rho * L = s) as Hrho by (unfold rho; field; lra).
  assert (n * s = a) as Hn by (unfold n; field; lra).
  apply Rabs_between in Ha.
  assert (-1 <= n <= 1) as Hn1 by (split; nra).
  assert (1 - 5 * u <= rho <= 1 + 5 * u) as Hrho1 by (split; nra).
  rewrite Hal in *.
  assert (Rabs (n * rho - n) <= 5 * u) as H1.
  { apply Rabs_le. split; nra. }
  assert (Rabs (n * rho) <= 1 + 5 * u) as H2.
  { apply Rabs_le. split; nra. }
  assert (Rabs (d - n * rho) <= u * (1 + 5 * u)) as H3 by nra.
  apply Rabs_between in H1, H2, H3.
  assert (Rabs d <= 1 + 7 * u) as H4 by (apply Rabs_le; split; nra).
  split; [apply Rabs_le; split; nra|].
  split; [lra|]. intros Hq.
  assert (Rabs (q - d) <= v * (1 + 7 * u) + e) as H5 by nra.
  apply Rabs_between in H5. pose proof H4 as H4'. apply Rabs_between in H4'.
  apply Rabs_le. split; nra.
Qed.

Lemma square_near (q n d : R) :
  0 <= d <= 1 → Rabs n <= 1 → Rabs (q - n) <= d → Rabs (q * q - n * n) <= 3 * d.
Proof.
  intros Hd Hn Hq. apply Rabs_between in Hn, Hq. apply Rabs_le. split; nra.
Qed.

(** The length of the stored quotient is one, to a millionth. *)
Lemma rounded_unit (a b c s qa qb qc : R) :
  0 < s → s * s = a * a + b * b + c * c →
  Rabs (qa - a / s) <= 7 / 10 ^ 8 → Rabs (qb - b / s) <= 7 / 10 ^ 8 →
  Rabs (qc - c / s) <= 7 / 10 ^ 8 →
  Rabs (sqrt (qa * qa + qb * qb + qc * qc) - 1) <= / 10 ^ 6.
Proof.
  intros Hs Hss Ha Hb Hc.
  assert (7 / 10 ^ 8 = 7 / 100000000) as E7 by (simpl; lra).
  assert (/ 10 ^ 6 = 1 / 1000000) as E6 by (simpl; lra).
  rewrite E7 in *. rewrite E6. clear E7 E6.
  set (na := a / s) in *. set (nb := b / s) in *. set (nc := c / s) in *.
  assert (na * na + nb * nb + nc * nc = 1) as Hone.
  { assert (na * s = a) as Ea by (unfold na; field; lra).
    assert (nb * s = b) as Eb by (unfold nb; field; lra).
    assert (nc * s = c) as Ec by (unfold nc; field; lra).
    apply (Rmult_eq_reg_r (s * s)); [|nra].
    transitivity (na * s * (na * s) + nb * s * (nb * s) + nc * s * (nc * s)); [ring|].
    rewrite Ea, Eb, Ec. lra. }
  clearbody na nb nc.
  assert (∀ x, x * x <= 1 → Rabs x <= 1) as Hsq.
  { intros x Hx. apply Rabs_le. split; nra. }
  pose proof (Rle_0_sqr na) as Pa. pose proof (Rle_0_sqr nb) as Pb.
  pose proof (Rle_0_sqr nc) as Pc. unfold Rsqr in Pa, Pb, Pc.
  assert (Rabs na <= 1) as Hna by (apply Hsq; lra).
  assert (Rabs nb <= 1) as Hnb by (apply Hsq; lra).
  assert (Rabs nc <= 1) as Hnc by (apply Hsq; lra).
  pose proof (square_near qa na (7 / 100000000) ltac:(lra) Hna Ha) as Qa.
  pose proof (square_near qb nb (7 / 100000000) ltac:(lra) Hnb Hb) as Qb.
  pose proof (square_near qc nc (7 / 100000000) ltac:(lra) Hnc Hc) as Qc.
  apply Rabs_between in Qa, Qb, Qc.
  set (Q := qa * qa + qb * qb + qc * qc).
  assert (1 - 1 / 1000000 <= sqrt Q <= 1 + 1 / 1000000) as HQ.
  { apply sqrt_between; unfold Q; nra. }
  apply Rabs_le. lra.
Qed.

End RoundingErrors.

(** ** The division by the length, in rounded arithmetic *)

Section RoundedNormal.
Context {num : Type} `{JsNumber num}.
Local Open Scope R_scope.

Lemma normal64_bound (r : R) : normal64 r → Rabs r <= huge64.
Proof.
  intros [->|[_ Hr]]; [|done]. rewrite Rabs_R0. pose proof binary_ranges. lra.
Qed.

Lemma mul_normal (value : num → xreal) (x y : num) (a b : R) :
  Rounded value → value x = Finite a → value y = Finite b → normal64 (a * b) →
  ∃ c, value (x * y)%js = Finite c ∧ Rabs (c - a * b) <= u64 * Rabs (a * b).
Proof.
  intros fp Hx Hy Hn.
  destruct (rounded_mul value fp x y a b Hx Hy (normal64_bound _ Hn)) as (c & Hc & _ & Hr).
  exists c. split; [done|]. by apply Hr.
Qed.

Lemma div_normal (value : num → xreal) (x y : num) (a b : R) :
  Rounded value → value x = Finite a → value y = Finite b → b ≠ 0 → normal64 (a / b) →
  ∃ c, value (x / y)%js = Finite c ∧ Rabs (c - a / b) <= u64 * Rabs (a / b).
Proof.
  intros fp Hx Hy Hb Hn.
  destruct (rounded_div value fp x y a b Hx Hy Hb (normal64_bound _ Hn)) as (c & Hc & _ & Hr).
  exists c. split; [done|]. by apply Hr.
Qed.

Lemma Rabs_zero_bound (c r : R) : Rabs (c - r) <= u64 * Rabs r → r = 0 → c = 0.
Proof.
  intros Hc ->. rewrite Rabs_R0, Rmult_0_r, Rminus_0_r in Hc.
  pose proof (Rabs_pos c). destruct (Req_dec c 0) as [|Hne]; [done|].
  apply Rabs_pos_lt in Hne. lra.
Qed.

(** The length of the zero vector is zero, and its quotients are NaN. *)
Lemma normalized_zero (value : num → xreal) (x y z : num) :
  Rounded value →
  value x = Finite 0 → value y = Finite 0 → value z = Finite 0 →
  ∃ nx ny nz, normalized (x, y, z) = (nx, ny, nz) ∧
    value nx = NotANumber ∧ value ny = NotANumber ∧ value nz = NotANumber.
Proof.
  intros fp Hx Hy Hz.
  assert (normal64 (0 * 0)) as H0 by (left; lra).
  assert (∀ w, value w = Finite 0 → value (w * w)%js = Finite 0) as Hsq.
  { intros w Hw. destruct (mul_normal value w w 0 0 fp Hw Hw H0) as (c & Hc & Ec).
    rewrite Hc. f_equal. apply (Rabs_zero_bound _ _ Ec). lra. }
  assert (∀ p q, value p = Finite 0 → value q = Finite 0 → value (p + q)%js = Finite 0)
    as Hadd.
  { intros p q Hp Hq.
    destruct (rounded_add value fp p q 0 0 Hp Hq) as (c & Hc & Ec).
    { rewrite Rplus_0_l, Rabs_R0. pose proof binary_ranges. lra. }
    rewrite Hc. f_equal. apply (Rabs_zero_bound _ _ Ec). lra. }
  assert (value (vlength (x, y, z)) = Finite 0) as Hlen.
  { unfold vlength.
    destruct (rounded_sqrt value fp (x * x + y * y + z * z)%js 0) as (c & Hc & Ec).
    { apply Hadd; [apply Hadd|]; by apply Hsq. }
    { lra. }
    rewrite Hc. f_equal. rewrite sqrt_0 in Ec. apply (Rabs_zero_bound _ _ Ec). done. }
  unfold normalized, stored_quotient. eexists _, _, _. split; [done|].
  repeat split; apply (rounded_fround_nan value fp);
    by apply (rounded_zero_div_zero value fp).
Qed.

Lemma single_square (a : R) :
  single a → normal64 (a * a) ∧ 0 <= a * a <= 4 * (huge32 * huge32).
Proof.
  pose proof binary_ranges as (Ht & Htt & Hhh & _ & Hh & _).
  intros [->|Ha].
  - split; [left; lra|]. nra.
  - assert (a * a = Rabs a * Rabs a) as ->.
    { unfold Rabs. destruct (Rcase_abs a); ring. }
    pose proof (Rabs_pos a). split; [right|nra].
    rewrite Rabs_mult, Rabs_Rabsolu. split; nra.
Qed.

Lemma Rabs_le_root (a s : R) : 0 <= s → a * a <= s * s → Rabs a <= s.
Proof. intros Hs Ha. apply Rabs_le. split; nra. Qed.

(** A coordinate divided by the computed length is zero or a normal
    number. *)
Lemma quotient_normal (a s L : R) :
  single a → 0 < s <= 4 * huge32 → Rabs a <= s →
  s * (1 - 4 * u64) <= L <= s * (1 + 4 * u64) →
  L ≠ 0 ∧ normal64 (a / L).
Proof.
  pose proof binary_ranges as (Ht & _ & _ & Hq & Hh & Hhh). pose proof u64_small as Hu.
  assert (/ 10 ^ 9 = 1 / 1000000000) as E9 by lra. rewrite E9 in Hu. clear E9.
  intros Ha Hs Has HL.
  assert (s * u64 <= s * (1 / 1000000000)) as Hsu by (apply Rmult_le_compat_l; lra).
  assert (0 <= s * u64) as Hsu0 by (apply Rmult_le_pos; lra).
  assert (s <= 2 * L ∧ L <= 8 * huge32) as (HsL & HLh) by lra.
  assert (0 < L) as HLpos by lra.
  split; [lra|]. destruct Ha as [->|Ha].
  - left. unfold Rdiv. ring.
  - right. assert (Rabs (a / L) = Rabs a / L) as ->.
    { unfold Rdiv. rewrite Rabs_mult, Rabs_inv, (Rabs_pos_eq L) by lra. done. }
    set (q := Rabs a / L). assert (q * L = Rabs a) as Hql by (unfold q; field; lra).
    assert (0 <= q) as Hq0.
    { unfold q. apply Rmult_le_pos; [apply Rabs_pos|]. left. by apply Rinv_0_lt_compat. }
    assert (q * L <= q * (8 * huge32)) as Hq8 by (apply Rmult_le_compat_l; lra).
    split.
    + apply (Rmult_le_reg_r (8 * huge32)); lra.
    + apply Rle_trans with 2; [|lra]. apply (Rmult_le_reg_r L); lra.
Qed.

Lemma le_root (x y : R) : 0 <= y → x * x <= y * y → x <= y.
Proof. intros Hy Hxy. nra. Qed.

(** A rounded non-negative number is at most twice its bound. *)
Lemma rounded_below (r c bound : R) :
  0 <= r <= bound → Rabs (c - r) <= u64 * Rabs r → 0 <= c <= 2 * bound.
Proof.
  intros Hr Hc. pose proof u64_small as Hu.
  assert (/ 10 ^ 9 = 1 / 1000000000) as E9 by lra. rewrite E9 in Hu. clear E9.
  apply rel_interval in Hc; [|lra]. split; nra.
Qed.

(** A vector of single-precision numbers that is not zero, divided by its
    computed length and stored in single precision, has length one to a
    millionth. *)
Lemma normalized_unit (value : num → xreal) (x y z : num) (a b c : R) :
  Rounded value →
  value x = Finite a → value y = Finite b → value z = Finite c →
  single a → single b → single c → a * a + b * b + c * c ≠ 0 →
  ∃ nx ny nz p q r, normalized (x, y, z) = (nx, ny, nz) ∧
    value nx = Finite p ∧ value ny = Finite q ∧ value nz = Finite r ∧
    Rabs (sqrt (p * p + q * q + r * r) - 1) <= / 10 ^ 6.
Proof.
  intros fp Hx Hy Hz Sa Sb Sc Hne.
  pose proof binary_ranges as (Ht & _ & Hhh & _ & Hh & Hh64). pose proof u64_small as Hu.
  destruct (single_square a Sa) as (Na & Ba). destruct (single_square b Sb) as (Nb & Bb).
  destruct (single_square c Sc) as (Nc & Bc).
  destruct (mul_normal value x x a a fp Hx Hx Na) as (A & HA & EA).
  destruct (mul_normal value y y b b fp Hy Hy Nb) as (B & HB & EB).
  destruct (mul_normal value z z c c fp Hz Hz Nc) as (C & HC & EC).
  pose proof (rounded_below _ _ _ Ba EA) as IA.
  pose proof (rounded_below _ _ _ Bb EB) as IB.
  pose proof (rounded_below _ _ _ Bc EC) as IC.
  destruct (rounded_add value fp _ _ A B HA HB) as (T1 & HT1 & ET1).
  { apply Rabs_le. lra. }
  assert (0 <= A + B <= 16 * (huge32 * huge32)) as BAB by lra.
  pose proof (rounded_below _ _ _ BAB ET1) as IT1.
  destruct (rounded_add value fp _ _ T1 C HT1 HC) as (T2 & HT2 & ET2).
  { apply Rabs_le. lra. }
  assert (0 <= T1 + C <= 40 * (huge32 * huge32)) as BTC by lra.
  pose proof (rounded_below _ _ _ BTC ET2) as IT2.
  destruct (rounded_sqrt value fp _ T2 HT2 ltac:(lra)) as (L & HL & EL).
  destruct (rounded_length u64 a b c A B C T1 T2 L Hu EA EB EC ET1 ET2 EL)
    as (_ & _ & _ & _ & _ & IL). cbv zeta in IL.
  clear IA IB IC IT1 IT2 BAB BTC EA EB EC ET1 ET2 EL.
  set (s2 := a * a + b * b + c * c) in *. set (s := sqrt s2) in *.
  assert (0 <= a * a ∧ 0 <= b * b ∧ 0 <= c * c) as (Pa & Pb & Pc) by lra.
  assert (0 < s2) as Hs2 by (unfold s2 in *; lra).
  assert (0 < s) as Hs by (apply sqrt_lt_R0; done).
  assert (s * s = s2) as Hss by (apply sqrt_sqrt; lra).
  assert (s <= 4 * huge32) as Hsh.
  { apply le_root; [lra|]. rewrite Hss. unfold s2. ring_simplify. nra. }
  assert (Rabs a <= s) as La by (apply Rabs_le_root; [lra|rewrite Hss; unfold s2; lra]).
  assert (Rabs b <= s) as Lb by (apply Rabs_le_root; [lra|rewrite Hss; unfold s2; lra]).
  assert (Rabs c <= s) as Lc by (apply Rabs_le_root; [lra|rewrite Hss; unfold s2; lra]).
  destruct (quotient_normal a s L Sa ltac:(lra) La IL) as (HL0 & Qa).
  destruct (quotient_normal b s L Sb ltac:(lra) Lb IL) as (_ & Qb).
  destruct (quotient_normal c s L Sc ltac:(lra) Lc IL) as (_ & Qc).
  assert (vlength (x, y, z) = Math_sqrt (x * x + y * y + z * z)%js) as Hlen by done.
  destruct (div_normal value x _ a L fp Hx HL HL0 Qa) as (da & Hda & Eda).
  destruct (div_normal value y _ b L fp Hy HL HL0 Qb) as (db & Hdb & Edb).
  destruct (div_normal value z _ c L fp Hz HL HL0 Qc) as (dc & Hdc & Edc).
  destruct (rounded_component u64 u32 eta32 a s L da 0 Hu u32_small eta32_small Hs La IL Eda)
    as (_ & Da & _).
  destruct (rounded_component u64 u32 eta32 b s L db 0 Hu u32_small eta32_small Hs Lb IL Edb)
    as (_ & Db & _).
  destruct (rounded_component u64 u32 eta32 c s L dc 0 Hu u32_small eta32_small Hs Lc IL Edc)
    as (_ & Dc & _).
  destruct (rounded_fround value fp _ da Hda ltac:(lra)) as (p & Hp & Ep).
  destruct (rounded_fround value fp _ db Hdb ltac:(lra)) as (q & Hq & Eq).
  destruct (rounded_fround value fp _ dc Hdc ltac:(lra)) as (r & Hr & Er).
  destruct (rounded_component u64 u32 eta32 a s L da p Hu u32_small eta32_small Hs La IL Eda)
    as (_ & _ & Pa').
  destruct (rounded_component u64 u32 eta32 b s L db q Hu u32_small eta32_small Hs Lb IL Edb)
    as (_ & _ & Pb').
  destruct (rounded_component u64 u32 eta32 c s L dc r Hu u32_small eta32_small Hs Lc IL Edc)
    as (_ & _ & Pc').
  unfold normalized, stored_quotient. rewrite Hlen.
  eexists _, _, _, p, q, r. split; [done|].
  split; [exact Hp|]. split; [exact Hq|]. split; [exact Hr|].
  apply (rounded_unit a b c s); [done|done|by apply Pa'|by apply Pb'|by apply Pc'].
Qed.
End RoundedNormal.

Section RoundedOverflow.
Context {num : Type} `{JsNumber num}.
Local Open Scope R_scope.

Lemma upto_square (value : num → xreal) (x : num) :
  Rounded value → stored (value x) →
  upto value (8 * (huge32 * huge32)) (x * x)%js ∧
  (∀ s, value x = Infinite s → value (x * x)%js = Infinite false).
Proof.
  intros fp Hx. destruct (value x) as [a|s|] eqn:Hv; [| |done].
  - split; [|done]. left. destruct (single_square a Hx) as (Na & Ba).
    destruct (mul_normal value x x a a fp Hv Hv Na) as (c & Hc & Ec).
    exists c. split; [done|]. pose proof (rounded_below _ _ _ Ba Ec). lra.
  - assert (value (x * x)%js = Infinite false) as Hsq.
    { rewrite (rounded_mul_infinite value fp x x s s Hv Hv). by destruct s. }
    split; [by right|done].
Qed.

Lemma upto_add (value : num → xreal) (p q : num) (P Q : R) :
  Rounded value → upto value P p → upto value Q q → P + Q <= huge64 →
  upto value (2 * (P + Q)) (p + q)%js ∧
  (value p = Infinite false ∨ value q = Infinite false →
   value (p + q)%js = Infinite false).
Proof.
  intros fp [(a & Hp & Ba)|Hp] [(b & Hq & Bb)|Hq] Hhuge.
  - split; [|intros [?|?]; congruence]. left.
    destruct (rounded_add value fp p q a b Hp Hq) as (c & Hc & Ec).
    { apply Rabs_le. lra. }
    exists c. split; [done|]. pose proof (rounded_below (a + b) c (P + Q) ltac:(lra) Ec). lra.
  - assert (value (p + q)%js = Infinite false) as Hs.
    { apply (rounded_add_infinite value fp). right. split; [done|]. by exists a. }
    split; [by right|done].
  - assert (value (p + q)%js = Infinite false) as Hs.
    { apply (rounded_add_infinite value fp). left. split; [done|]. right. by exists b. }
    split; [by right|done].
  - assert (value (p + q)%js = Infinite false) as Hs.
    { apply (rounded_add_infinite value fp). left. split; [done|]. by left. }
    split; [by right|done].
Qed.

(** With an infinity among three stored numbers, the computed length is
    plus infinity, and the quotient of every infinite one is NaN. *)
Lemma normalized_infinite (value : num → xreal) (x y z : num) :
  Rounded value → stored (value x) → stored (value y) → stored (value z) →
  ∃ nx ny nz, normalized (x, y, z) = (nx, ny, nz) ∧
    (∀ s, value x = Infinite s → value nx = NotANumber) ∧
    (∀ s, value y = Infinite s → value ny = NotANumber) ∧
    (∀ s, value z = Infinite s → value nz = NotANumber).
Proof.
  intros fp Sx Sy Sz. pose proof binary_ranges as (_ & _ & Hhh & _ & Hh & _).
  assert (0 <= huge32 * huge32) as Hh2 by nra.
  destruct (upto_square value x fp Sx) as (Ux & Ix).
  destruct (upto_square value y fp Sy) as (Uy & Iy).
  destruct (upto_square value z fp Sz) as (Uz & Iz).
  destruct (upto_add value _ _ _ _ fp Ux Uy ltac:(lra)) as (Uxy & Ixy).
  destruct (upto_add value _ _ _ _ fp Uxy Uz ltac:(lra)) as (_ & Ixyz).
  assert ((∃ s, value x = Infinite s) ∨ (∃ s, value y = Infinite s)
          ∨ (∃ s, value z = Infinite s) →
          value (vlength (x, y, z)) = Infinite false) as Hlen.
  { intros Hinf. unfold vlength. apply (rounded_sqrt_infinite value fp).
    apply Ixyz. destruct Hinf as [[s Hs]|[[s Hs]|[s Hs]]].
    - left. apply Ixy. left. by apply (Ix s).
    - left. apply Ixy. right. by apply (Iy s).
    - right. by apply (Iz s). }
  unfold normalized, stored_quotient. eexists _, _, _. split; [done|].
  repeat split; intros s Hs; apply (rounded_fround_nan value fp);
    apply (rounded_div_infinite value fp _ _ s false Hs); apply Hlen; eauto.
Qed.
End RoundedOverflow.

(** ** Exact arithmetic is a rounded arithmetic *)

(** Exact arithmetic rounds nothing. *)
Lemma xreal_rounded : Rounded (λ x : xreal, x).
Proof.
  pose proof u64_small as Hu.
  assert (∀ r : R, Rabs (r - r) <= u64 * Rabs r)%R as Hexact.
  { intros r. rewrite Rminus_diag, Rabs_R0. apply Rmult_le_pos; [lra|apply Rabs_pos]. }
  assert (0 <= eta64)%R as He by (unfold eta64; lra).
  assert (∀ r : R, rounds r r) as Hrounds.
  { intros r. pose proof (Hexact r). split; [lra|done]. }
  split.
  - done.
  - intros x y a b -> -> _. exists (a + b)%R. done.
  - intros x y a b -> -> _. exists (a - b)%R. done.
  - intros x y a b -> -> _. exists (a * b)%R. done.
  - intros x y a b -> -> Hb _. exists (a / b)%R. split; [|done].
    by apply x_div_finite.
  - intros x y -> ->. apply x_div_zero_zero.
  - intros x a -> Ha. exists (sqrt a). split; [|done]. by apply x_sqrt_finite.
  - intros x a -> _. exists a. split; [done|].
    rewrite Rminus_diag, Rabs_R0. pose proof u32_small. pose proof eta32_small.
    pose proof (Rabs_pos a). nra.
  - done.
  - by intros x y s t -> ->.
  - intros x y [[-> [->|[b ->]]]|[-> [a ->]]]; done.
  - by intros x ->.
  - by intros x y s t -> ->.
Qed.

Lemma xreal_trigonometry : Trigonometry (λ x : xreal, x).
Proof.
  assert (0 <= trig_accuracy)%R as Hd by (unfold trig_accuracy; lra).
  split.
  - exists PI. split; [done|]. rewrite Rminus_diag, Rabs_R0.
    pose proof u64_small. pose proof PI_RGT_0. nra.
  - intros x t ->. exists (cos t). split; [done|]. by rewrite Rminus_diag, Rabs_R0.
  - intros x t ->. exists (sin t). split; [done|]. by rewrite Rminus_diag, Rabs_R0.
Qed.

(** Each case of the division occurs: a vector of single-precision numbers,
    and a vector with a coordinate that has overflowed. *)
Example normalized_3_0_4 :
  ∃ nx ny nz p q r,
    normalized (Finite 3, Finite 0, Finite 4) = (nx, ny, nz) ∧
    nx = Finite p ∧ ny = Finite q ∧ nz = Finite r ∧
    (Rabs (sqrt (p * p + q * q + r * r) - 1) <= / 10 ^ 6)%R.
Proof.
  assert (∀ r : R, 1 <= r <= 4 → single r)%R as Hsingle.
  { intros r Hr. right. rewrite Rabs_pos_eq by lra. unfold tiny32, huge32. lra. }
  apply (normalized_unit (λ x : xreal, x) _ _ _ 3 0 4 xreal_rounded);
    [done|done|done|apply Hsingle; lra|by left|apply Hsingle; lra|lra].
Qed.

Example normalized_overflowed :
  ∃ nx ny nz,
    normalized (Infinite false, Finite 1, Finite 0) = (nx, ny, nz) ∧ nx = NotANumber.
Proof.
  destruct (normalized_infinite (λ x : xreal, x) (Infinite false) (Finite 1) (Finite 0)
              xreal_rounded) as (nx & ny & nz & E & Hx & _).
  - done.
  - right. rewrite Rabs_pos_eq by lra. unfold tiny32, huge32. lra.
  - by left.
  - exists nx, ny, nz. split; [done|]. by apply (Hx false).
Qed.

(** ** The facet-weighted normals in rounded arithmetic *)

Section RoundedFacets.
Context {num : Type} `{JsNumber num}.
Import Surface.

(** C5, as the code has it. The final division has no guard: the normal of
    every vertex is its accumulated vector divided by the length computed
    for it, each quotient stored in single precision. In rounded arithmetic
    an accumulated vector of zeros gives [(NaN, NaN, NaN)]; an accumulated
    vector of single-precision numbers that are not all zero gives a normal
    whose length is one to a millionth; and when a coordinate has overflowed
    to an infinity, the normal has NaN at that coordinate. *)
Theorem facet_normals_unit_or_nan (value : num → xreal) (m : Model num) (k : nat) :
  Rounded value →
  1 ≤ segmentsCountU m → 1 ≤ segmentsCountV m →
  Z.of_nat k < (segmentsCountU m + 1) * (segmentsCountV m + 1) →
  let vertices := getVertices m in
  let indices := getIndices m in
  ∃ x y z nx ny nz : num,
    vertexAt (accumulateFacets vertices indices (Float32Array_zeros (length vertices))) k
      = Some (x, y, z) ∧
    vertexAt (getFacetWeightedNormals vertices indices) k = Some (nx, ny, nz) ∧
    (nx, ny, nz) = stored_quotient (x, y, z) (vlength (x, y, z)) ∧
    (value x = Finite 0 → value y = Finite 0 → value z = Finite 0 →
     value nx = NotANumber ∧ value ny = NotANumber ∧ value nz = NotANumber) ∧
    (∀ a b c : R,
       value x = Finite a → value y = Finite b → value z = Finite c →
       single a → single b → single c → (a * a + b * b + c * c)%R ≠ 0%R →
       ∃ p q r : R,
         value nx = Finite p ∧ value ny = Finite q ∧ value nz = Finite r ∧
         (Rabs (sqrt (p * p + q * q + r * r) - 1) <= / 10 ^ 6)%R) ∧
    (stored (value x) → stored (value y) → stored (value z) →
     (∀ s, value x = Infinite s → value nx = NotANumber) ∧
     (∀ s, value y = Infinite s → value ny = NotANumber) ∧
     (∀ s, value z = Infinite s → value nz = NotANumber)).
Proof.
  intros fp HU HV Hk vertices indices. unfold vertices, indices.
  rewrite getVertices_grid, getIndices_facets.
  set (vs := grid _ _ _). set (ts := cells _ _ _).
  rewrite Float32Array_zeros_flat3, accumulateFacets_foldl.
  rewrite getFacetWeightedNormals_strategy, !vertexAt_flat3.
  unfold faceWeightedNormals. rewrite list_lookup_fmap.
  change (foldl (addFacet vs) (replicate (length vs) vzero) ts) with (accumulated vs ts).
  destruct (lookup_lt_is_Some_2 (accumulated vs ts) k) as [[[x y] z] Hxyz].
  { rewrite accumulated_length. unfold vs. rewrite grid_length. nia. }
  rewrite Hxyz. cbn [fmap option_fmap option_map].
  destruct (normalized (x, y, z)) as [[nx ny] nz] eqn:Hn.
  exists x, y, z, nx, ny, nz. split; [done|]. split; [done|]. split; [done|].
  split; [|split].
  - intros Hx Hy Hz.
    destruct (normalized_zero value x y z fp Hx Hy Hz) as (nx' & ny' & nz' & E & HR).
    rewrite Hn in E. by injection E as <- <- <-.
  - intros a b c Hx Hy Hz Sa Sb Sc Hne.
    destruct (normalized_unit value x y z a b c fp Hx Hy Hz Sa Sb Sc Hne)
      as (nx' & ny' & nz' & p & q & r & E & HR).
    rewrite Hn in E. injection E as <- <- <-. by exists p, q, r.
  - intros Sx Sy Sz.
    destruct (normalized_infinite value x y z fp Sx Sy Sz) as (nx' & ny' & nz' & E & HR).
    rewrite Hn in E. by injection E as <- <- <-.
Qed.
End RoundedFacets.

Lemma facet_normals_unit_or_nan_witness :
  let m := Surface.mkModel (Finite 10) (Finite 2) (Finite 5) 4 3 0%nat 1%nat 2%nat in
  Rounded (λ x : xreal, x) ∧
  1 ≤ Surface.segmentsCountU m ∧ 1 ≤ Surface.segmentsCountV m ∧
  Z.of_nat 7 < (Surface.segmentsCountU m + 1) * (Surface.segmentsCountV m + 1) ∧
  ∃ x y z : xreal,
    vertexAt (Surface.accumulateFacets (Surface.getVertices m) (Surface.getIndices m)
                (Float32Array_zeros (length (Surface.getVertices m)))) 7 = Some (x, y, z) ∧
    vertexAt (Surface.getFacetWeightedNormals (Surface.getVertices m) (Surface.getIndices m)) 7
      = Some (stored_quotient (x, y, z) (vlength (x, y, z))).
Proof.
  intros m. split; [exact xreal_rounded|]. do 3 (split; [simpl; lia|]).
  destruct (facet_normals_unit_or_nan (λ x : xreal, x) m 7 xreal_rounded)
    as (x & y & z & nx & ny & nz & Hacc & Hn & Hq & _); [simpl; lia..|].
  exists x, y, z. split; [exact Hacc|]. rewrite Hn. f_equal. exact Hq.
Defined.

(** ** Cosine and sine near a whole number of turns *)

Section Turns.
Local Open Scope R_scope.

Lemma sin_full_turns (k : Z) : sin (IZR k * (2 * PI)) = 0.
Proof.
  pose proof (sin2_cos2 (IZR k * (2 * PI))) as Hk.
  rewrite cos_full_turns in Hk. unfold Rsqr in Hk.
  assert (sin (IZR k * (2 * PI)) * sin (IZR k * (2 * PI)) = 0) as Hs by lra.
  apply Rmult_integral in Hs. by destruct Hs.
Qed.

Lemma cos_turns (x : R) (k : Z) : cos (x + IZR k * (2 * PI)) = cos x.
Proof. rewrite cos_plus, cos_full_turns, sin_full_turns. ring. Qed.




End Turns.

(** ** Numbers near a real *)

Section Near.
Context {num : Type} `{JsNumber num}.
Local Open Scope R_scope.






End Near.

(** ** The seam in rounded arithmetic *)

Section RoundedSeam.
Context {num : Type} `{JsNumber num}.
Local Open Scope R_scope.









End RoundedSeam.

Section RoundedSeamClaim.
Context {num : Type} `{JsNumber num}.
Import Surface.


End RoundedSeamClaim.


(** ** The wave count has to be bounded

    The seam needs a bound on the wave count: the error of [phi] in the
    last row, at most a few units in the last place of [2π], is multiplied
    by it. The arithmetic [skewed_number] satisfies the laws of rounding and
    of the trigonometric functions. *)

Lemma skewed_rounded : @Rounded xreal skewed_number (λ x : xreal, x).
Proof. destruct xreal_rounded; constructor; assumption. Qed.

Lemma skewed_trigonometry : @Trigonometry xreal skewed_number (λ x : xreal, x).
Proof.
  destruct xreal_trigonometry as [_ Hcos Hsin]. split; [|exact Hcos|exact Hsin].
  exists skewed_PI. split; [done|]. unfold skewed_PI.
  pose proof PI_RGT_0 as Hpi.
  replace (PI * (1 - / 2 ^ 54) - PI)%R with (- (PI * / 2 ^ 54))%R by ring.
  rewrite Rabs_Ropp, Rabs_pos_eq.
  - unfold u64. assert (/ 2 ^ 54 <= / 2 ^ 53)%R by lra. nra.
  - assert (0 <= / 2 ^ 54)%R by lra. nra.
Qed.

(** In that arithmetic, with radius 1, amplitude 1, a wave count of [2^53]
    and one segment each way: [n * phi] is half a turn short of a whole
    number of turns in the last row, its cosine is -1, and the two seam
    vertices of [j = 0] are two units apart. *)
Example seam_opens_for_a_large_wave_count :
  let m := Surface.mkModel (Finite 1) (Finite 1) (Finite (IZR (2 ^ 53))) 1 1
             0%nat 1%nat 2%nat in
  vertexAt (@Surface.getVertices xreal skewed_number m) 0
    = Some (Finite 2, Finite 0, Finite 0) ∧
  vertexAt (@Surface.getVertices xreal skewed_number m) 2
    = Some (Finite 0, Finite 0, Finite 0).
Proof.
  intros m.
  assert (∀ i j, 0 ≤ i ≤ 1 → 0 ≤ j ≤ 1 →
            vertexAt (@Surface.getVertices xreal skewed_number m) (Z.to_nat (i * 2 + j))
            = Some (@position xreal skewed_number (Finite 1) (Finite 1)
                      (Finite (IZR (2 ^ 53)))
                      (@sample_phi xreal skewed_number 1 i)
                      (@sample_v xreal skewed_number 1 j))) as Hget.
  { intros i j Hi Hj. rewrite (@getVertices_grid xreal skewed_number m), vertexAt_flat3.
    change (Surface.segmentsCountV m + 1) with 2.
    rewrite grid_lookup by (simpl; lia). done. }
  assert (@sample_v xreal skewed_number 1 0 = Finite 0) as Hv.
  { unfold sample_v. cbn -[x_div skewed_PI]. rewrite x_div_finite by lra.
    cbn -[skewed_PI]. f_equal. field. }
  assert (@sample_phi xreal skewed_number 1 0 = Finite 0) as Hphi0.
  { unfold sample_phi. cbn -[x_div skewed_PI]. rewrite x_div_finite by lra.
    cbn -[skewed_PI]. f_equal. field. }
  assert (@sample_phi xreal skewed_number 1 1 = Finite (2 * skewed_PI)) as Hphi1.
  { unfold sample_phi. cbn -[x_div skewed_PI]. rewrite x_div_finite by lra.
    cbn -[skewed_PI]. f_equal. field. }
  split.
  - pose proof (Hget 0 0 ltac:(lia) ltac:(lia)) as H0.
    change (Z.to_nat (0 * 2 + 0)) with 0%nat in H0. rewrite H0, Hphi0, Hv.
    unfold position. cbn. rewrite Rmult_0_r, cos_0, sin_0.
    do 2 f_equal; [f_equal|]; f_equal; ring.
  - pose proof (Hget 1 0 ltac:(lia) ltac:(lia)) as H1.
    change (Z.to_nat (1 * 2 + 0)) with 2%nat in H1. rewrite H1, Hphi1, Hv.
    unfold position. cbn -[IZR Z.pow skewed_PI]. rewrite cos_0, sin_0.
    replace (IZR (2 ^ 53) * (2 * skewed_PI))%R
      with (- PI + IZR (2 ^ 53) * (2 * PI))%R.
    2:{ unfold skewed_PI. change (2 ^ 53)%Z with 9007199254740992%Z. lra. }
    rewrite cos_turns, cos_neg, cos_PI. do 2 f_equal; [f_equal|]; f_equal; ring.
Qed.

(** ** Small cases *)

Example getIndices_one_cell :
  Surface.getIndices (Surface.mkModel (Finite 1) (Finite 0) (Finite 0) 1 1 0%nat 1%nat 2%nat)
  = [0; 2; 1; 1; 2; 3].
Proof. reflexivity. Qed.

Example getIndices_two_by_one :
  Surface.getIndices (Surface.mkModel (Finite 1) (Finite 0) (Finite 0) 2 1 0%nat 1%nat 2%nat)
  = [0; 2; 1; 1; 2; 3; 2; 4; 3; 3; 4; 5].
Proof. reflexivity. Qed.

Example getIndices_no_segments :
  Surface.getIndices (Surface.mkModel (Finite 1) (Finite 0) (Finite 0) 0 4 0%nat 1%nat 2%nat)
  = [].
Proof. reflexivity. Qed.

Example Uint16Array_from_wraps :
  Uint16Array_from [65535; 65536; 65537; 131073] = [65535; 0; 1; 1].
Proof. reflexivity. Qed.

Example getVertices_no_segments :
  Surface.getVertices
    (Surface.mkModel (Finite 1) (Finite 0) (Finite 0) 0 0 0%nat 1%nat 2%nat)
  = [NotANumber; NotANumber; NotANumber].
Proof.
  unfold Surface.getVertices, for_le, for_lt. cbn [Surface.segmentsCountU Surface.segmentsCountV].
  change (seqZ 0 (0 + 1)) with [0]. cbn -[x_div IZR].
  rewrite x_div_zero_zero. reflexivity.
Qed.

(** One triangle in the plane [z = 0]: its three corners get the normal
    [(0, 0, 1)]. *)
Example getFacetWeightedNormals_one_triangle :
  Surface.getFacetWeightedNormals
    [Finite 0; Finite 0; Finite 0; Finite 1; Finite 0; Finite 0; Finite 0; Finite 1; Finite 0]
    [0; 1; 2]
  = [Finite 0; Finite 0; Finite 1; Finite 0; Finite 0; Finite 1; Finite 0; Finite 0; Finite 1].
Proof.
  change [Finite 0; Finite 0; Finite 0; Finite 1; Finite 0; Finite 0; Finite 0; Finite 1; Finite 0]
    with (flat3 (finite3 <$> [(0, 0, 0); (1, 0, 0); (0, 1, 0)]%R)).
  change [0; 1; 2] with (flatTriangles [(0, 1, 2)]).
  rewrite getFacetWeightedNormals_strategy. unfold faceWeightedNormals.
  rewrite accumulated_finite by (repeat constructor; simpl; lia).
  cbn [length replicate foldl addFacetR vertexOfR addAtR lookup list_lookup Z.to_nat
       Pos.to_nat Pos.iter_op Nat.add default from_option id weightR alter list_alter
       fmap list_fmap].
  assert (weightR (vertexOfR [(0, 0, 0); (1, 0, 0); (0, 1, 0)]%R 0)
            (vertexOfR [(0, 0, 0); (1, 0, 0); (0, 1, 0)]%R 1)
            (vertexOfR [(0, 0, 0); (1, 0, 0); (0, 1, 0)]%R 2) = (0, 0, 1)%R) as ->.
  { unfold vertexOfR, weightR. simpl.
    match goal with |- context [sqrt ?e] => replace e with 1%R by lra end.
    rewrite sqrt_1. f_equal; [f_equal|]; lra. }
  unfold addAtR.
  change (Z.to_nat 0) with 0%nat. change (Z.to_nat 1) with 1%nat.
  change (Z.to_nat 2) with 2%nat.
  cbn [alter list_alter fmap list_fmap].
  rewrite !normalized_finite_explicit by lra.
  match goal with |- context [sqrt ?e] => replace e with 1%R by lra end.
  rewrite sqrt_1. unfold flat3. simpl. repeat f_equal; lra.
Qed.

(** * Further properties of the models *)

(** ** The triangles of the index list *)

Section IndexList.
Context {num : Type} `{JsNumber num}.
Import Surface.

Lemma cell_corner_in (m : Model num) (i j : Z) (t : nat) (k : Z) :
  0 ≤ i < segmentsCountU m → 0 ≤ j < segmentsCountV m →
  cellTriangles (segmentsCountV m) i j !! t = Some k → k ∈ getIndices m.
Proof.
  intros Hi Hj Ht. apply list_elem_of_lookup.
  exists (6 * Z.to_nat (i * segmentsCountV m + j) + t)%nat.
  rewrite getIndices_cells, (cells_lookup 6); [done|done|done|done|].
  by apply lookup_lt_Some in Ht.
Qed.

(** With at least one segment each way, every vertex is a corner of some
    triangle: no index below the vertex count is missing from the index
    list. *)
Theorem getIndices_covers_vertices (m : Model num) (k : Z) :
  1 ≤ segmentsCountU m → 1 ≤ segmentsCountV m →
  0 ≤ k < (segmentsCountU m + 1) * (segmentsCountV m + 1) →
  k ∈ getIndices m.
Proof.
  intros HU HV Hk.
  set (i := k `div` (segmentsCountV m + 1)). set (j := k `mod` (segmentsCountV m + 1)).
  assert (k = (segmentsCountV m + 1) * i + j) as Hdiv by (apply Z.div_mod; lia).
  assert (0 ≤ j < segmentsCountV m + 1) as Hj by (apply Z.mod_pos_bound; lia).
  assert (0 ≤ i) as Hi0 by (apply Z.div_pos; lia).
  assert (i ≤ segmentsCountU m) as Hi1 by nia.
  clearbody i j.
  destruct (decide (i < segmentsCountU m)) as [Hi|Hi],
    (decide (j < segmentsCountV m)) as [Hjlt|Hjlt].
  - apply (cell_corner_in m i j 0); [lia|lia|]. unfold cellTriangles. simpl. f_equal. lia.
  - apply (cell_corner_in m i (j - 1) 2); [lia|lia|]. unfold cellTriangles. simpl. f_equal. lia.
  - apply (cell_corner_in m (i - 1) j 1); [lia|lia|]. unfold cellTriangles. simpl. f_equal. lia.
  - apply (cell_corner_in m (i - 1) (j - 1) 5); [lia|lia|]. unfold cellTriangles. simpl.
    f_equal. lia.
Qed.
End IndexList.

Lemma getIndices_covers_vertices_witness :
  let m := Surface.mkModel (Finite 10) (Finite 2) (Finite 5) 4 3 0%nat 1%nat 2%nat in
  1 ≤ Surface.segmentsCountU m ∧ 1 ≤ Surface.segmentsCountV m ∧
  0 ≤ 19 < (Surface.segmentsCountU m + 1) * (Surface.segmentsCountV m + 1) ∧
  19 ∈ Surface.getIndices m.
Proof.
  intros m. split; [simpl; lia|]. split; [simpl; lia|]. split; [simpl; lia|].
  apply (getIndices_covers_vertices m 19); simpl; lia.
Defined.

Section ProperTriangles.
Context {num : Type} `{JsNumber num}.
Import Surface.

(** The index list is a list of whole triangles, two per cell, and no
    triangle names a vertex twice. *)
Theorem getIndices_proper_triangles (m : Model num) :
  let triangles :=
    cells (segmentsCountU m) (segmentsCountV m) (cellFacets (segmentsCountV m)) in
  getIndices m = flatTriangles triangles ∧
  length triangles = (Z.to_nat (segmentsCountU m) * Z.to_nat (segmentsCountV m) * 2)%nat ∧
  Forall (λ '(i1, i2, i3), i1 ≠ i2 ∧ i1 ≠ i3 ∧ i2 ≠ i3) triangles.
Proof.
  intros triangles. split; [apply getIndices_facets|]. split.
  - unfold triangles. by rewrite (cells_length 2).
  - apply cells_Forall. intros i j Hi Hj. unfold cellFacets.
    repeat (apply Forall_cons; split; [lia|]). apply Forall_nil_2.
Qed.
End ProperTriangles.

(** ** The length of the normal arrays *)

Section NormalLengths.
Context {num : Type} `{JsNumber num}.
Import Surface.

Lemma for_lt_by3_invariant {S : Type} (P : S → Prop) (bound : Z) (body : Z → S → S) (s : S) :
  (∀ i s, P s → P (body i s)) → P s → P (for_lt_by3 bound body s).
Proof.
  intros Hbody. unfold for_lt_by3. generalize (seqZ 0 ((bound + 2) `div` 3)) as l.
  intros l. revert s. induction l as [|t l IH]; intros s Hs; [done|].
  simpl. apply IH. by apply Hbody.
Qed.

Lemma update_length (f : num → num) (arr : list num) (idx : option Z) :
  length (update f arr idx) = length arr.
Proof.
  unfold update. destruct idx as [k|]; [|done].
  case_decide; [apply length_alter|done].
Qed.

Lemma accumulateFacet_length (vertices : list num) (indices : list Z) (i : Z)
    (normals : list num) :
  length (accumulateFacet vertices indices i normals) = length normals.
Proof. unfold accumulateFacet, add_assign. by rewrite !update_length. Qed.

Lemma normalizeAt_length (i : Z) (normals : list num) :
  length (normalizeAt i normals) = length normals.
Proof. unfold normalizeAt, div_assign. by rewrite !update_length. Qed.

Lemma getFacetWeightedNormals_length (vertices : list num) (indices : list Z) :
  length (getFacetWeightedNormals vertices indices) = length vertices.
Proof.
  unfold getFacetWeightedNormals, normalizeInPlace, accumulateFacets.
  set (zeros := Float32Array_zeros (length vertices)).
  assert (length zeros = length vertices) as Hz by apply length_replicate.
  apply (for_lt_by3_invariant (λ s, length s = length vertices)).
  { intros i s Hs. by rewrite normalizeAt_length. }
  apply (for_lt_by3_invariant (λ s, length s = length vertices)); [|done].
  intros i s Hs. by rewrite accumulateFacet_length.
Qed.

Lemma getNormals_length (m : Model num) :
  length (getNormals m) = length (getVertices m).
Proof. by rewrite getNormals_grid, getVertices_grid, !flat3_length, !grid_length. Qed.

(** Whatever the two arrays hold, [getFacetWeightedNormals] returns as many
    numbers as the vertex array has: index lists that are not whole
    triangles or that name vertices that do not exist change no length. And
    [getNormals] returns as many numbers as [getVertices]. *)
Theorem normal_arrays_length (m : Model num) (vertices : list num) (indices : list Z) :
  length (getFacetWeightedNormals vertices indices) = length vertices ∧
  length (getNormals m) = length (getVertices m).
Proof. split; [apply getFacetWeightedNormals_length|apply getNormals_length]. Qed.
End NormalLengths.

(** ** Vertices that no triangle touches *)

Section Untouched.
Context {num : Type} `{JsNumber num}.

Lemma addAt_lookup_ne (acc : list (vec3 num)) (i : Z) (w : vec3 num) (k : nat) :
  i ≠ Z.of_nat k → addAt acc i w !! k = acc !! k.
Proof.
  intros Hne. unfold addAt. case_decide; [|done].
  apply list_lookup_alter_ne. lia.
Qed.

(** The accumulator of a vertex that is no corner of any triangle is never
    written. *)
Lemma foldl_addFacet_untouched (vs acc : list (vec3 num)) (ts : list (Z * Z * Z)) (k : nat) :
  Forall (λ '(i1, i2, i3), i1 ≠ Z.of_nat k ∧ i2 ≠ Z.of_nat k ∧ i3 ≠ Z.of_nat k) ts →
  foldl (addFacet vs) acc ts !! k = acc !! k.
Proof.
  revert acc. induction ts as [|[[i1 i2] i3] ts IH]; intros acc Hts; [done|].
  apply Forall_cons in Hts as [(H1 & H2 & H3) Hts]. simpl.
  rewrite IH by done. unfold addFacet. by rewrite !addAt_lookup_ne.
Qed.
End Untouched.

Section UntouchedExact.
Import Surface.

Lemma normalized_vzero : normalized (@vzero xreal _) = vnan.
Proof. apply (normalized_finite 0 0 0). lra. Qed.

(** In exact arithmetic, a vertex that is no corner of any triangle gets the
    normal [(NaN, NaN, NaN)]: its accumulated vector is still zero when it is
    divided by its length. *)
Theorem untouched_vertex_normal_is_nan (vs : list (vec3 xreal)) (ts : list (Z * Z * Z))
    (k : nat) :
  (k < length vs)%nat →
  Forall (λ '(i1, i2, i3), i1 ≠ Z.of_nat k ∧ i2 ≠ Z.of_nat k ∧ i3 ≠ Z.of_nat k) ts →
  vertexAt (getFacetWeightedNormals (flat3 vs) (flatTriangles ts)) k
  = Some (NotANumber, NotANumber, NotANumber).
Proof.
  intros Hk Hts.
  rewrite getFacetWeightedNormals_strategy, vertexAt_flat3.
  unfold faceWeightedNormals, accumulated.
  rewrite list_lookup_fmap, foldl_addFacet_untouched by done.
  rewrite lookup_replicate_2 by done. cbn [fmap option_fmap option_map].
  by rewrite normalized_vzero.
Qed.

(** With no triangle at all every normal is [(NaN, NaN, NaN)]; this is what
    a model with a segment count below one gets, whose index list is
    empty. *)
Theorem no_triangles_all_normals_nan (vs : list (vec3 xreal)) (m : Model xreal) :
  getFacetWeightedNormals (flat3 vs) [] = replicate (3 * length vs) NotANumber ∧
  (segmentsCountU m < 1 ∨ segmentsCountV m < 1 →
   getFacetWeightedNormals (getVertices m) (getIndices m)
   = replicate (length (getVertices m)) NotANumber).
Proof.
  assert (∀ ws : list (vec3 xreal),
            getFacetWeightedNormals (flat3 ws) [] = replicate (3 * length ws) NotANumber)
    as Hempty.
  { intros ws. change (@nil Z) with (flatTriangles []).
    rewrite getFacetWeightedNormals_strategy. unfold faceWeightedNormals, accumulated.
    simpl foldl. rewrite fmap_replicate, normalized_vzero.
    induction (length ws) as [|k IH]; [done|].
    replace (3 * S k)%nat with (S (S (S (3 * k)))) by lia.
    rewrite !replicate_S, flat3_cons, IH. done. }
  split; [apply Hempty|].
  intros Hdeg. rewrite (getIndices_degenerate m Hdeg), getVertices_grid, Hempty.
  by rewrite flat3_length.
Qed.
End UntouchedExact.

Lemma untouched_vertex_normal_is_nan_witness :
  (3 < length [(Finite 0, Finite 0, Finite 0); (Finite 1, Finite 0, Finite 0);
               (Finite 0, Finite 1, Finite 0); (Finite 5, Finite 5, Finite 5)])%nat ∧
  Forall (λ '(i1, i2, i3), i1 ≠ Z.of_nat 3 ∧ i2 ≠ Z.of_nat 3 ∧ i3 ≠ Z.of_nat 3) [(0, 1, 2)] ∧
  vertexAt
    (Surface.getFacetWeightedNormals
       (flat3 [(Finite 0, Finite 0, Finite 0); (Finite 1, Finite 0, Finite 0);
               (Finite 0, Finite 1, Finite 0); (Finite 5, Finite 5, Finite 5)])
       (flatTriangles [(0, 1, 2)])) 3
  = Some (NotANumber, NotANumber, NotANumber).
Proof.
  assert (Forall (λ '(i1, i2, i3), i1 ≠ Z.of_nat 3 ∧ i2 ≠ Z.of_nat 3 ∧ i3 ≠ Z.of_nat 3)
            [(0, 1, 2)]) as Hts.
  { apply Forall_cons. split; [simpl; lia|apply Forall_nil_2]. }
  split; [simpl; lia|]. split; [exact Hts|].
  apply untouched_vertex_normal_is_nan; [simpl; lia|exact Hts].
Defined.

(** ** The shape of the vertex grid, in exact arithmetic *)

Section Shape.
Import Surface.
Local Open Scope R_scope.

Lemma sample_v_range (segmentsV j : Z) :
  (1 ≤ segmentsV)%Z → (0 ≤ j ≤ segmentsV)%Z →
  0 <= IZR j / IZR segmentsV * PI <= PI.
Proof.
  intros HV Hj. pose proof PI_RGT_0 as Hpi.
  assert (0 < IZR segmentsV) as Hs by (apply IZR_lt; lia).
  assert (0 <= IZR j) as Hj0 by (apply IZR_le; lia).
  assert (IZR j <= IZR segmentsV) as Hj1 by (apply IZR_le; lia).
  assert (0 <= IZR j / IZR segmentsV <= 1) as [Hq0 Hq1].
  { split.
    - apply Rmult_le_pos; [done|]. left. by apply Rinv_0_lt_compat.
    - apply (Rmult_le_reg_r (IZR segmentsV)); [done|]. field_simplify; lra. }
  split; nra.
Qed.

(** With a radius that is not negative, no vertex lies below the plane
    [z = 0]: the parameter [v] runs from 0 to pi and [z = radius * sin v], so
    the grid covers the upper half space only, whatever the amplitude and the
    wave count. *)
Theorem vertices_never_below_equator (m : Model xreal) (r : R) (i j : Z) :
  radius m = Finite r → 0 <= r →
  (1 ≤ segmentsCountU m)%Z → (1 ≤ segmentsCountV m)%Z →
  (0 ≤ i ≤ segmentsCountU m)%Z → (0 ≤ j ≤ segmentsCountV m)%Z →
  ∃ (x y : xreal) (z : R),
    vertexAt (getVertices m) (Z.to_nat (i * (segmentsCountV m + 1) + j))
      = Some (x, y, Finite z) ∧
    z = r * sin (IZR j / IZR (segmentsCountV m) * PI) ∧
    0 <= z <= r.
Proof.
  intros Hr Hr0 HU HV Hi Hj.
  rewrite getVertices_grid, vertexAt_flat3, grid_lookup by lia.
  rewrite Hr, sample_v_finite by done. unfold position.
  eexists _, _, _. split; [reflexivity|]. split; [done|].
  destruct (sample_v_range (segmentsCountV m) j HV Hj) as [Hv0 Hv1].
  pose proof (sin_ge_0 _ Hv0 Hv1). pose proof (SIN_bound (IZR j / IZR (segmentsCountV m) * PI)).
  nra.
Qed.

(** With amplitude 0 the surface is the sphere: every vertex is the radius
    times the normal that [getNormals] gives for it, and its distance from
    the origin is the absolute value of the radius. *)
Theorem sphere_when_amplitude_is_zero (m : Model xreal) (r w : R) (i j : Z) :
  radius m = Finite r → a m = Finite 0 → n m = Finite w →
  (1 ≤ segmentsCountU m)%Z → (1 ≤ segmentsCountV m)%Z →
  (0 ≤ i ≤ segmentsCountU m)%Z → (0 ≤ j ≤ segmentsCountV m)%Z →
  let k := Z.to_nat (i * (segmentsCountV m + 1) + j) in
  ∃ nx ny nz : R,
    vertexAt (getNormals m) k = Some (Finite nx, Finite ny, Finite nz) ∧
    vertexAt (getVertices m) k = Some (Finite (r * nx), Finite (r * ny), Finite (r * nz)) ∧
    vlength (Finite (r * nx), Finite (r * ny), Finite (r * nz)) = Finite (Rabs r).
Proof.
  intros Hr Ha Hn HU HV Hi Hj k. unfold k.
  rewrite getNormals_grid, (getVertices_finite m r 0 w) by done.
  rewrite !vertexAt_flat3, list_lookup_fmap, !grid_lookup by lia.
  rewrite sample_phi_finite, sample_v_finite by done.
  eexists _, _, _. split; [reflexivity|].
  set (phi := IZR i / IZR (segmentsCountU m) * 2 * PI).
  set (v := IZR j / IZR (segmentsCountV m) * PI).
  split.
  - cbn [fmap option_fmap option_map]. unfold positionR, finite3. fold phi v.
    f_equal. f_equal. f_equal; f_equal; ring.
  - rewrite vlength_finite. f_equal.
    replace (r * (cos v * cos phi) * (r * (cos v * cos phi))
             + r * (cos v * sin phi) * (r * (cos v * sin phi))
             + r * sin v * (r * sin v))
      with (Rsqr r * ((cos v * cos phi) * (cos v * cos phi)
                      + (cos v * sin phi) * (cos v * sin phi) + sin v * sin v))
      by (unfold Rsqr; ring).
    rewrite analytic_unit, Rmult_1_r. apply sqrt_Rsqr_abs.
Qed.

Lemma x_mul_nan_r (x : xreal) : x_mul x NotANumber = NotANumber.
Proof. by destruct x. Qed.

(** With [segmentsU = 0] the only row of the grid has [phi = 0/0]: the [x]
    and [y] of each of its vertices are NaN, whatever the parameters, while
    [z], which does not depend on [phi], is still [radius * sin v]. *)
Theorem zero_segmentsU_vertices (m : Model xreal) (r : R) (j : Z) :
  segmentsCountU m = 0%Z → radius m = Finite r →
  (1 ≤ segmentsCountV m)%Z → (0 ≤ j ≤ segmentsCountV m)%Z →
  length (getVertices m) = (3 * Z.to_nat (segmentsCountV m + 1))%nat ∧
  vertexAt (getVertices m) (Z.to_nat j)
  = Some (NotANumber, NotANumber, Finite (r * sin (IZR j / IZR (segmentsCountV m) * PI))).
Proof.
  intros HU Hr HV Hj. split.
  { rewrite getVertices_length, HU. simpl. lia. }
  replace j with (0 * (segmentsCountV m + 1) + j)%Z at 1 by lia.
  rewrite getVertices_grid, vertexAt_flat3, grid_lookup by lia.
  rewrite HU, Hr, sample_v_finite by done.
  assert (sample_phi 0 0 = NotANumber) as ->.
  { unfold sample_phi. cbn -[x_div IZR]. by rewrite x_div_zero_zero. }
  unfold position. cbn [Math_cos Math_sin js_mul js_add js_sub of_Z xreal_number x_cos x_sin].
  rewrite !x_mul_nan_r. change (x_cos NotANumber) with NotANumber.
  change (x_sin NotANumber) with NotANumber. done.
Qed.
End Shape.

Lemma vertices_never_below_equator_witness :
  let m := Surface.mkModel (Finite 10) (Finite 2) (Finite 5) 4 3 0%nat 1%nat 2%nat in
  Surface.radius m = Finite 10 ∧ (0 <= 10)%R ∧
  1 ≤ Surface.segmentsCountU m ∧ 1 ≤ Surface.segmentsCountV m ∧
  0 ≤ 1 ≤ Surface.segmentsCountU m ∧ 0 ≤ 2 ≤ Surface.segmentsCountV m ∧
  ∃ (x y : xreal) (z : R),
    vertexAt (Surface.getVertices m) (Z.to_nat (1 * (3 + 1) + 2)) = Some (x, y, Finite z) ∧
    (0 <= z <= 10)%R.
Proof.
  intros m. split; [reflexivity|]. split; [lra|]. do 4 (split; [simpl; lia|]).
  destruct (vertices_never_below_equator m 10 1 2) as (x & y & z & Hv & _ & Hz);
    [reflexivity|lra|simpl; lia..|].
  exists x, y, z. split; [exact Hv|exact Hz].
Defined.

Lemma sphere_when_amplitude_is_zero_witness :
  let m := Surface.mkModel (Finite 10) (Finite 0) (Finite 5) 4 3 0%nat 1%nat 2%nat in
  Surface.radius m = Finite 10 ∧ Surface.a m = Finite 0 ∧ Surface.n m = Finite 5 ∧
  1 ≤ Surface.segmentsCountU m ∧ 1 ≤ Surface.segmentsCountV m ∧
  0 ≤ 1 ≤ Surface.segmentsCountU m ∧ 0 ≤ 2 ≤ Surface.segmentsCountV m ∧
  ∃ nx ny nz : R,
    vertexAt (Surface.getVertices m) (Z.to_nat (1 * (3 + 1) + 2))
      = Some (Finite (10 * nx), Finite (10 * ny), Finite (10 * nz)) ∧
    vlength (Finite (10 * nx), Finite (10 * ny), Finite (10 * nz)) = Finite (Rabs 10).
Proof.
  intros m. do 3 (split; [reflexivity|]). do 4 (split; [simpl; lia|]).
  destruct (sphere_when_amplitude_is_zero m 10 5 1 2) as (nx & ny & nz & _ & Hv & Hd);
    [reflexivity|reflexivity|reflexivity|simpl; lia..|].
  exists nx, ny, nz. split; [exact Hv|exact Hd].
Defined.

Lemma zero_segmentsU_vertices_witness :
  let m := Surface.mkModel (Finite 10) (Finite 2) (Finite 5) 0 3 0%nat 1%nat 2%nat in
  Surface.segmentsCountU m = 0 ∧ Surface.radius m = Finite 10 ∧
  1 ≤ Surface.segmentsCountV m ∧ 0 ≤ 2 ≤ Surface.segmentsCountV m ∧
  vertexAt (Surface.getVertices m) (Z.to_nat 2)
  = Some (NotANumber, NotANumber, Finite (10 * sin (IZR 2 / IZR 3 * PI))).
Proof.
  intros m. do 2 (split; [reflexivity|]). do 2 (split; [simpl; lia|]).
  destruct (zero_segmentsU_vertices m 10 2) as (_ & Hv);
    [reflexivity|reflexivity|simpl; lia..|].
  exact Hv.
Defined.

(** ** The two buffers of the wireframe and what is drawn from them *)

Section WireframeBuffers.
Context {num : Type} `{JsNumber num}.
Import Wireframe.

Lemma createUVertices_grid (m : Model num) :
  createUVertices m
  = flat3 (grid (segmentsU m + 1) (segmentsV m + 1) (λ i j,
      position (radius m) (corrugation m) (n m)
        (sample_phi (segmentsU m) i) (sample_v (segmentsV m) j))).
Proof. exact (createUVertices_curves m). Qed.

Lemma createVVertices_grid (m : Model num) :
  createVVertices m
  = flat3 (grid (segmentsV m + 1) (segmentsU m + 1) (λ j i,
      position (radius m) (corrugation m) (n m)
        (sample_phi (segmentsU m) i) (sample_v (segmentsV m) j))).
Proof. exact (createVVertices_curves m). Qed.

(** The V-buffer holds the points of the U-buffer, transposed: the point
    [i] of the V-curve [j] is the point [j] of the U-curve [i]. *)
Theorem V_buffer_is_U_buffer_transposed (m : Model num) (i j : Z) :
  0 ≤ i ≤ segmentsU m → 0 ≤ j ≤ segmentsV m →
  vertexAt (createVVertices m) (Z.to_nat (j * (segmentsU m + 1) + i))
  = vertexAt (createUVertices m) (Z.to_nat (i * (segmentsV m + 1) + j)) ∧
  is_Some (vertexAt (createUVertices m) (Z.to_nat (i * (segmentsV m + 1) + j))).
Proof.
  intros Hi Hj. rewrite createUVertices_grid, createVVertices_grid, !vertexAt_flat3.
  rewrite !grid_lookup by lia. split; [done|by eexists].
Qed.

Lemma draw_store (iAttribVertex : Z) (m : Model num) (gl : WebGL num) :
  store (draw iAttribVertex m gl) = store gl.
Proof. unfold draw. rewrite !for_lt_drawArrays. done. Qed.

Lemma draw_created (iAttribVertex : Z) (m : Model num) (gl : WebGL num) :
  created (draw iAttribVertex m gl) = created gl.
Proof. unfold draw. rewrite !for_lt_drawArrays. done. Qed.

Lemma strip_fmap (f : num → num) (buffer : list num) (first count : Z) :
  strip (f <$> buffer) first count = f <$> strip buffer first count.
Proof. unfold strip. by rewrite fmap_take, fmap_drop. Qed.
End WireframeBuffers.

Lemma V_buffer_is_U_buffer_transposed_witness :
  let m := (Wireframe.new_Model emptyGL (Finite 10) (Finite 2) (Finite 5) 3).1 in
  0 ≤ 1 ≤ Wireframe.segmentsU m ∧ 0 ≤ 2 ≤ Wireframe.segmentsV m ∧
  vertexAt (Wireframe.createVVertices m) (Z.to_nat (2 * (3 + 1) + 1))
  = vertexAt (Wireframe.createUVertices m) (Z.to_nat (1 * (3 + 1) + 2)).
Proof.
  intros m. split; [simpl; lia|]. split; [simpl; lia|].
  destruct (V_buffer_is_U_buffer_transposed m 1 2) as (Heq & _); [simpl; lia..|].
  exact Heq.
Defined.

Section WireframeFrame.
Context {num : Type} `{JsNumber num}.
Import Wireframe.

(** One frame of the wireframe: [updateModel()] creates two buffers of
    [(linesCount+1)^2] points each (none when [linesCount] is below -1) and
    issues [linesCount] line strips from each (none when [linesCount] is
    below 1). Every strip reads, through the vertex attribute, a buffer that
    was filled in this frame, and ends inside it: no draw call reads past
    the end of its buffer. *)
Theorem updateModel_strips_inside_buffers (iAttribVertex : Z) (gl : WebGL num)
    (radius amplitude wavesCount : num) (linesCount : Z) :
  let '(model, gl') :=
    WireframeMain.updateModel iAttribVertex gl radius amplitude wavesCount linesCount in
  let issued := drop (length (drawn gl)) (drawn gl') in
  let points := (Z.to_nat (linesCount + 1) * Z.to_nat (linesCount + 1))%nat in
  created gl' = S (S (created gl)) ∧
  store gl' !! uVertexBuffer model
    = Some (Float32Array (Float32Array_from (createUVertices model))) ∧
  store gl' !! vVertexBuffer model
    = Some (Float32Array (Float32Array_from (createVVertices model))) ∧
  length (createUVertices model) = (3 * points)%nat ∧
  length (createVVertices model) = (3 * points)%nat ∧
  uVertexCount model = Z.of_nat points ∧ vVertexCount model = Z.of_nat points ∧
  length issued = (2 * Z.to_nat linesCount)%nat ∧
  Forall (λ call,
    ∃ buffer data,
      attribs call !! iAttribVertex = Some buffer ∧
      store gl' !! buffer = Some (Float32Array data) ∧
      mode call = LINE_STRIP ∧ 0 ≤ first call ∧ 0 ≤ count call ∧
      (3 * Z.to_nat (first call + count call) ≤ length data)%nat) issued.
Proof.
  unfold WireframeMain.updateModel, new_Model, Model_bufferData.
  cbn -[createUVertices createVVertices draw Float32Array_from Z.div].
  set (m0 := mkModel radius amplitude wavesCount linesCount linesCount
               (created gl) (S (created gl)) 0 0).
  set (cu := Z.of_nat (length (createUVertices m0)) `div` 3).
  set (cv := Z.of_nat (length (createVVertices m0)) `div` 3).
  set (m1 := mkModel radius amplitude wavesCount linesCount linesCount
               (created gl) (S (created gl)) cu cv).
  assert (createUVertices m1 = createUVertices m0) as HU by done.
  assert (createVVertices m1 = createVVertices m0) as HV by done.
  pose proof (createUVertices_length m0) as HlenU.
  pose proof (createVVertices_length m0) as HlenV.
  cbn [segmentsU segmentsV m0] in HlenU, HlenV.
  rewrite draw_created, draw_store, draw_calls.
  cbn -[createUVertices createVVertices Float32Array_from Z.div].
  rewrite HU, HV.
  split; [done|].
  split; [by rewrite lookup_insert_ne, lookup_insert_eq by lia|].
  split; [by rewrite lookup_insert_eq|].
  split; [done|]. split; [done|].
  split; [unfold cu; rewrite HlenU, Nat2Z.inj_mul, Z.mul_comm, Z.div_mul; lia|].
  split; [unfold cv; rewrite HlenV, Nat2Z.inj_mul, Z.mul_comm, Z.div_mul; lia|].
  rewrite drop_app_length.
  split; [rewrite length_app, !length_fmap, !length_seqZ; lia|].
  apply Forall_app. split; apply Forall_fmap, Forall_seqZ; intros i Hi.
  - exists (created gl), (Float32Array_from (createUVertices m0)). simpl.
    rewrite lookup_insert_eq, lookup_insert_ne, lookup_insert_eq by lia.
    unfold Float32Array_from. rewrite length_fmap, HlenU.
    do 3 (split; [done|]). split; [nia|]. split; [lia|]. nia.
  - exists (S (created gl)), (Float32Array_from (createVVertices m0)). simpl.
    rewrite !lookup_insert_eq.
    unfold Float32Array_from. rewrite length_fmap, HlenV.
    do 3 (split; [done|]). split; [nia|]. split; [lia|]. nia.
Qed.
(** The strips of one frame are the curves, in order: for every [i] below
    [linesCount], the [i]-th draw call reads from the U-buffer exactly the
    points of the U-curve [i], and the [i]-th draw call of the second loop
    reads from the V-buffer exactly the points of the V-curve [i], as single
    precision numbers. *)
Theorem updateModel_strips_are_curves (iAttribVertex : Z) (gl : WebGL num)
    (radius amplitude wavesCount : num) (linesCount i : Z) :
  0 ≤ i < linesCount →
  let '(model, gl') :=
    WireframeMain.updateModel iAttribVertex gl radius amplitude wavesCount linesCount in
  let issued := drop (length (drawn gl)) (drawn gl') in
  ∃ ucall vcall,
    issued !! Z.to_nat i = Some ucall ∧
    issued !! (Z.to_nat linesCount + Z.to_nat i)%nat = Some vcall ∧
    attribs ucall !! iAttribVertex = Some (uVertexBuffer model) ∧
    attribs vcall !! iAttribVertex = Some (vVertexBuffer model) ∧
    strip (Float32Array_from (createUVertices model)) (first ucall) (count ucall)
      = Float32Array_from (flat3 (uCurve model i)) ∧
    strip (Float32Array_from (createVVertices model)) (first vcall) (count vcall)
      = Float32Array_from (flat3 (vCurve model i)).
Proof.
  intros Hi.
  unfold WireframeMain.updateModel, new_Model, Model_bufferData.
  cbn -[createUVertices createVVertices draw Float32Array_from Z.div uCurve vCurve strip].
  set (cu := Z.of_nat (length (createUVertices _)) `div` 3).
  set (cv := Z.of_nat (length (createVVertices _)) `div` 3).
  set (m1 := mkModel radius amplitude wavesCount linesCount linesCount
               (created gl) (S (created gl)) cu cv).
  rewrite draw_calls.
  cbn -[createUVertices createVVertices Float32Array_from Z.div uCurve vCurve strip].
  rewrite drop_app_length.
  eexists _, _. split; [|split].
  - rewrite lookup_app_l by (rewrite length_fmap, length_seqZ; lia).
    rewrite list_lookup_fmap, lookup_seqZ_lt by lia. reflexivity.
  - rewrite lookup_app_r by (rewrite length_fmap, length_seqZ; lia).
    rewrite length_fmap, length_seqZ.
    replace (Z.to_nat linesCount + Z.to_nat i - Z.to_nat linesCount)%nat
      with (Z.to_nat i) by lia.
    rewrite list_lookup_fmap, lookup_seqZ_lt by lia. reflexivity.
  - cbn [attribs first count]. rewrite Z.add_0_l, Z2Nat.id by lia.
    split; [by rewrite lookup_insert_eq|]. split; [by rewrite lookup_insert_eq|].
    unfold Float32Array_from. rewrite !strip_fmap.
    rewrite (createUVertices_curves m1), (createVVertices_curves m1).
    split; f_equal.
    + apply (strip_curves (uCurve m1) (linesCount + 1) (linesCount + 1) i); [|lia].
      intros k. unfold uCurve. by rewrite length_fmap, length_seqZ.
    + apply (strip_curves (vCurve m1) (linesCount + 1) (linesCount + 1) i); [|lia].
      intros k. unfold vCurve. by rewrite length_fmap, length_seqZ.
Qed.
End WireframeFrame.

Lemma updateModel_strips_are_curves_witness :
  0 ≤ 1 < 3 ∧
  let '(model, gl') :=
    WireframeMain.updateModel 0 (@emptyGL xreal) (Finite 10) (Finite 2) (Finite 5) 3 in
  ∃ ucall,
    drop (length (drawn (@emptyGL xreal))) (drawn gl') !! Z.to_nat 1 = Some ucall ∧
    attribs ucall !! 0 = Some (Wireframe.uVertexBuffer model) ∧
    strip (Float32Array_from (Wireframe.createUVertices model)) (first ucall) (count ucall)
      = Float32Array_from (flat3 (uCurve model 1)).
Proof.
  split; [lia|].
  pose proof (updateModel_strips_are_curves 0 (@emptyGL xreal) (Finite 10) (Finite 2)
                (Finite 5) 3 1 ltac:(lia)) as Hthm.
  destruct (WireframeMain.updateModel 0 emptyGL (Finite 10) (Finite 2) (Finite 5) 3)
    as [model gl'].
  destruct Hthm as (ucall & vcall & Hu & _ & Ha & _ & Hs & _).
  exists ucall. split; [exact Hu|]. split; [exact Ha|exact Hs].
Defined.

(** ** Uploading and drawing the triangulated model, frame after frame *)

Section SurfaceFrame.
Context {num : Type} `{JsNumber num}.
Import Surface.

(** The context that [bufferData()] leaves. *)
Lemma Model_bufferData_context (m : Model num) (gl : WebGL num) :
  Model_bufferData m gl
  = mkWebGL (created gl) (Some (normalBuffer m)) (Some (indexBuffer m))
      (<[normalBuffer m :=
           Float32Array (Float32Array_from
             (getFacetWeightedNormals (getVertices m) (getIndices m)))]>
         (<[indexBuffer m := Uint16Array (Uint16Array_from (getIndices m))]>
            (<[vertexBuffer m := Float32Array (Float32Array_from (getVertices m))]>
               (store gl))))
      (attribSource gl) (drawn gl).
Proof.
  unfold Model_bufferData, bufferData, bindBuffer.
  cbn -[getVertices getIndices getFacetWeightedNormals Float32Array_from Uint16Array_from].
  done.
Qed.

Lemma Model_bufferData_twice (m : Model num) (gl : WebGL num) :
  Model_bufferData m (Model_bufferData m gl) = Model_bufferData m gl.
Proof.
  rewrite (Model_bufferData_context m (Model_bufferData m gl)).
  rewrite !(Model_bufferData_context m gl). cbn [created store attribSource drawn].
  f_equal. apply map_eq. intros b. rewrite !lookup_insert.
  repeat case_decide; done.
Qed.

(** [bufferData()] a second time changes nothing: the context it leaves is
    the one it was given, and so after any number of further calls. This is
    what the call of [model.bufferData()] in [updateModel()] does, the
    constructor having uploaded the arrays already. *)
Theorem Model_bufferData_idempotent (m : Model num) (gl : WebGL num) (k : nat) :
  Model_bufferData m (Model_bufferData m gl) = Model_bufferData m gl ∧
  Nat.iter (S k) (Model_bufferData m) gl = Model_bufferData m gl.
Proof.
  split; [apply Model_bufferData_twice|].
  induction k as [|k IH]; [done|].
  change (Nat.iter (S (S k)) (Model_bufferData m) gl)
    with (Model_bufferData m (Nat.iter (S k) (Model_bufferData m) gl)).
  rewrite IH. apply Model_bufferData_twice.
Qed.

(** The element count that [draw()] passes to [drawElements] is
    [segmentsU * segmentsV * 6]. It is the number of uploaded indices
    exactly when no segment count is negative or one of them is zero; when
    both are negative the index list is empty and the count is positive. *)
Theorem Model_draw_count (aVertex aNormal : Z) (m : Model num) (gl : WebGL num) :
  let call := (Model_draw aVertex aNormal m gl).2 in
  elementsCount call = segmentsCountU m * segmentsCountV m * 6 ∧
  elementsBuffer call = Some (indexBuffer m) ∧
  (elementsCount call = Z.of_nat (length (getIndices m))
   ↔ (0 ≤ segmentsCountU m ∧ 0 ≤ segmentsCountV m)
     ∨ segmentsCountU m = 0 ∨ segmentsCountV m = 0) ∧
  (segmentsCountU m < 0 → segmentsCountV m < 0 →
   getIndices m = [] ∧ 0 < elementsCount call).
Proof.
  intros call. unfold call, Model_draw, drawElements, bindBuffer, vertexAttribPointer.
  cbn [snd elementsCount elementsBuffer elementBinding].
  split; [done|]. split; [done|]. split.
  - rewrite getIndices_cells, (cells_length 6) by done. nia.
  - intros HU HV. split; [apply getIndices_degenerate; lia|nia].
Qed.
(** What one [updateModel()] does to the context. *)
Lemma updateModel_run (aVertex aNormal : Z) (gl : WebGL num)
    (p : SurfaceMain.Parameters num) :
  let model :=
    mkModel (SurfaceMain.radius p) (SurfaceMain.amplitude p) (SurfaceMain.wavesCount p)
      (SurfaceMain.segmentsCountByU p) (SurfaceMain.segmentsCountByV p)
      (created gl) (S (created gl)) (S (S (created gl))) in
  let uploaded :=
    <[normalBuffer model :=
        Float32Array (Float32Array_from
          (getFacetWeightedNormals (getVertices model) (getIndices model)))]>
      (<[indexBuffer model := Uint16Array (Uint16Array_from (getIndices model))]>
         (<[vertexBuffer model := Float32Array (Float32Array_from (getVertices model))]>
            (store gl))) in
  SurfaceMain.updateModel aVertex aNormal gl p
  = Normal
      (model,
       mkWebGL (S (S (S (created gl)))) (Some (normalBuffer model)) (Some (indexBuffer model))
         uploaded
         (<[aNormal := normalBuffer model]> (<[aVertex := vertexBuffer model]> (attribSource gl)))
         (drawn gl),
       mkDrawElementsCall
         (<[aNormal := normalBuffer model]> (<[aVertex := vertexBuffer model]> (attribSource gl)))
         (Some (indexBuffer model)) TRIANGLES
         (segmentsCountU model * segmentsCountV model * 6) 0).
Proof.
  intros model uploaded. unfold SurfaceMain.updateModel, new_Model, createBuffer.
  cbn -[Model_bufferData Model_draw getVertices getIndices getFacetWeightedNormals].
  fold model. rewrite Model_bufferData_twice, Model_bufferData_context.
  unfold Model_draw, drawElements, vertexAttribPointer, bindBuffer.
  cbn -[getVertices getIndices getFacetWeightedNormals Float32Array_from Uint16Array_from].
  done.
Qed.

(** One frame of the triangulated model, for every parameter set and
    distinct attribute locations: [updateModel()] completes; the vertex and
    normal attributes of its draw call read two buffers of the same length
    that hold the vertices and the facet-weighted normals, and its element
    buffer holds the wrapped indices; every index in the element buffer names
    a point that both attribute buffers hold, so the draw call never reads a
    vertex outside the uploaded arrays. *)
Theorem updateModel_draws_inside_arrays (aVertex aNormal : Z) (gl : WebGL num)
    (p : SurfaceMain.Parameters num) :
  aVertex ≠ aNormal →
  ∃ model gl' call vertexData normalData indexData vertexBuf normalBuf indexBuf,
    SurfaceMain.updateModel aVertex aNormal gl p = Normal (model, gl', call) ∧
    elementsAttribs call !! aVertex = Some vertexBuf ∧
    store gl' !! vertexBuf = Some (Float32Array vertexData) ∧
    vertexData = Float32Array_from (getVertices model) ∧
    elementsAttribs call !! aNormal = Some normalBuf ∧
    store gl' !! normalBuf = Some (Float32Array normalData) ∧
    normalData = Float32Array_from
                   (getFacetWeightedNormals (getVertices model) (getIndices model)) ∧
    elementsBuffer call = Some indexBuf ∧
    store gl' !! indexBuf = Some (Uint16Array indexData) ∧
    indexData = Uint16Array_from (getIndices model) ∧
    length normalData = length vertexData ∧
    Forall (λ k, 0 ≤ k ∧ (3 * Z.to_nat k + 2 < length vertexData)%nat) indexData.
Proof.
  intros Hloc. pose proof (updateModel_run aVertex aNormal gl p) as Hrun.
  cbv zeta in Hrun. eexists _, _, _, _, _, _, _, _, _. split; [exact Hrun|].
  cbn [elementsAttribs elementsBuffer store vertexBuffer normalBuffer indexBuffer].
  split; [by rewrite lookup_insert_ne, lookup_insert_eq|].
  split; [by rewrite !lookup_insert_ne, lookup_insert_eq by lia|].
  split; [done|].
  split; [by rewrite lookup_insert_eq|].
  split; [by rewrite lookup_insert_eq|].
  split; [done|].
  split; [done|].
  split; [by rewrite lookup_insert_ne, lookup_insert_eq by lia|].
  split; [done|].
  set (model := mkModel _ _ _ _ _ _ _ _).
  unfold Float32Array_from at 1 2. rewrite !length_fmap.
  split; [apply getFacetWeightedNormals_length|].
  unfold Float32Array_from. rewrite length_fmap, getVertices_length.
  destruct (decide (segmentsCountU model < 1 ∨ segmentsCountV model < 1)) as [Hdeg|Hcells].
  { rewrite (getIndices_degenerate model Hdeg). apply Forall_nil_2. }
  eapply Forall_impl; [apply (uploaded_indices_bound model)|].
  clearbody model. clear Hrun. intros k [Hk0 Hk1]. split; [exact Hk0|]. nia.
Qed.

(** A run of frames never frees or reuses a buffer: every frame creates
    three new buffers, the buffers that existed before the run keep their
    contents, and every buffer created during the run still holds data at
    the end. One draw call is issued per frame. *)
Theorem frames_keep_every_buffer (aVertex aNormal : Z)
    (ps : list (SurfaceMain.Parameters num)) (gl : WebGL num) :
  ∃ gl' calls,
    SurfaceMain.frames aVertex aNormal ps gl = Normal (gl', calls) ∧
    length calls = length ps ∧
    created gl' = (created gl + 3 * length ps)%nat ∧
    (∀ b, (b < created gl)%nat → store gl' !! b = store gl !! b) ∧
    (∀ b, (created gl ≤ b < created gl')%nat → is_Some (store gl' !! b)).
Proof.
  unfold SurfaceMain.frames.
  assert (∀ (calls0 : list DrawElementsCall),
    ∃ gl' calls,
      foldl (λ state p,
        match state with
        | Normal (gl, calls) =>
            match SurfaceMain.updateModel aVertex aNormal gl p with
            | Normal (_, gl, call) => Normal (gl, calls ++ [call])
            | Throw e => Throw e
            end
        | Throw e => Throw e
        end) (Normal (gl, calls0)) ps = Normal (gl', calls0 ++ calls) ∧
      length calls = length ps ∧
      created gl' = (created gl + 3 * length ps)%nat ∧
      (∀ b, (b < created gl)%nat → store gl' !! b = store gl !! b) ∧
      (∀ b, (created gl ≤ b < created gl')%nat → is_Some (store gl' !! b))) as Hgen.
  { set (step := λ (state : Completion (WebGL num * list DrawElementsCall)) p,
      match state with
      | Normal (gl, calls) =>
          match SurfaceMain.updateModel aVertex aNormal gl p with
          | Normal (_, gl, call) => Normal (gl, calls ++ [call])
          | Throw e => Throw e
          end
      | Throw e => Throw e
      end).
    revert gl. induction ps as [|p ps IH]; intros gl calls0.
    - exists gl, []. rewrite app_nil_r. simpl. repeat split; try done; lia.
    - change (foldl step (Normal (gl, calls0)) (p :: ps))
        with (foldl step (step (Normal (gl, calls0)) p) ps).
      unfold step at 2. cbv beta iota. rewrite updateModel_run. cbv beta iota zeta.
      match goal with |- context [Normal (?g, calls0 ++ [?c])] =>
        destruct (IH g (calls0 ++ [c])) as (gl' & calls & Hfold & Hlen & Hcreated & Hold & Hnew);
        exists gl', (c :: calls) end.
      cbn [created store vertexBuffer indexBuffer normalBuffer] in Hcreated, Hold, Hnew.
      split; [by rewrite Hfold, <- app_assoc|].
      split; [simpl; lia|]. split; [simpl; lia|]. split.
      + intros b Hb. rewrite Hold by lia. by rewrite !lookup_insert_ne by lia.
      + intros b Hb.
        destruct (decide (b < S (S (S (created gl))))%nat) as [Hlt|Hge]; [|apply Hnew; lia].
        rewrite Hold by lia.
        destruct (decide (b = S (S (created gl)))) as [->|?];
          [by rewrite lookup_insert_eq|rewrite lookup_insert_ne by lia].
        destruct (decide (b = S (created gl))) as [->|?];
          [by rewrite lookup_insert_eq|rewrite lookup_insert_ne by lia].
        replace b with (created gl) by lia. by rewrite lookup_insert_eq. }
  destruct (Hgen []) as (gl' & calls & Hfold & Hrest). exists gl', calls.
  split; [exact Hfold|exact Hrest].
Qed.
End SurfaceFrame.

Lemma updateModel_draws_inside_arrays_witness :
  (0 : Z) ≠ 1 ∧
  ∃ model gl' call,
    SurfaceMain.updateModel 0 1 (@emptyGL xreal)
      (SurfaceMain.mkParameters (Finite 10) (Finite 2) (Finite 5) 4 3)
    = Normal (model, gl', call) ∧
    Forall (λ k, 0 ≤ k ∧
                 (3 * Z.to_nat k + 2 < length (Float32Array_from (Surface.getVertices model)))%nat)
      (Uint16Array_from (Surface.getIndices model)).
Proof.
  split; [lia|].
  destruct (updateModel_draws_inside_arrays 0 1 (@emptyGL xreal)
              (SurfaceMain.mkParameters (Finite 10) (Finite 2) (Finite 5) 4 3) ltac:(lia))
    as (model & gl' & call & vd & nd & id & vb & nb & ib & Hrun & _ & _ & -> & _ & _ & _
        & _ & _ & -> & _ & Hall).
  exists model, gl', call. split; [exact Hrun|exact Hall].
Defined.

(** ** The pole and the two boundary rings, in exact arithmetic *)

Section PoleAndRings.
Import Surface.
Local Open Scope R_scope.

Lemma vertex_finite (m : Model xreal) (r c w : R) (i j : Z) :
  radius m = Finite r → a m = Finite c → n m = Finite w →
  (1 ≤ segmentsCountU m)%Z → (1 ≤ segmentsCountV m)%Z →
  (0 ≤ i ≤ segmentsCountU m)%Z → (0 ≤ j ≤ segmentsCountV m)%Z →
  vertexAt (getVertices m) (Z.to_nat (i * (segmentsCountV m + 1) + j))
  = Some (finite3 (positionR r c w (segmentsCountU m) (segmentsCountV m) i j)).
Proof.
  intros Hr Hc Hw HU HV Hi Hj. rewrite (getVertices_finite m r c w) by done.
  by rewrite vertexAt_flat3, list_lookup_fmap, grid_lookup by lia.
Qed.

(** With an even number of V-segments, the middle vertex of every U-curve
    is the pole [(0, 0, radius)]: the whole middle row of the grid is one
    point, whatever the amplitude and the wave count. *)
Theorem pole_vertices_coincide (m : Model xreal) (r c w : R) (half i : Z) :
  radius m = Finite r → a m = Finite c → n m = Finite w →
  (1 ≤ segmentsCountU m)%Z → (1 ≤ half)%Z → segmentsCountV m = (2 * half)%Z →
  (0 ≤ i ≤ segmentsCountU m)%Z →
  vertexAt (getVertices m) (Z.to_nat (i * (segmentsCountV m + 1) + half))
  = Some (Finite 0, Finite 0, Finite r).
Proof.
  intros Hr Hc Hw HU Hhalf HV Hi.
  rewrite (vertex_finite m r c w) by (done || lia).
  unfold positionR, finite3. rewrite HV.
  replace (IZR half / IZR (2 * half) * PI) with (PI / 2).
  - rewrite cos_PI2, sin_PI2. f_equal. f_equal; [f_equal|]; f_equal; ring.
  - rewrite mult_IZR. field. apply not_0_IZR. lia.
Qed.

(** The first and the last vertex of every U-curve lie in the plane
    [z = 0]: the grid has two boundary rings there, of radius
    [radius + amplitude * cos (waveCount * phi)] at [v = 0] and
    [- radius + amplitude * cos (waveCount * phi)] at [v = pi]. *)
Theorem boundary_rings (m : Model xreal) (r c w : R) (i : Z) :
  radius m = Finite r → a m = Finite c → n m = Finite w →
  (1 ≤ segmentsCountU m)%Z → (1 ≤ segmentsCountV m)%Z →
  (0 ≤ i ≤ segmentsCountU m)%Z →
  let phi := IZR i / IZR (segmentsCountU m) * 2 * PI in
  vertexAt (getVertices m) (Z.to_nat (i * (segmentsCountV m + 1) + 0))
    = Some (Finite ((r + c * cos (w * phi)) * cos phi),
            Finite ((r + c * cos (w * phi)) * sin phi), Finite 0) ∧
  vertexAt (getVertices m) (Z.to_nat (i * (segmentsCountV m + 1) + segmentsCountV m))
    = Some (Finite ((- r + c * cos (w * phi)) * cos phi),
            Finite ((- r + c * cos (w * phi)) * sin phi), Finite 0).
Proof.
  intros Hr Hc Hw HU HV Hi phi.
  rewrite !(vertex_finite m r c w) by (done || lia).
  unfold positionR, finite3. fold phi.
  replace (IZR 0 / IZR (segmentsCountV m) * PI) with 0
    by (change (IZR 0) with 0; unfold Rdiv; ring).
  replace (IZR (segmentsCountV m) / IZR (segmentsCountV m) * PI) with PI
    by (field; apply not_0_IZR; lia).
  rewrite cos_0, sin_0, cos_PI, sin_PI.
  split; f_equal; (f_equal; [f_equal|]); f_equal; ring.
Qed.
End PoleAndRings.

Lemma pole_vertices_coincide_witness :
  let m := Surface.mkModel (Finite 10) (Finite 2) (Finite 5) 4 6 0%nat 1%nat 2%nat in
  Surface.radius m = Finite 10 ∧ Surface.a m = Finite 2 ∧ Surface.n m = Finite 5 ∧
  1 ≤ Surface.segmentsCountU m ∧ 1 ≤ 3 ∧ Surface.segmentsCountV m = 2 * 3 ∧
  0 ≤ 1 ≤ Surface.segmentsCountU m ∧
  vertexAt (Surface.getVertices m) (Z.to_nat (1 * (6 + 1) + 3))
  = Some (Finite 0, Finite 0, Finite 10).
Proof.
  intros m. do 3 (split; [reflexivity|]). do 2 (split; [simpl; lia|]).
  split; [reflexivity|]. split; [simpl; lia|].
  apply (pole_vertices_coincide m 10 2 5 3 1); try reflexivity; simpl; lia.
Defined.

Lemma boundary_rings_witness :
  let m := Surface.mkModel (Finite 10) (Finite 2) (Finite 5) 4 3 0%nat 1%nat 2%nat in
  Surface.radius m = Finite 10 ∧ Surface.a m = Finite 2 ∧ Surface.n m = Finite 5 ∧
  1 ≤ Surface.segmentsCountU m ∧ 1 ≤ Surface.segmentsCountV m ∧
  0 ≤ 1 ≤ Surface.segmentsCountU m ∧
  vertexAt (Surface.getVertices m) (Z.to_nat (1 * (3 + 1) + 3))
  = Some (Finite ((- 10 + 2 * cos (5 * (IZR 1 / IZR 4 * 2 * PI))) * cos (IZR 1 / IZR 4 * 2 * PI)),
          Finite ((- 10 + 2 * cos (5 * (IZR 1 / IZR 4 * 2 * PI))) * sin (IZR 1 / IZR 4 * 2 * PI)),
          Finite 0)%R.
Proof.
  intros m. do 3 (split; [reflexivity|]). do 3 (split; [simpl; lia|]).
  destruct (boundary_rings m 10 2 5 1) as (_ & Hlast);
    [reflexivity|reflexivity|reflexivity|simpl; lia..|].
  exact Hlast.
Defined.

(** ** The two upload methods of the triangulated model *)

Section UploadVariants.
Context {num : Type} `{JsNumber num}.
Import Surface.

Lemma Model_bufferData_analytic_context (m : Model num) (gl : WebGL num) :
  Model_bufferData_analytic m gl
  = mkWebGL (created gl) (Some (normalBuffer m)) (Some (indexBuffer m))
      (<[indexBuffer m := Uint16Array (Uint16Array_from (getIndices m))]>
         (<[normalBuffer m := Float32Array (Float32Array_from (getNormals m))]>
            (<[vertexBuffer m := Float32Array (Float32Array_from (getVertices m))]>
               (store gl))))
      (attribSource gl) (drawn gl).
Proof.
  unfold Model_bufferData_analytic, bufferData, bindBuffer.
  cbn -[getVertices getIndices getNormals Float32Array_from Uint16Array_from].
  done.
Qed.

(** The [bufferData()] that uploads analytic normals and the one that
    uploads facet-weighted normals leave the same context but for the
    contents of the normal buffer: the same bindings, the same vertex and
    index data, nothing created and nothing drawn. When the index buffer is
    not the normal buffer, the normal buffer of the first holds the analytic
    normals, which are as many numbers as the facet-weighted ones. *)
Theorem Model_bufferData_variants (m : Model num) (gl : WebGL num) :
  let facet := Model_bufferData m gl in
  let analytic := Model_bufferData_analytic m gl in
  created analytic = created facet ∧
  arrayBinding analytic = arrayBinding facet ∧
  elementBinding analytic = elementBinding facet ∧
  attribSource analytic = attribSource facet ∧
  drawn analytic = drawn facet ∧
  (∀ b, b ≠ normalBuffer m → store analytic !! b = store facet !! b) ∧
  (indexBuffer m ≠ normalBuffer m →
     store analytic !! normalBuffer m
       = Some (Float32Array (Float32Array_from (getNormals m))) ∧
     length (getNormals m)
       = length (getFacetWeightedNormals (getVertices m) (getIndices m))).
Proof.
  intros facet analytic. unfold facet, analytic.
  rewrite Model_bufferData_analytic_context, Model_bufferData_context.
  cbn [created arrayBinding elementBinding store attribSource drawn].
  do 5 (split; [done|]). split.
  - intros b Hb. rewrite !lookup_insert. repeat case_decide; congruence.
  - intros Hin. split.
    + rewrite lookup_insert_ne by done. by rewrite lookup_insert_eq.
    + by rewrite getFacetWeightedNormals_length, getNormals_length.
Qed.
End UploadVariants.
